(** * GCL: a shallow embedding of the lexer, the parser and the document value

    The development follows the layout of the library:
    - [include/gcl/misc.hh]       : [Span]
    - [include/gcl/exception.hh]  : [GclErrorID], [GclException]
    - [include/gcl/value.hh]      : [ValueType], [ValueData], [Value]
    - [src/tokenizer.hh], [.cc]   : [TokenKind], [Punctuaction], [Token], [Tokenizer]
    - [src/parser.cc]             : [parseValue], [parseArray], [parseDict], [parse]

    Conventions.  [size_t] counters (index, line, column) are [nat]; [uintptr_t]
    and [intptr_t] are [Z] with the 64-bit wrap-around written out; [char] is
    [ascii]; [std::string] is [string]; [std::vector<Value>] is [list Value];
    [std::map<std::string, Value>] is a key-sorted association list.  Loops are
    fixpoints on a fuel argument and report [OutOfFuel] when it runs out. *)

From Stdlib Require Import ZArith List Bool Ascii String Lia Arith DecimalString.
From Stdlib Require Import OrderedTypeEx.
From Stdlib Require DecimalPos.
Import ListNotations.

Set Implicit Arguments.

(* ================================================================= *)
(** ** include/gcl/misc.hh *)

Module Span.
Record t : Set := make
  { beginLineNumber : nat;
    beginColumnNumber : nat;
    endLineNumber : nat;
    endColumnNumber : nat }.

(** [Span{}]: every member has the default initialiser 0. *)
Definition zero : t := make 0 0 0 0.
End Span.

(* ================================================================= *)
(** ** include/gcl/exception.hh *)

Module GclErrorID.
Inductive t : Set :=
| ExpectedIdentifier
| ExpectedNumber
| ExpectedPunctuaction
| ExpectedStringEnd
| ExpectedValue
| KeyAlreadyDefined
| InvalidDigit
| InvalidEscape
| UnknownChar.
End GclErrorID.

Module GclException.
(** The three data members.  [errorID] is of enumeration type and the class
    gives it no default member initialiser, so a member the constructor does
    not initialise holds an indeterminate value: [None]. *)
Record t : Set := make
  { errorID : option GclErrorID.t;
    span : Span.t;
    info : string }.

(** [GclException(GclErrorID errorID, Span span, std::string&& info) :
       span{span}, info{std::move(info)} {}]
    The initialiser list names [span] and [info] only. *)
Definition ctor (errorID' : GclErrorID.t) (span' : Span.t) (info' : string) : t :=
  {| errorID := None; span := span'; info := info' |}.

Definition what (e : t) : string := info e.
End GclException.

(* ================================================================= *)
(** ** include/gcl/value.hh *)

Module ValueType.
Inductive t : Set :=
| Undefined | Null | Bool | Int | Float | String | Array | Dict.

Definition eqb (a b : t) : bool :=
  match a, b with
  | Undefined, Undefined | Null, Null | Bool, Bool | Int, Int
  | Float, Float | String, String | Array, Array | Dict, Dict => true
  | _, _ => false
  end.
End ValueType.

(** Machine integers: [intptr_t] and [uintptr_t] are 64 bits wide. *)
Definition ptr_bits : Z := 64.
Definition ptr_modulus : Z := 2 ^ ptr_bits.

(** Conversion to [uintptr_t]: reduction modulo 2^64. *)
Definition to_uintptr (z : Z) : Z := (z mod ptr_modulus)%Z.

(** Conversion of a [uintptr_t] to [intptr_t]: the two's-complement reading. *)
Definition to_intptr (z : Z) : Z :=
  let u := (z mod ptr_modulus)%Z in
  if (u <? ptr_modulus / 2)%Z then u else (u - ptr_modulus)%Z.

(** A [float] is carried as its 32-bit IEEE pattern; no arithmetic is done on it. *)
Definition float : Set := Z.

(** [union ValueData]: the constructor says which member is live.
    [data_indeterminate] stands for storage whose bytes were produced by reading
    a member that was not the live one. *)
Inductive Value : Set :=
| mkValue (type : ValueType.t) (data : ValueData)
with ValueData : Set :=
| data_b (x : bool)
| data_i (x : Z)
| data_f (x : float)
| data_string (x : string)
| data_array (x : list Value)
| data_dict (x : list (string * Value))
| data_indeterminate.

(** [using String = std::string;] and its two siblings, under the name of the
    C++ namespace. *)
Module gcl.
Definition String : Set := string.
Definition Array : Set := list Value.
Definition Dict : Set := list (string * Value).
End gcl.

Definition type (v : Value) : ValueType.t := let (t, _) := v in t.
Definition data (v : Value) : ValueData := let (_, d) := v in d.

(** *** [std::map<std::string, Value>]

    Keys compare with [std::less<std::string>], the lexicographic order on the
    characters read as unsigned bytes: [String.compare].  The container is the
    list of its entries in iteration order. *)
Module StdMap.
Section Entries.
Variable V : Type.

Definition t : Type := list (string * V).

Definition empty : t := [].

Definition size (m : t) : nat := List.length m.

Definition keys (m : t) : list string := map fst m.

Fixpoint find (k : string) (m : t) : option V :=
  match m with
  | [] => None
  | (k', v') :: rest =>
      match String.compare k k' with
      | Eq => Some v'
      | Lt => None
      | Gt => find k rest
      end
  end.

(** [insert(value_type&&)]: the new container, the entry the returned
    iterator points to, and whether the insertion took place.  An entry
    whose key is already present is left as it was. *)
Fixpoint insert (kv : string * V) (m : t) : t * (string * V) * bool :=
  match m with
  | [] => ([kv], kv, true)
  | (k', v') :: rest =>
      match String.compare (fst kv) k' with
      | Lt => (kv :: (k', v') :: rest, kv, true)
      | Eq => ((k', v') :: rest, (k', v'), false)
      | Gt => let '(rest', it, ok) := insert kv rest in
              ((k', v') :: rest', it, ok)
      end
  end.
End Entries.
End StdMap.

Module ValueOps.
(** Constructors. *)
Definition Value_default : Value := mkValue ValueType.Undefined (data_i 0).
Definition Value_nullptr : Value := mkValue ValueType.Null (data_i 0).
Definition Value_bool (x : bool) : Value := mkValue ValueType.Bool (data_b x).
Definition Value_intptr (x : Z) : Value := mkValue ValueType.Int (data_i x).
Definition Value_float (x : float) : Value := mkValue ValueType.Float (data_f x).
Definition Value_String (x : gcl.String) : Value := mkValue ValueType.String (data_string x).
Definition Value_Array (x : gcl.Array) : Value := mkValue ValueType.Array (data_array x).
Definition Value_Dict (x : gcl.Dict) : Value := mkValue ValueType.Dict (data_dict x).

(** [copyDataTo(dest)]: the new contents of [dest]. *)
Definition copyDataTo (this : Value) : ValueData :=
  match type this, data this with
  | ValueType.Bool, data_b x => data_b x
  | ValueType.Int, data_i x => data_i x
  | ValueType.Float, data_f x => data_f x
  | ValueType.String, data_string x => data_string x
  | ValueType.Array, data_array x => data_array x
  | ValueType.Dict, data_dict x => data_dict x
  | ValueType.Undefined, _ | ValueType.Null, _ => data_i 0
  | _, _ => data_indeterminate
  end.

(** [moveDataTo(dest)]: the new contents of [dest] and what is left in
    [this->data].  A moved-from string, vector or map is empty. *)
Definition moveDataTo (this : Value) : ValueData * ValueData :=
  match type this, data this with
  | ValueType.Bool, data_b x => (data_b x, data_b x)
  | ValueType.Int, data_i x => (data_i x, data_i x)
  | ValueType.Float, data_f x => (data_f x, data_f x)
  | ValueType.String, data_string x => (data_string x, data_string EmptyString)
  | ValueType.Array, data_array x => (data_array x, data_array [])
  | ValueType.Dict, data_dict x => (data_dict x, data_dict [])
  | ValueType.Undefined, d | ValueType.Null, d => (data_i 0, d)
  | _, d => (data_indeterminate, d)
  end.

(** [releaseData()]: what is left in [this->data] and the members whose
    destructor ran.  Storage whose member was destroyed has no live member. *)
Definition releaseData (this : Value) : ValueData * list ValueData :=
  match type this with
  | ValueType.String | ValueType.Array | ValueType.Dict =>
      (data_indeterminate, [data this])
  | _ => (data this, [])
  end.

(** [~Value()]: the members released. *)
Definition dtor (this : Value) : list ValueData :=
  if negb (ValueType.eqb (type this) ValueType.Undefined)
  then snd (releaseData this)
  else [].

(** [clear()]: the object afterwards and the members released. *)
Definition clear (this : Value) : Value * list ValueData :=
  if negb (ValueType.eqb (type this) ValueType.Undefined)
  then let '(d, released) := releaseData this in
       (mkValue ValueType.Undefined d, released)
  else (this, []).

(** [Value(Value const& that)]. *)
Definition copy_ctor (that : Value) : Value :=
  mkValue (type that) (copyDataTo that).

(** [Value(Value&& that)]: the new object and [that] afterwards. *)
Definition move_ctor (that : Value) : Value * Value :=
  let type0 := type that in
  let '(dest, remains) := moveDataTo that in
  (mkValue type0 dest, mkValue ValueType.Undefined remains).

(** Assignment works on two objects that may be one and the same, so it is
    stated on a store of objects: addresses are [nat]. *)
Definition Store : Set := nat -> Value.

Definition store (sigma : Store) (a : nat) (v : Value) : Store :=
  fun x => if Nat.eqb x a then v else sigma x.

Definition set_type (sigma : Store) (a : nat) (ty : ValueType.t) : Store :=
  store sigma a (mkValue ty (data (sigma a))).

Definition set_data (sigma : Store) (a : nat) (d : ValueData) : Store :=
  store sigma a (mkValue (type (sigma a)) d).

(** The first statement of both assignment operators:
    [if (type != ValueType::Undefined) releaseData();] *)
Definition release_if_defined (this : nat) (sigma : Store) : Store * list ValueData :=
  if negb (ValueType.eqb (type (sigma this)) ValueType.Undefined)
  then let '(d, released) := releaseData (sigma this) in
       (set_data sigma this d, released)
  else (sigma, []).


(** [Value& operator =(Value&& that)]. *)
Definition move_assign (this that : nat) (sigma : Store) : Store * list ValueData :=
  let '(sigma1, released) := release_if_defined this sigma in
  let sigma2 := set_type sigma1 this (type (sigma1 that)) in
  let '(dest, remains) := moveDataTo (sigma2 that) in
  let sigma3 := set_data (set_data sigma2 that remains) this dest in
  let sigma4 := set_type sigma3 that ValueType.Undefined in
  (sigma4, released).

Definition isNull (this : Value) : bool := ValueType.eqb (type this) ValueType.Null.

(** Result of a typed accessor: the member, the [std::runtime_error] it
    throws, or an indeterminate read when the tag names a member that is
    not the live one. *)
Inductive Access (A : Type) : Type :=
| Returns (x : A)
| runtime_error (what : string)
| Indeterminate.
Arguments Returns {A} x.
Arguments runtime_error {A} what.
Arguments Indeterminate {A}.

Definition getBool (this : Value) : Access bool :=
  if negb (ValueType.eqb (type this) ValueType.Bool)
  then runtime_error "Value::getBool() -> type mismatch"
  else match data this with data_b x => Returns x | _ => Indeterminate end.

Definition getInt (this : Value) : Access Z :=
  if negb (ValueType.eqb (type this) ValueType.Int)
  then runtime_error "Value::getInt() -> type mismatch"
  else match data this with data_i x => Returns x | _ => Indeterminate end.

Definition getFloat (this : Value) : Access float :=
  if negb (ValueType.eqb (type this) ValueType.Float)
  then runtime_error "Value::getFloat() -> type mismatch"
  else match data this with data_f x => Returns x | _ => Indeterminate end.

Definition getString (this : Value) : Access gcl.String :=
  if negb (ValueType.eqb (type this) ValueType.String)
  then runtime_error "Value::getString() -> type mismatch"
  else match data this with data_string x => Returns x | _ => Indeterminate end.

Definition getArray (this : Value) : Access gcl.Array :=
  if negb (ValueType.eqb (type this) ValueType.Array)
  then runtime_error "Value::getArray() -> type mismatch"
  else match data this with data_array x => Returns x | _ => Indeterminate end.

Definition getDict (this : Value) : Access gcl.Dict :=
  if negb (ValueType.eqb (type this) ValueType.Dict)
  then runtime_error "Value::getDict() -> type mismatch"
  else match data this with data_dict x => Returns x | _ => Indeterminate end.
End ValueOps.

(* ================================================================= *)
(** ** src/tokenizer.hh *)

Module TokenKind.
Inductive t : Set := Eof | Int | Float | Identifier | String | Punctuaction.
End TokenKind.

Module Punctuaction.
Inductive t : Set := Lbrace | Rbrace | Lsqb | Rsqb | Comma | Colon.

Definition eqb (a b : t) : bool :=
  match a, b with
  | Lbrace, Lbrace | Rbrace, Rbrace | Lsqb, Lsqb
  | Rsqb, Rsqb | Comma, Comma | Colon, Colon => true
  | _, _ => false
  end.
End Punctuaction.

(** [TokenKind kind] with the member of [union TokenData] that the kind
    selects; every read of the union in the sources is behind a test of
    [kind]. *)
Inductive TokenData : Set :=
| tok_Eof
| tok_Int (i : Z)
| tok_Float (f : float)
| tok_Identifier (identifier : string)
| tok_String (string : string)
| tok_Punctuaction (punctuaction : Punctuaction.t).

Module Token.
Record t : Set := make
  { span : Span.t;
    content : TokenData }.

Definition kind (tok : t) : TokenKind.t :=
  match content tok with
  | tok_Eof => TokenKind.Eof
  | tok_Int _ => TokenKind.Int
  | tok_Float _ => TokenKind.Float
  | tok_Identifier _ => TokenKind.Identifier
  | tok_String _ => TokenKind.String
  | tok_Punctuaction _ => TokenKind.Punctuaction
  end.

(** [constexpr Token() : kind{TokenKind::Eof} {}] *)
Definition init : t := make Span.zero tok_Eof.

(** [reset()]: release the payload, [kind = Eof], [span = {}]. *)
Definition reset (tok : t) : t := make Span.zero tok_Eof.

Definition is_punctuaction (p : Punctuaction.t) (tok : t) : bool :=
  match content tok with
  | tok_Punctuaction q => Punctuaction.eqb q p
  | _ => false
  end.
End Token.

Definition NUL : ascii := "000"%char.
Definition LF : ascii := "010"%char.
Definition TAB : ascii := "009"%char.

Module Tokenizer.
(** The data members, and [reads]: the indices at which [m_chars] has been
    dereferenced so far, most recent first. *)
Record t : Set := make
  { m_chars : list ascii;
    m_length : nat;
    m_index : nat;
    m_lineNumber : nat;
    m_columNumber : nat;
    m_char : ascii;
    m_token : Token.t;
    reads : list nat }.

(** [Tokenizer()] *)
Definition init : t := make [] 0 0 1 0 NUL Token.init [].

Definition with_char (c : ascii) (tz : t) : t :=
  make (m_chars tz) (m_length tz) (m_index tz) (m_lineNumber tz)
       (m_columNumber tz) c (m_token tz) (reads tz).

Definition with_token (tok : Token.t) (tz : t) : t :=
  make (m_chars tz) (m_length tz) (m_index tz) (m_lineNumber tz)
       (m_columNumber tz) (m_char tz) tok (reads tz).

Definition with_content (c : TokenData) (tz : t) : t :=
  with_token (Token.make (Token.span (m_token tz)) c) tz.

(** [m_chars[i]]: the character, and the index goes on record. *)
Definition deref (i : nat) (tz : t) : ascii * list nat :=
  (nth i (m_chars tz) NUL, i :: reads tz).

(** [setText(chars, length)] *)
Definition setText (chars : list ascii) (length : nat) (tz : t) : t :=
  let tz1 := make chars length 0 1 0 (m_char tz) (m_token tz) (reads tz) in
  let '(c, rs) := if 0 <? length then deref 0 tz1 else (NUL, reads tz1) in
  make chars length 0 1 0 c (Token.reset (m_token tz1)) rs.

(** [reset()] *)
Definition reset (tz : t) : t :=
  let tz1 := make (m_chars tz) (m_length tz) 0 1 0 (m_char tz) (m_token tz) (reads tz) in
  let '(c, rs) := if 0 <? m_length tz then deref 0 tz1 else (NUL, reads tz1) in
  make (m_chars tz) (m_length tz) 0 1 0 c (Token.reset (m_token tz1)) rs.

Definition token (tz : t) : Token.t := m_token tz.
End Tokenizer.

(* ----------------------------------------------------------------- *)
(** *** Control: normal return, a thrown [GclException], or fuel run out *)

(** [Throw site e tz]: [site] is the [GclErrorID] written at the [throw]
    expression, [e] the exception object the constructor built from it. *)
Inductive Outcome (A : Type) : Type :=
| Ok (x : A) (tz : Tokenizer.t)
| Throw (site : GclErrorID.t) (e : GclException.t) (tz : Tokenizer.t)
| OutOfFuel (tz : Tokenizer.t).
Arguments Ok {A} x tz.
Arguments Throw {A} site e tz.
Arguments OutOfFuel {A} tz.

Definition M (A : Type) : Type := Tokenizer.t -> Outcome A.

Definition ret {A} (x : A) : M A := fun tz => Ok x tz.

Definition bind {A B} (m : M A) (k : A -> M B) : M B :=
  fun tz =>
    match m tz with
    | Ok x tz' => k x tz'
    | Throw site e tz' => Throw site e tz'
    | OutOfFuel tz' => OutOfFuel tz'
    end.

Definition out_of_fuel {A} : M A := fun tz => OutOfFuel tz.

(** [throw GclException(errorID, span, info)] *)
Definition throw {A} (errorID : GclErrorID.t) (span : Span.t) (info : string) : M A :=
  fun tz => Throw errorID (GclException.ctor errorID span info) tz.

Definition get {A} (f : Tokenizer.t -> A) : M A := fun tz => Ok (f tz) tz.
Definition modify (f : Tokenizer.t -> Tokenizer.t) : M unit := fun tz => Ok tt (f tz).

Declare Scope gcl_scope.
Delimit Scope gcl_scope with gcl.
Notation "x <- m ;; k" := (bind m (fun x => k))
  (at level 61, m at next level, right associativity) : gcl_scope.
Notation "' p <- m ;; k" := (bind m (fun x => let 'p := x in k))
  (at level 61, p pattern, m at next level, right associativity) : gcl_scope.
Notation "m ;; k" := (bind m (fun _ => k))
  (at level 61, right associativity) : gcl_scope.
Open Scope gcl_scope.

(* ================================================================= *)
(** ** src/tokenizer.cc *)

Import Tokenizer.

Definition DQUOTE : ascii := "034"%char.
Definition BACKSLASH : ascii := "092"%char.

(** Promotion of a [char] to [int]; plain [char] is signed. *)
Definition int_of_char (c : ascii) : Z :=
  let n := Z.of_N (N_of_ascii c) in
  if (n <? 128)%Z then n else (n - 256)%Z.

Definition char_le (a b : ascii) : bool := (int_of_char a <=? int_of_char b)%Z.
Definition char_ge (a b : ascii) : bool := (int_of_char b <=? int_of_char a)%Z.

Definition isAlpha (chr : ascii) : bool :=
  (char_ge chr "a" && char_le chr "z") || (char_ge chr "A" && char_le chr "Z").

Definition isDigit (chr : ascii) (base : Z) : bool :=
  if (base =? 10)%Z then char_ge chr "0" && char_le chr "9"
  else if (base =? 16)%Z then
    (char_ge chr "0" && char_le chr "9")
    || (char_ge chr "A" && char_le chr "F")
    || (char_ge chr "a" && char_le chr "f")
  else if (base =? 2)%Z then char_ge chr "0" && char_le chr "1"
  else false.

Definition isAlnum (chr : ascii) : bool := isAlpha chr || isDigit chr 10.

Definition charToDigit (chr : ascii) (base : Z) : Z :=
  if (base <=? 10)%Z then (int_of_char chr - int_of_char "0")%Z
  else if (base =? 16)%Z then
    if char_le chr "9" then (int_of_char chr - int_of_char "0")%Z
    else if char_le chr "F" then (int_of_char chr - int_of_char "A" + 10)%Z
    else if char_le chr "f" then (int_of_char chr - int_of_char "a" + 10)%Z
    else 0%Z
  else 0%Z.

(** Arithmetic on [uintptr_t]. *)
Definition umul (a b : Z) : Z := to_uintptr (a * to_uintptr b).
Definition uadd (a b : Z) : Z := to_uintptr (a + to_uintptr b).
Definition uneg (a : Z) : Z := to_uintptr (- a).

(** [std::string::push_back] *)
Definition push_back (s : string) (c : ascii) : string := (s ++ String c EmptyString)%string.

(** *** [std::format] at the argument types the library uses *)

Definition format_char (c : ascii) : string := String c EmptyString.
Definition format_int (z : Z) : string := NilZero.string_of_int (Z.to_int z).

(** Conversion of a [float] to [intptr_t]: truncation of the binary32 value.
    The source leaves the conversion of an infinity, a NaN or a value out of
    range undefined; 0 stands for the first two. *)
Definition float_to_intptr (f : float) : Z :=
  let bits := (f mod 2 ^ 32)%Z in
  let e := Z.land (Z.shiftr bits 23) 255 in
  let m := Z.land bits (2 ^ 23 - 1) in
  if (e =? 0)%Z then 0%Z
  else if (e =? 255)%Z then 0%Z
  else
    let sig := (2 ^ 23 + m)%Z in
    let mag := if (150 <=? e)%Z then Z.shiftl sig (e - 150) else Z.shiftr sig (150 - e) in
    if Z.testbit bits 31 then (- mag)%Z else mag.

Definition format_TokenKind (kind : TokenKind.t) : string :=
  match kind with
  | TokenKind.Eof => "eof"
  | TokenKind.Int => "int"
  | TokenKind.Float => "float"
  | TokenKind.Identifier => "identifier"
  | TokenKind.String => "string"
  | TokenKind.Punctuaction => "punctuaction"
  end.

Definition format_Punctuaction (punctuaction : Punctuaction.t) : string :=
  match punctuaction with
  | Punctuaction.Lbrace => "{"
  | Punctuaction.Rbrace => "}"
  | Punctuaction.Lsqb => "["
  | Punctuaction.Rsqb => "]"
  | Punctuaction.Comma => ","
  | Punctuaction.Colon => ":"
  end.

Definition format_Token (token : Token.t) : string :=
  match Token.content token with
  | tok_Int i => format_int (to_intptr i)
  | tok_Float f => format_int (float_to_intptr f)
  | tok_Identifier identifier => identifier
  | tok_String s => s
  | tok_Punctuaction punctuaction => format_Punctuaction punctuaction
  | tok_Eof => format_TokenKind (Token.kind token)
  end.

(** *** The cursor *)

Definition advanceChar : M bool :=
  fun tz =>
    if m_length tz <=? m_index tz + 1 then Ok false (with_char NUL tz)
    else
      let i := m_index tz + 1 in
      let '(c, rs) := deref i tz in
      if Ascii.eqb c LF
      then Ok true (make (m_chars tz) (m_length tz) i (m_lineNumber tz + 1) 0
                         c (m_token tz) rs)
      else Ok true (make (m_chars tz) (m_length tz) i (m_lineNumber tz)
                         (m_columNumber tz + 1) c (m_token tz) rs).

Fixpoint skipWhitespace (fuel : nat) : M unit :=
  match fuel with
  | 0 => out_of_fuel
  | S fuel' =>
      chr <- get m_char;;
      if Ascii.eqb chr " " || Ascii.eqb chr TAB || Ascii.eqb chr LF
      then advanceChar;; skipWhitespace fuel'
      else ret tt
  end.

(** The [while (m_char != '\n')] loop of [skipComment]. *)
Fixpoint skipComment_loop (fuel : nat) : M unit :=
  match fuel with
  | 0 => out_of_fuel
  | S fuel' =>
      chr <- get m_char;;
      if negb (Ascii.eqb chr LF)
      then ok <- advanceChar;;
           if negb ok then ret tt else skipComment_loop fuel'
      else ret tt
  end.

Definition skipComment (fuel : nat) : M unit :=
  advanceChar;; skipComment_loop fuel.

(** *** The read methods *)

Definition set_content (c : TokenData) : M unit := modify (with_content c).
Definition token_span : M Span.t := get (fun tz => Token.span (m_token tz)).

(** The [while (advanceChar() && ...)] loop of [readIdentifier]. *)
Fixpoint readIdentifier_loop (fuel : nat) (identifier : string) : M string :=
  match fuel with
  | 0 => out_of_fuel
  | S fuel' =>
      ok <- advanceChar;;
      chr <- get m_char;;
      if ok && (isAlnum chr || Ascii.eqb chr "_")
      then readIdentifier_loop fuel' (push_back identifier chr)
      else ret identifier
  end.

Definition readIdentifier (fuel : nat) : M bool :=
  chr <- get m_char;;
  if negb (isAlpha chr) then ret false
  else
    identifier <- readIdentifier_loop fuel (push_back EmptyString chr);;
    set_content (tok_Identifier identifier);;
    ret true.

(** The sign: [isNeg] after the first [if] of [readNumber]. *)
Definition readNumber_sign : M bool :=
  chr <- get m_char;;
  if negb (isDigit chr 10) then
    if Ascii.eqb chr "-" then advanceChar;; ret true
    else if Ascii.eqb chr "+" then advanceChar;; ret false
    else span <- token_span;;
         throw GclErrorID.UnknownChar span
               ("unknown character `" ++ format_char chr ++ "`")
  else ret false.

(** The [if (m_char == '0')] block: [None] when it has returned the token
    [Int 0] itself, otherwise the base to go on with. *)
Definition readNumber_prefix : M (option Z) :=
  chr <- get m_char;;
  if Ascii.eqb chr "0" then
    advanceChar;;
    chr <- get m_char;;
    if negb (isDigit chr 10) then
      if Ascii.eqb chr "b" || Ascii.eqb chr "B" || Ascii.eqb chr "x" || Ascii.eqb chr "X"
      then
        let base := if Ascii.eqb chr "b" || Ascii.eqb chr "B" then 2%Z else 16%Z in
        advanceChar;;
        chr <- get m_char;;
        if negb (isDigit chr base)
        then span <- token_span;;
             throw GclErrorID.InvalidDigit span
                   ("invalid digit `" ++ format_char chr ++ "` for base " ++ format_int base)
        else ret (Some base)
      else set_content (tok_Int 0);; ret None
    else ret (Some 10%Z)
  else ret (Some 10%Z).

(** The [while (advanceChar() && isDigit(m_char, base))] loop. *)
Fixpoint readNumber_digits (fuel : nat) (base : Z) (value : Z) : M Z :=
  match fuel with
  | 0 => out_of_fuel
  | S fuel' =>
      ok <- advanceChar;;
      chr <- get m_char;;
      if ok && isDigit chr base
      then readNumber_digits fuel' base (uadd (umul value base) (charToDigit chr base))
      else ret value
  end.

(** The [while (isAlnum(m_char)) advanceChar();] loop. *)
Fixpoint readNumber_skip (fuel : nat) : M unit :=
  match fuel with
  | 0 => out_of_fuel
  | S fuel' =>
      chr <- get m_char;;
      if isAlnum chr then advanceChar;; readNumber_skip fuel' else ret tt
  end.

Definition readNumber (fuel : nat) : M bool :=
  chr <- get m_char;;
  if negb (isDigit chr 10) && negb (Ascii.eqb chr "-") && negb (Ascii.eqb chr "+")
  then ret false
  else
    isNeg <- readNumber_sign;;
    prefix <- readNumber_prefix;;
    match prefix with
    | None => ret true
    | Some base =>
        chr <- get m_char;;
        value <- readNumber_digits fuel base (to_uintptr (charToDigit chr base));;
        chr <- get m_char;;
        if isAlnum chr then
          let invalidDigitChr := chr in
          advanceChar;;
          readNumber_skip fuel;;
          span <- token_span;;
          throw GclErrorID.InvalidDigit span
                ("invalid digit `" ++ format_char invalidDigitChr
                   ++ "` for base " ++ format_int base)
        else
          let value := if isNeg : bool then uneg value else value in
          set_content (tok_Int value);;
          ret true
    end.

Definition readPunctuaction : M bool :=
  chr <- get m_char;;
  let found :=
    if Ascii.eqb chr "{" then Some Punctuaction.Lbrace
    else if Ascii.eqb chr "}" then Some Punctuaction.Rbrace
    else if Ascii.eqb chr "[" then Some Punctuaction.Lsqb
    else if Ascii.eqb chr "]" then Some Punctuaction.Rsqb
    else if Ascii.eqb chr "," then Some Punctuaction.Comma
    else if Ascii.eqb chr ":" then Some Punctuaction.Colon
    else None in
  match found with
  | None => ret false
  | Some punctuaction =>
      advanceChar;;
      set_content (tok_Punctuaction punctuaction);;
      ret true
  end.

(** The [switch] on the character after a backslash. *)
Definition readString_escape (s : string) : M string :=
  chr <- get m_char;;
  if Ascii.eqb chr "n" then ret (push_back s LF)
  else if Ascii.eqb chr "t" then ret (push_back s TAB)
  else if Ascii.eqb chr BACKSLASH then ret (push_back s BACKSLASH)
  else if Ascii.eqb chr DQUOTE then ret (push_back s DQUOTE)
  else span <- token_span;;
       throw GclErrorID.InvalidEscape span
             ("invalid escape sequence `" ++ format_char chr ++ "`").

(** The [while] loop of [readString]: it runs as long as [advanceChar()]
    succeeds and [m_char] is not the double quote. *)
Fixpoint readString_loop (fuel : nat) (s : string) : M string :=
  match fuel with
  | 0 => out_of_fuel
  | S fuel' =>
      ok <- advanceChar;;
      chr <- get m_char;;
      if ok && negb (Ascii.eqb chr DQUOTE) then
        if Ascii.eqb chr LF
        then span <- token_span;;
             throw GclErrorID.ExpectedStringEnd span "expected string end"
        else if Ascii.eqb chr BACKSLASH
        then advanceChar;;
             s' <- readString_escape s;;
             readString_loop fuel' s'
        else readString_loop fuel' (push_back s chr)
      else ret s
  end.

Definition readString (fuel : nat) : M bool :=
  chr <- get m_char;;
  if negb (Ascii.eqb chr DQUOTE) then ret false
  else
    s <- readString_loop fuel EmptyString;;
    chr <- get m_char;;
    if negb (Ascii.eqb chr DQUOTE)
    then span <- token_span;;
         throw GclErrorID.ExpectedStringEnd span "expected string end"
    else
      advanceChar;;
      set_content (tok_String s);;
      ret true.

Definition readMisc : M bool :=
  chr <- get m_char;;
  if Ascii.eqb chr NUL
  then set_content tok_Eof;; ret true
  else span <- token_span;;
       throw GclErrorID.UnknownChar span
             ("unknown character `" ++ format_char chr ++ "`").

(** *** [advance] *)

(** [for (auto method : READ_METHODS) if ((this->*method)()) break;] *)
Fixpoint first_success (methods : list (M bool)) : M unit :=
  match methods with
  | [] => ret tt
  | method :: rest =>
      done <- method;;
      if done : bool then ret tt else first_success rest
  end.

Definition READ_METHODS (fuel : nat) : list (M bool) :=
  [ readIdentifier fuel; readNumber fuel; readPunctuaction; readString fuel; readMisc ].

(** The [while (m_char == '#')] loop of [advance]. *)
Fixpoint skipComments (fuel n : nat) : M unit :=
  match n with
  | 0 => out_of_fuel
  | S n' =>
      chr <- get m_char;;
      if Ascii.eqb chr "#"
      then skipComment fuel;; skipWhitespace fuel;; skipComments fuel n'
      else ret tt
  end.

Definition span_begin (tz : Tokenizer.t) : Tokenizer.t :=
  with_token
    (Token.make
       (Span.make (m_lineNumber tz) (m_columNumber tz) (m_lineNumber tz) (m_columNumber tz))
       (Token.content (m_token tz))) tz.

Definition span_end (tz : Tokenizer.t) : Tokenizer.t :=
  let span := Token.span (m_token tz) in
  with_token
    (Token.make
       (Span.make (Span.beginLineNumber span) (Span.beginColumnNumber span)
                  (m_lineNumber tz) (m_columNumber tz))
       (Token.content (m_token tz))) tz.

Definition advance (fuel : nat) : M bool :=
  skipWhitespace fuel;;
  skipComments fuel fuel;;
  modify (fun tz => with_token (Token.reset (m_token tz)) tz);;
  modify span_begin;;
  first_success (READ_METHODS fuel);;
  modify span_end;;
  token <- get m_token;;
  ret (match Token.kind token with TokenKind.Eof => false | _ => true end).

(* ================================================================= *)
(** ** src/parser.cc *)

Import ValueOps.

Definition token : M Token.t := get Tokenizer.token.

Definition expected_value (token : Token.t) : string :=
  "expected a value but found `" ++ format_Token token ++ "`".

Definition expected_but_found (what : string) (token : Token.t) : string :=
  "expected `" ++ what ++ "` but found `" ++ format_Token token ++ "`".

Section Parser.
(** Fuel handed to every call of [Tokenizer::advance]. *)
Variable tfuel : nat.

Section Containers.
(** [Parser::parseValue], as the two container parsers call it. *)
Variable parseValue : Value -> M (bool * Value).

(** The [for (;;)] loop of [parseArray]. *)
Fixpoint parseArray_loop (n : nat) (output : gcl.Array) : M gcl.Array :=
  match n with
  | 0 => out_of_fuel
  | S n' =>
      '(ok, value) <- parseValue Value_default;;
      tok <- token;;
      if negb ok
      then throw GclErrorID.ExpectedValue (Token.span tok) (expected_value tok)
      else
        let output := output ++ [fst (move_ctor value)] in
        if negb (Token.is_punctuaction Punctuaction.Comma tok) then
          if Token.is_punctuaction Punctuaction.Rsqb tok
          then ret output
          else throw GclErrorID.ExpectedPunctuaction (Token.span tok)
                     (expected_but_found "," tok)
        else advance tfuel;; parseArray_loop n' output
  end.

Definition parseArray (n : nat) (output : gcl.Array) : M gcl.Array :=
  advance tfuel;;
  output <- parseArray_loop n output;;
  tok <- token;;
  if negb (Token.is_punctuaction Punctuaction.Rsqb tok)
  then throw GclErrorID.ExpectedPunctuaction (Token.span tok)
             (expected_but_found "]" tok)
  else advance tfuel;; ret output.

(** The [for (;;)] loop of [parseDict]. *)
Fixpoint parseDict_loop (n : nat) (output : gcl.Dict) : M gcl.Dict :=
  match n with
  | 0 => out_of_fuel
  | S n' =>
      tok <- token;;
      match Token.content tok with
      | tok_Identifier identifier =>
          set_content (tok_Identifier EmptyString);;
          advance tfuel;;
          tok <- token;;
          if negb (Token.is_punctuaction Punctuaction.Colon tok)
          then throw GclErrorID.ExpectedPunctuaction (Token.span tok)
                     (expected_but_found ":" tok)
          else
            advance tfuel;;
            '(ok, value) <- parseValue Value_default;;
            tok <- token;;
            if negb ok
            then throw GclErrorID.ExpectedValue (Token.span tok) (expected_value tok)
            else
              let '(output, it, inserted) :=
                StdMap.insert (identifier, fst (move_ctor value)) output in
              if negb inserted
              then throw GclErrorID.ExpectedPunctuaction (Token.span tok)
                         ("key `" ++ fst it ++ "` already defined")
              else if negb (Token.is_punctuaction Punctuaction.Comma tok) then
                if Token.is_punctuaction Punctuaction.Rbrace tok
                then ret output
                else throw GclErrorID.ExpectedPunctuaction (Token.span tok)
                           (expected_but_found "," tok)
              else advance tfuel;; parseDict_loop n' output
      | _ => ret output
      end
  end.

Definition parseDict (n : nat) (output : gcl.Dict) : M gcl.Dict :=
  advance tfuel;;
  output <- parseDict_loop n output;;
  tok <- token;;
  if negb (Token.is_punctuaction Punctuaction.Rbrace tok)
  then throw GclErrorID.ExpectedPunctuaction (Token.span tok)
             (expected_but_found "}" tok)
  else advance tfuel;; ret output.
End Containers.

(** [Parser::parseValue(Value& output)]: the returned flag and [output]
    afterwards.  [fuel] bounds the nesting depth and, in each container, the
    number of entries. *)
Fixpoint parseValue (fuel : nat) (output : Value) : M (bool * Value) :=
  match fuel with
  | 0 => out_of_fuel
  | S fuel' =>
      tok <- token;;
      match Token.content tok with
      | tok_Punctuaction punctuaction =>
          if Punctuaction.eqb punctuaction Punctuaction.Lbrace then
            dict <- parseDict (parseValue fuel') fuel' [];;
            ret (true, mkValue ValueType.Dict (data_dict dict))
          else if Punctuaction.eqb punctuaction Punctuaction.Lsqb then
            array <- parseArray (parseValue fuel') fuel' [];;
            ret (true, mkValue ValueType.Array (data_array array))
          else ret (true, output)
      | tok_String s =>
          set_content (tok_String EmptyString);;
          advance tfuel;;
          ret (true, mkValue ValueType.String (data_string s))
      | tok_Int i =>
          advance tfuel;;
          ret (true, mkValue ValueType.Int (data_i (to_intptr i)))
      | tok_Float f =>
          advance tfuel;;
          ret (true, mkValue ValueType.Float (data_f f))
      | tok_Identifier identifier =>
          if String.eqb identifier "true" then
            advance tfuel;; ret (true, mkValue ValueType.Bool (data_b true))
          else if String.eqb identifier "false" then
            advance tfuel;; ret (true, mkValue ValueType.Bool (data_b false))
          else if String.eqb identifier "null" then
            advance tfuel;; ret (true, mkValue ValueType.Null (data_i 0))
          else ret (false, output)
      | tok_Eof => ret (false, output)
      end
  end.
End Parser.

(** [bool gcl::parse(Value& output, char const* chars, size_t length)] *)
Definition parse (fuel : nat) (output : Value) (chars : list ascii) (length : nat)
  : Outcome (bool * Value) :=
  (modify (setText chars length);;
   advance fuel;;
   parseValue fuel fuel output) Tokenizer.init.

(** [bool parse(Value& output, std::string_view text)] of [include/gcl/parser.hh]. *)
Definition parse_text (fuel : nat) (output : Value) (text : string) : Outcome (bool * Value) :=
  parse fuel output (list_ascii_of_string text) (String.length text).

Definition result {A} (o : Outcome A) : option A :=
  match o with Ok x _ => Some x | _ => None end.

Definition final {A} (o : Outcome A) : Tokenizer.t :=
  match o with Ok _ tz | Throw _ _ tz | OutOfFuel tz => tz end.

Definition terminated {A} (o : Outcome A) : bool :=
  match o with OutOfFuel _ => false | _ => true end.

(** Fuel that is enough for a buffer of [length] characters. *)
Definition fuel_for (length : nat) : nat := length + 1.

(** [gcl::Value result; gcl::parse(result, text);] *)
Definition run (text : string) : Outcome (bool * Value) :=
  parse_text (fuel_for (String.length text)) Value_default text.

(* ================================================================= *)
(** * Vocabulary of the properties

    The predicates, measures and reference definitions that the statements
    below are written with. *)

(* ----------------------------------------------------------------- *)
(** ** The typed accessors and the constructors *)

Module Accessors.
Inductive Accessor : Set := GetBool | GetInt | GetFloat | GetString | GetArray | GetDict.

Definition all : list Accessor := [GetBool; GetInt; GetFloat; GetString; GetArray; GetDict].

(** The kind an accessor asks for. *)
Definition requested (a : Accessor) : ValueType.t :=
  match a with
  | GetBool => ValueType.Bool
  | GetInt => ValueType.Int
  | GetFloat => ValueType.Float
  | GetString => ValueType.String
  | GetArray => ValueType.Array
  | GetDict => ValueType.Dict
  end.

Inductive Status : Set := Succeeds | TypeMismatch | ReadsDeadMember.

Definition status {A} (r : Access A) : Status :=
  match r with
  | Returns _ => Succeeds
  | runtime_error _ => TypeMismatch
  | Indeterminate => ReadsDeadMember
  end.

Definition call (a : Accessor) (v : Value) : Status :=
  match a with
  | GetBool => status (getBool v)
  | GetInt => status (getInt v)
  | GetFloat => status (getFloat v)
  | GetString => status (getString v)
  | GetArray => status (getArray v)
  | GetDict => status (getDict v)
  end.

Definition succeeds (a : Accessor) (v : Value) : bool :=
  match call a v with Succeeds => true | _ => false end.

(** How many of the six accessors succeed on [v]. *)
Definition successes (v : Value) : nat := List.length (filter (fun a => succeeds a v) all).
End Accessors.

(** The member that the tag selects is the live one.  [Undefined] and [Null]
    select no member. *)
Definition live (t : ValueType.t) (d : ValueData) : bool :=
  match t, d with
  | ValueType.Undefined, _ | ValueType.Null, _ => true
  | ValueType.Bool, data_b _ | ValueType.Int, data_i _ | ValueType.Float, data_f _
  | ValueType.String, data_string _ | ValueType.Array, data_array _
  | ValueType.Dict, data_dict _ => true
  | _, _ => false
  end.

Definition has_payload (t : ValueType.t) : bool :=
  match t with
  | ValueType.Undefined | ValueType.Null => false
  | _ => true
  end.

(** Values obtained from the constructors of the class. *)
Inductive Constructed : Value -> Prop :=
| Constructed_default : Constructed Value_default
| Constructed_nullptr : Constructed Value_nullptr
| Constructed_bool x : Constructed (Value_bool x)
| Constructed_intptr x : Constructed (Value_intptr x)
| Constructed_float x : Constructed (Value_float x)
| Constructed_String x : Constructed (Value_String x)
| Constructed_Array x : Constructed (Value_Array x)
| Constructed_Dict x : Constructed (Value_Dict x)
| Constructed_copy v : Constructed v -> Constructed (copy_ctor v)
| Constructed_move v : Constructed v -> Constructed (fst (move_ctor v))
| Constructed_moved_from v : Constructed v -> Constructed (snd (move_ctor v)).

(* ----------------------------------------------------------------- *)
(** ** Outcomes *)

(** [sat o Q E F]: the condition on the final state of [o], by the way the
    computation ended. *)
Definition sat {A} (o : Outcome A) (Q : A -> Tokenizer.t -> Prop)
           (E F : Tokenizer.t -> Prop) : Prop :=
  match o with
  | Ok x tz => Q x tz
  | Throw _ _ tz => E tz
  | OutOfFuel tz => F tz
  end.

(** The error kinds that some [throw] expression of the library names. *)
Definition thrown_somewhere (errorID : GclErrorID.t) : bool :=
  match errorID with
  | GclErrorID.ExpectedPunctuaction | GclErrorID.ExpectedStringEnd
  | GclErrorID.ExpectedValue | GclErrorID.InvalidDigit
  | GclErrorID.InvalidEscape | GclErrorID.UnknownChar => true
  | GclErrorID.ExpectedIdentifier | GclErrorID.ExpectedNumber
  | GclErrorID.KeyAlreadyDefined => false
  end.

(** [kept I o]: the final state of [o] satisfies [I], and if [o] is an
    exception, its error kind is one that a [throw] expression names. *)
Definition kept (I : Tokenizer.t -> Prop) {A} (o : Outcome A) : Prop :=
  match o with
  | Ok _ tz | OutOfFuel tz => I tz
  | Throw site _ tz => thrown_somewhere site = true /\ I tz
  end.

Definition keeps (I : Tokenizer.t -> Prop) {A} (m : M A) : Prop :=
  forall tz, I tz -> kept I (m tz).

(** The bound length is [n] and every index dereferenced so far is below it. *)
Definition reads_below (n : nat) (tz : Tokenizer.t) : Prop :=
  m_length tz = n /\ Forall (fun i => i < n) (reads tz).

(* ----------------------------------------------------------------- *)
(** ** Measures of what is left to consume *)

(** How many more calls of [advanceChar] can succeed. *)
Definition ahead (tz : Tokenizer.t) : nat := m_length tz - (m_index tz + 1).

(** Characters still to be consumed: the current one, unless it is NUL, and
    those ahead. *)
Definition pending (tz : Tokenizer.t) : nat :=
  ahead tz + (if Ascii.eqb (m_char tz) NUL then 0 else 1).

(** The same, counting the current token unless it is [Eof]. *)
Definition weight (tz : Tokenizer.t) : nat :=
  pending tz + (match Token.content (m_token tz) with tok_Eof => 0 | _ => 1 end).

(** Neither measure grew from [tz] to [tz']. *)
Definition step (tz tz' : Tokenizer.t) : Prop :=
  ahead tz' <= ahead tz /\ pending tz' <= pending tz.

Definition anyhow : Tokenizer.t -> Prop := fun _ => True.
Definition never : Tokenizer.t -> Prop := fun _ => False.

(** What a scanning loop that starts with [advanceChar] achieves: no measure
    grows, and [pending] drops when the loop is entered on a character other
    than NUL. *)
Definition scanned (tz tz' : Tokenizer.t) : Prop :=
  step tz tz' /\
  (Ascii.eqb (m_char tz) NUL = false -> pending tz' < pending tz) /\
  m_token tz' = m_token tz.

(** What a read method achieves.  When it returns [false] it has consumed
    nothing and left the token as it was; when it returns [true] a token
    other than [Eof] has cost at least one pending character. *)
Definition method_post (tz : Tokenizer.t) (done : bool) (tz' : Tokenizer.t) : Prop :=
  ahead tz' <= ahead tz /\
  if done then weight tz' <= pending tz
  else pending tz' <= pending tz
       /\ Token.content (m_token tz') = Token.content (m_token tz).

(** Neither the weight nor the pending characters grew. *)
Definition pstep (tz tz' : Tokenizer.t) : Prop :=
  weight tz' <= weight tz /\ pending tz' <= pending tz.

(** [parseValue], run with fuel [f] and handing [tfuel] to the tokenizer,
    returns or throws from every state of weight below [f]. *)
Definition returns_within (tfuel f : nat) (pv : Value -> M (bool * Value)) : Prop :=
  forall v tz,
    weight tz + 1 <= f -> pending tz + 1 <= tfuel ->
    sat (pv v tz) (fun _ tz' => pstep tz tz') anyhow never.

(** [refines m m']: wherever [m] ends without running out of fuel, [m'] does
    exactly the same. *)
Definition refines {A} (m m' : M A) : Prop :=
  forall tz, terminated (m tz) = true -> m' tz = m tz.

(* ----------------------------------------------------------------- *)
(** ** The order of the keys *)

(** Each key is below the next one in [std::less<std::string>]. *)
Fixpoint increasing (ks : list string) : bool :=
  match ks with
  | [] => true
  | k :: rest =>
      match rest with
      | [] => true
      | k' :: _ => String.ltb k k'
      end && increasing rest
  end.

(** Every Dict in the value, at any depth, has increasing keys. *)
Fixpoint dicts_ordered (v : Value) : bool :=
  match v with
  | mkValue _ d => data_ordered d
  end
with data_ordered (d : ValueData) : bool :=
  match d with
  | data_array a => forallb dicts_ordered a
  | data_dict m =>
      increasing (map fst m) && forallb (fun kv => dicts_ordered (snd kv)) m
  | _ => true
  end.

Definition entries_ordered (m : gcl.Dict) : bool :=
  increasing (StdMap.keys m) && forallb (fun kv => dicts_ordered (snd kv)) m.

(** The first key of a list is above [k], or the list is empty. *)
Definition above (k : string) (ks : list string) : bool :=
  match ks with
  | [] => true
  | k' :: _ => String.ltb k k'
  end.

(** [yields P m]: whenever [m] returns, what it returns satisfies [P]. *)
Definition yields {A} (P : A -> Prop) (m : M A) : Prop :=
  forall tz, sat (m tz) (fun x _ => P x) anyhow anyhow.

Definition value_ordered (r : bool * Value) : Prop := dicts_ordered (snd r) = true.

(* ----------------------------------------------------------------- *)
(** ** Inputs of the examples *)

(** The state of the parser when [parse(",")] reaches [parseValue]. *)
Definition at_comma : Tokenizer.t :=
  final ((modify (setText [","%char] 1);; advance 3) Tokenizer.init).

Definition nested_dicts : list ascii := list_ascii_of_string "{b:[],c:3,a:{z:1,y:2}}".

Definition nested_dicts_value : Value :=
  Value_Dict
    [("a"%string, Value_Dict [("y"%string, Value_intptr 2); ("z"%string, Value_intptr 1)]);
     ("b"%string, Value_Array [Value_default]);
     ("c"%string, Value_intptr 3)].

(* ----------------------------------------------------------------- *)
(** ** Integer literals

    What a literal denotes: the magnitude is accumulated from the digits by
    [value = value * base + digit] on 64-bit unsigned integers, and a leading
    minus negates it in two's complement. *)

Inductive Sign : Set := NoSign | Plus | Minus.

Inductive Radix : Set :=
| Decimal
| Binary (upper : bool)        (* 0b or 0B *)
| Hexadecimal (upper : bool).  (* 0x or 0X *)

Definition sign_chars (s : Sign) : list ascii :=
  match s with
  | NoSign => []
  | Plus => ["+"%char]
  | Minus => ["-"%char]
  end.

Definition radix_chars (r : Radix) : list ascii :=
  match r with
  | Decimal => []
  | Binary upper => ["0"%char; if upper then "B"%char else "b"%char]
  | Hexadecimal upper => ["0"%char; if upper then "X"%char else "x"%char]
  end.

Definition radix_base (r : Radix) : Z :=
  match r with
  | Decimal => 10%Z
  | Binary _ => 2%Z
  | Hexadecimal _ => 16%Z
  end.

(** The number a digit character stands for: 0-9, and 10-15 for A-F and a-f. *)
Definition digit_value (chr : ascii) : Z :=
  let n := Z.of_N (N_of_ascii chr) in
  if (48 <=? n)%Z && (n <=? 57)%Z then (n - 48)%Z
  else if (65 <=? n)%Z && (n <=? 70)%Z then (n - 65 + 10)%Z
  else if (97 <=? n)%Z && (n <=? 102)%Z then (n - 97 + 10)%Z
  else 0%Z.

(** The characters that are digits in the base: one of 0-9, A-F, a-f whose
    value is below the base. *)
Definition is_digit_of (base : Z) (chr : ascii) : bool :=
  let n := Z.of_N (N_of_ascii chr) in
  ((48 <=? n)%Z && (n <=? 57)%Z
   || (65 <=? n)%Z && (n <=? 70)%Z
   || (97 <=? n)%Z && (n <=? 102)%Z)
  && (digit_value chr <? base)%Z.

Fixpoint horner (base : Z) (value : Z) (digits : list ascii) : Z :=
  match digits with
  | [] => value
  | d :: rest => horner base ((value * base + digit_value d) mod 2 ^ 64)%Z rest
  end.

Definition twos_complement_negation (value : Z) : Z :=
  ((Z.lnot value + 1) mod 2 ^ 64)%Z.

(** The [intptr_t] that the literal with the given sign, radix and digits
    denotes. *)
Definition literal_value (s : Sign) (r : Radix) (digits : list ascii) : Z :=
  let magnitude := horner (radix_base r) 0 digits in
  to_intptr (match s with
             | Minus => twos_complement_negation magnitude
             | _ => magnitude
             end).

Definition literal_text (s : Sign) (r : Radix) (digits : list ascii) : list ascii :=
  sign_chars s ++ radix_chars r ++ digits.

(** What the code computes: the value after the digit loop has run over
    [digits]. *)
Definition accumulated (base : Z) (digits : list ascii) (value : Z) : Z :=
  fold_left (fun value chr => uadd (umul value base) (charToDigit chr base)) digits value.

(** [cursor tz pre rest]: the buffer is [pre ++ rest]; [pre] has been passed
    and the current character is the first of [rest], or NUL at the end. *)
Definition cursor (tz : Tokenizer.t) (pre rest : list ascii) : Prop :=
  match rest with
  | [] => m_char tz = NUL /\ m_length tz <= m_index tz + 1
  | c :: rest' =>
      m_chars tz = pre ++ c :: rest' /\
      m_length tz = List.length (pre ++ c :: rest') /\
      m_index tz = List.length pre /\
      m_char tz = c
  end.

Arguments cursor : simpl never.

(** [m] returns [x] from [tz], in a state that satisfies [P]. *)
Definition returns {A} (m : M A) (tz : Tokenizer.t) (x : A) (P : Tokenizer.t -> Prop) : Prop :=
  sat (m tz) (fun y tz' => y = x /\ P tz') never never.

(** What [readNumber] leaves in the token for the literal. *)
Definition lexed_value (s : Sign) (r : Radix) (d : ascii) (digits : list ascii) : Z :=
  let value :=
    accumulated (radix_base r) digits (to_uintptr (charToDigit d (radix_base r))) in
  match s with
  | Minus => uneg value
  | _ => value
  end.

(* ================================================================= *)
(** * Vocabulary of the further properties *)

(* ----------------------------------------------------------------- *)
(** ** The cursor and the buffer *)

(** The tokenizer is bound to the buffer [chars] of length [n] and its
    cursor is at index [i0] or beyond. *)
Definition bound_to (chars : list ascii) (n i0 : nat) (tz : Tokenizer.t) : Prop :=
  m_chars tz = chars /\ m_length tz = n /\ i0 <= m_index tz.

(* ----------------------------------------------------------------- *)
(** ** The end of the input *)

(** What a read method that returns [true] with the token [Eof] has done:
    nothing but set the token, on the character NUL.  A method that returns
    [false] has done nothing at all. *)
Definition Eof_means_end (tz : Tokenizer.t) (done : bool) (tz' : Tokenizer.t) : Prop :=
  if done
  then Token.content (m_token tz') = tok_Eof ->
       tz' = with_content tok_Eof tz /\ m_char tz = NUL
  else tz' = tz.

(** The state in which [advance] has reported the end of the input: the
    current character is NUL and the token is [Eof], spanning nothing at the
    current position. *)
Definition at_end_of_input (tz : Tokenizer.t) : Prop :=
  m_char tz = NUL /\
  m_token tz
  = Token.make (Span.make (m_lineNumber tz) (m_columNumber tz)
                          (m_lineNumber tz) (m_columNumber tz)) tok_Eof.

(* ----------------------------------------------------------------- *)
(** ** Runs of characters *)

(** The condition under which the loop of [readIdentifier] goes on. *)
Definition word_char (chr : ascii) : bool := isAlnum chr || Ascii.eqb chr "_".

(** A run of characters that satisfy [p] ends at [rest]: at the end of the
    buffer, or at a character that fails [p]. *)
Definition stops (p : ascii -> bool) (rest : list ascii) : bool :=
  match rest with
  | [] => true
  | chr :: _ => negb (p chr)
  end.

(** The characters that [skipWhitespace] passes. *)
Definition blank (chr : ascii) : bool :=
  Ascii.eqb chr " " || Ascii.eqb chr TAB || Ascii.eqb chr LF.

(** The three words that [parseValue] takes for values. *)
Definition keyword (identifier : string) : bool :=
  String.eqb identifier "true" || String.eqb identifier "false"
  || String.eqb identifier "null".

(* ----------------------------------------------------------------- *)
(** ** Exceptions *)

(** The error kind written at the [throw] expression that ended the run, and
    the message of the exception. *)
Definition thrown {A} (o : Outcome A) : option (GclErrorID.t * string) :=
  match o with
  | Throw site e _ => Some (site, GclException.info e)
  | _ => None
  end.

(* ----------------------------------------------------------------- *)
(** ** String literals *)

(** The text that stands for the character [chr] inside a string literal:
    the inverse of the [switch] of [readString]. *)
Definition escaped (chr : ascii) : list ascii :=
  if Ascii.eqb chr LF then [BACKSLASH; "n"%char]
  else if Ascii.eqb chr TAB then [BACKSLASH; "t"%char]
  else if Ascii.eqb chr BACKSLASH then [BACKSLASH; BACKSLASH]
  else if Ascii.eqb chr DQUOTE then [BACKSLASH; DQUOTE]
  else [chr].

(** The literal that denotes the string [s]. *)
Definition quoted (s : string) : list ascii :=
  DQUOTE :: flat_map escaped (list_ascii_of_string s) ++ [DQUOTE].

(** The characters that the [switch] of [readString] accepts after a
    backslash. *)
Definition escape_char (chr : ascii) : bool :=
  Ascii.eqb chr "n" || Ascii.eqb chr "t" || Ascii.eqb chr BACKSLASH
  || Ascii.eqb chr DQUOTE.

(** The line, or the buffer, ends at [rest]. *)
Definition line_ends (rest : list ascii) : bool :=
  match rest with
  | [] => true
  | chr :: _ => Ascii.eqb chr LF
  end.

(** The characters of [readPunctuaction]. *)
Definition punctuation_char (chr : ascii) : bool :=
  Ascii.eqb chr "{" || Ascii.eqb chr "}" || Ascii.eqb chr "[" || Ascii.eqb chr "]"
  || Ascii.eqb chr "," || Ascii.eqb chr ":".

(** The characters on which one of the first four read methods starts. *)
Definition starts_token (chr : ascii) : bool :=
  isAlpha chr || isDigit chr 10 || Ascii.eqb chr "-" || Ascii.eqb chr "+"
  || punctuation_char chr || Ascii.eqb chr DQUOTE.

(* ----------------------------------------------------------------- *)
(** ** Number literals in context *)

(** The characters that [readNumber] takes for a radix marker after [0]. *)
Definition radix_marker (chr : ascii) : bool :=
  Ascii.eqb chr "b" || Ascii.eqb chr "B" || Ascii.eqb chr "x" || Ascii.eqb chr "X".

(** The literal is the single decimal digit [0]. *)
Definition lone_zero (r : Radix) (d : ascii) (digits : list ascii) : bool :=
  match r, digits with
  | Decimal, [] => Ascii.eqb d "0"
  | _, _ => false
  end.

(* ----------------------------------------------------------------- *)
(** ** Blanks and comments *)

Definition no_newline (chr : ascii) : bool := negb (Ascii.eqb chr LF).

(** A comment with what [advance] skips after it: [#], a body without a
    newline, the newline, and blanks. *)
Definition comment_text (piece : list ascii * list ascii) : list ascii :=
  "#"%char :: fst piece ++ LF :: snd piece.

Definition comment_ok (piece : list ascii * list ascii) : bool :=
  forallb no_newline (fst piece) && forallb blank (snd piece).

(** Blanks, then comments: what [advance] skips before a token. *)
Definition trivia_text (trivia : list ascii * list (list ascii * list ascii)) : list ascii :=
  fst trivia ++ flat_map comment_text (snd trivia).

Definition trivia_ok (trivia : list ascii * list (list ascii * list ascii)) : bool :=
  forallb blank (fst trivia) && forallb comment_ok (snd trivia).

(** The skipping stops at [rest]: at the end of the buffer, or at a
    character that is neither blank nor the start of a comment. *)
Definition token_ahead (rest : list ascii) : bool :=
  match rest with
  | [] => true
  | chr :: _ => negb (blank chr) && negb (Ascii.eqb chr "#")
  end.

(** The character of a punctuation token: the inverse of the tests of
    [readPunctuaction]. *)
Definition punct_char (punctuaction : Punctuaction.t) : ascii :=
  match punctuaction with
  | Punctuaction.Lbrace => "{"
  | Punctuaction.Rbrace => "}"
  | Punctuaction.Lsqb => "["
  | Punctuaction.Rsqb => "]"
  | Punctuaction.Comma => ","
  | Punctuaction.Colon => ":"
  end%char.

(* ----------------------------------------------------------------- *)
(** ** Token streams *)

(** The tokens as they are written. *)
Inductive Item : Set :=
| IWord (c : ascii) (body : list ascii)
| INumber (s : Sign) (r : Radix) (d : ascii) (digits : list ascii)
| IPunct (p : Punctuaction.t)
| IString (content : list ascii).

Definition item_text (item : Item) : list ascii :=
  match item with
  | IWord c body => c :: body
  | INumber s r d digits => literal_text s r (d :: digits)
  | IPunct p => [punct_char p]
  | IString content => DQUOTE :: flat_map escaped content ++ [DQUOTE]
  end.

Definition item_ok (item : Item) : bool :=
  match item with
  | IWord c body => isAlpha c && forallb word_char body
  | INumber s r d digits => forallb (fun chr => isDigit chr (radix_base r)) (d :: digits)
  | IPunct _ | IString _ => true
  end.

(** What [advance] leaves in the token for the item. *)
Definition item_content (item : Item) : TokenData :=
  match item with
  | IWord c body => tok_Identifier (string_of_list_ascii (c :: body))
  | INumber s r d digits => tok_Int (lexed_value s r d digits)
  | IPunct p => tok_Punctuaction p
  | IString content => tok_String (string_of_list_ascii content)
  end.

(** The item ends where [rest] starts: a word is not followed by a word
    character, a number neither by a letter nor by a digit. *)
Definition item_ends (item : Item) (rest : list ascii) : bool :=
  match item with
  | IWord _ _ => stops word_char rest
  | INumber _ _ _ _ => stops isAlnum rest
  | IPunct _ | IString _ => true
  end.

(** Blanks and comments: the leading blanks, and the comments each with the
    blanks after its newline. *)
Definition Trivia : Set := (list ascii * list (list ascii * list ascii))%type.

Definition elem_text (elem : Trivia * Item) : list ascii :=
  trivia_text (fst elem) ++ item_text (snd elem).

(** The text of a stream: every item after its blanks and comments, and the
    blanks and comments at the end. *)
Definition stream_text (elems : list (Trivia * Item)) (tail : Trivia) : list ascii :=
  flat_map elem_text elems ++ trivia_text tail.

Fixpoint stream_ok (elems : list (Trivia * Item)) (tail : Trivia) : bool :=
  match elems with
  | [] => trivia_ok tail
  | elem :: elems' =>
      trivia_ok (fst elem) && item_ok (snd elem)
      && item_ends (snd elem) (stream_text elems' tail)
      && stream_ok elems' tail
  end.

(** The cursor is at the text of the stream [elems], all of which
    [advance] can lex with the fuel [tfuel]. *)
Definition upcoming (tfuel : nat) (tz : Tokenizer.t)
           (elems : list (Trivia * Item)) (tail : Trivia) : Prop :=
  (exists pre, cursor tz pre (stream_text elems tail)) /\
  stream_ok elems tail = true /\
  List.length (stream_text elems tail) < tfuel.

(** The token is the first item of the stream and the cursor is at the
    items after it; at the end of the stream the token is [Eof]. *)
Definition current (tfuel : nat) (tz : Tokenizer.t)
           (elems : list (Trivia * Item)) (tail : Trivia) : Prop :=
  match elems with
  | [] => Token.content (m_token tz) = tok_Eof
  | elem :: elems' =>
      Token.content (m_token tz) = item_content (snd elem) /\
      upcoming tfuel tz elems' tail
  end.

(* ----------------------------------------------------------------- *)
(** ** Documents *)

(** A document as it is written: the scalars, an array with its elements
    and a dictionary with its entries, each a key and a document. *)
#[warnings="-register-all"] Inductive Doc : Set :=
| DNull
| DBool (b : bool)
| DInt (s : Sign) (r : Radix) (d : ascii) (digits : list ascii)
| DString (content : list ascii)
| DArray (elements : list Doc)
| DDict (entries : list (ascii * list ascii * Doc)).

(** The groups of items with [sep] between them. *)
Definition separated (sep : Item) (groups : list (list Item)) : list Item :=
  match groups with
  | [] => []
  | group :: groups' => group ++ flat_map (fun g => sep :: g) groups'
  end.

(** The tokens of a document. *)
Fixpoint doc_items (doc : Doc) : list Item :=
  match doc with
  | DNull => [IWord "n" ["u"; "l"; "l"]%char]
  | DBool true => [IWord "t" ["r"; "u"; "e"]%char]
  | DBool false => [IWord "f" ["a"; "l"; "s"; "e"]%char]
  | DInt s r d digits => [INumber s r d digits]
  | DString content => [IString content]
  | DArray elements =>
      IPunct Punctuaction.Lsqb
        :: separated (IPunct Punctuaction.Comma) (map doc_items elements)
        ++ [IPunct Punctuaction.Rsqb]
  | DDict entries =>
      IPunct Punctuaction.Lbrace
        :: separated (IPunct Punctuaction.Comma)
             (map (fun entry =>
                     IWord (fst (fst entry)) (snd (fst entry))
                       :: IPunct Punctuaction.Colon :: doc_items (snd entry))
                  entries)
        ++ [IPunct Punctuaction.Rbrace]
  end.

(** The container that inserting the entries one after the other gives. *)
Definition dict_of (entries : list (string * Value)) : gcl.Dict :=
  fold_left (fun m entry => fst (fst (StdMap.insert entry m))) entries [].

Definition entry_key (c : ascii) (body : list ascii) : string :=
  string_of_list_ascii (c :: body).

(** The value a document denotes. *)
Fixpoint doc_value (doc : Doc) : Value :=
  match doc with
  | DNull => Value_nullptr
  | DBool b => Value_bool b
  | DInt s r d digits => Value_intptr (literal_value s r (d :: digits))
  | DString content => Value_String (string_of_list_ascii content)
  | DArray elements => Value_Array (map doc_value elements)
  | DDict entries =>
      Value_Dict
        (dict_of (map (fun entry =>
                         (entry_key (fst (fst entry)) (snd (fst entry)),
                          doc_value (snd entry)))
                      entries))
  end.

Fixpoint distinct (keys : list string) : bool :=
  match keys with
  | [] => true
  | key :: keys' => negb (existsb (String.eqb key) keys') && distinct keys'
  end.

(** The digits of every number are digits of its base, an array has at
    least one element, every key is an identifier, and the keys of a
    dictionary are pairwise different. *)
Fixpoint doc_ok (doc : Doc) : bool :=
  match doc with
  | DNull | DBool _ | DString _ => true
  | DInt s r d digits => forallb (fun chr => isDigit chr (radix_base r)) (d :: digits)
  | DArray elements =>
      match elements with [] => false | _ => true end
      && forallb doc_ok elements
  | DDict entries =>
      forallb (fun entry =>
                 isAlpha (fst (fst entry)) && forallb word_char (snd (fst entry))
                 && doc_ok (snd entry))
              entries
      && distinct (map (fun entry => entry_key (fst (fst entry)) (snd (fst entry))) entries)
  end.

(** The tokens, the map entry and the condition of one entry of a
    dictionary. *)
Definition entry_items (entry : ascii * list ascii * Doc) : list Item :=
  IWord (fst (fst entry)) (snd (fst entry))
    :: IPunct Punctuaction.Colon :: doc_items (snd entry).

Definition entry_value (entry : ascii * list ascii * Doc) : string * Value :=
  (entry_key (fst (fst entry)) (snd (fst entry)), doc_value (snd entry)).

Definition entry_ok (entry : ascii * list ascii * Doc) : bool :=
  isAlpha (fst (fst entry)) && forallb word_char (snd (fst entry))
  && doc_ok (snd entry).

(** In the list of items every word and every number is the last item or
    is followed by a punctuation mark. *)
Fixpoint closed_items (items : list Item) : bool :=
  match items with
  | [] => true
  | item :: items' =>
      match item, items' with
      | (IWord _ _ | INumber _ _ _ _), (IWord _ _ | INumber _ _ _ _ | IString _) :: _ => false
      | _, _ => true
      end
      && closed_items items'
  end.

(** Text that ends a word and a number: nothing, or a character that is
    neither a letter, nor a digit, nor an underscore. *)
Definition safe_start (rest : list ascii) : bool :=
  stops word_char rest && stops isAlnum rest.


(* ----------------------------------------------------------------- *)
(** ** A configuration file *)


Definition no_trivia : Trivia := ([], []).




(* ----------------------------------------------------------------- *)
(** ** Decimal notation *)

(** The number that the digits [d], the most significant first, denote
    after the digits that gave [acc]. *)
Fixpoint decimal_value (acc : Z) (d : Decimal.uint) : Z :=
  match d with
  | Decimal.Nil => acc
  | Decimal.D0 d' => decimal_value (acc * 10 + 0) d'
  | Decimal.D1 d' => decimal_value (acc * 10 + 1) d'
  | Decimal.D2 d' => decimal_value (acc * 10 + 2) d'
  | Decimal.D3 d' => decimal_value (acc * 10 + 3) d'
  | Decimal.D4 d' => decimal_value (acc * 10 + 4) d'
  | Decimal.D5 d' => decimal_value (acc * 10 + 5) d'
  | Decimal.D6 d' => decimal_value (acc * 10 + 6) d'
  | Decimal.D7 d' => decimal_value (acc * 10 + 7) d'
  | Decimal.D8 d' => decimal_value (acc * 10 + 8) d'
  | Decimal.D9 d' => decimal_value (acc * 10 + 9) d'
  end%Z.

(** The characters of the digits [d]. *)
Definition decimal_chars (d : Decimal.uint) : list ascii :=
  list_ascii_of_string (NilEmpty.string_of_uint d).

(* ----------------------------------------------------------------- *)
(** ** Lines and columns *)

(** What passing the character [chr] does to a line and a column. *)
Definition move (place : nat * nat) (chr : ascii) : nat * nat :=
  if Ascii.eqb chr LF then (fst place + 1, 0) else (fst place, snd place + 1).

(** The line and the column of the character at [index]: line 1, column 0
    for the first character of the buffer, and from there one [move] for
    each character after the first, up to that at [index]. *)
Definition position (chars : list ascii) (index : nat) : nat * nat :=
  fold_left move (firstn index (tl chars)) (1, 0).

(** The tokenizer reads [chars], of which [n] characters are in the bound,
    and its line and column are those of its index. *)
Definition located (chars : list ascii) (n : nat) (tz : Tokenizer.t) : Prop :=
  m_chars tz = chars /\ m_length tz = n /\
  (m_lineNumber tz, m_columNumber tz) = position chars (m_index tz).

(* ----------------------------------------------------------------- *)
(** ** What the parser finds in place of what it expects *)

(** What the messages print for the token at the head of a stream: the
    item, or [eof] at the end of the stream. *)
Definition found (elems : list (Trivia * Item)) : string :=
  match elems with
  | [] => format_Token (Token.make Span.zero tok_Eof)
  | elem :: _ => format_Token (Token.make Span.zero (item_content (snd elem)))
  end.






(* ----------------------------------------------------------------- *)
(** ** Spans, and the kinds of token *)

(** [ends o Q E]: the condition on how [o] has ended, with the exception
    object in view. *)
Definition ends {A} (o : Outcome A) (Q : A -> Tokenizer.t -> Prop)
           (E : GclException.t -> Tokenizer.t -> Prop) : Prop :=
  match o with
  | Ok x tz => Q x tz
  | Throw _ e tz => E e tz
  | OutOfFuel _ => True
  end.

(** The exception carries the span of the current token. *)
Definition spans_token (e : GclException.t) (tz : Tokenizer.t) : Prop :=
  GclException.span e = Token.span (m_token tz).

(** [holds J Q m]: from a state in [J], [m] ends in [J]; what it returns
    satisfies [Q], and what it throws carries the span of the token that is
    current then. *)
Definition holds (J : Tokenizer.t -> Prop) {A} (Q : A -> Prop) (m : M A) : Prop :=
  forall tz, J tz ->
    ends (m tz) (fun x tz' => Q x /\ J tz') (fun e tz' => J tz' /\ spans_token e tz').

Definition whatever {A} : A -> Prop := fun _ => True.

(** [passes J m]: from a state in [J], [m] ends in [J] and throws nothing. *)
Definition passes (J : Tokenizer.t -> Prop) {A} (m : M A) : Prop :=
  forall tz, J tz -> ends (m tz) (fun _ tz' => J tz') (fun _ _ => False).

(** The contents that the read methods write: all but [Float]. *)
Definition lexable (c : TokenData) : bool :=
  match c with tok_Float _ => false | _ => true end.

(** No value of type [Float] in the value, at any depth. *)
Fixpoint float_free (v : Value) : bool :=
  match v with
  | mkValue t d => negb (ValueType.eqb t ValueType.Float) && data_float_free d
  end
with data_float_free (d : ValueData) : bool :=
  match d with
  | data_array a => forallb float_free a
  | data_dict m => forallb (fun kv => float_free (snd kv)) m
  | _ => true
  end.

(** The state in which [advance] starts the token: the blanks and the
    comments before it are behind. *)
Definition token_start (fuel : nat) (tz : Tokenizer.t) : Tokenizer.t :=
  final ((skipWhitespace fuel;; skipComments fuel fuel) tz).


(** The span from the character at index [i] to the character at index [j]. *)
Definition span_of (chars : list ascii) (i j : nat) : Span.t :=
  Span.make (fst (position chars i)) (snd (position chars i))
            (fst (position chars j)) (snd (position chars j)).

(** The cursor is located and inside the bound [n]. *)
Definition cursor_located (chars : list ascii) (n : nat) (tz : Tokenizer.t) : Prop :=
  located chars n tz /\ m_index tz <= n - 1.

(** And the span of the current token goes from a character of the text to
    a later one, or the same, that is not beyond the cursor. *)
Definition token_located (chars : list ascii) (n : nat) (tz : Tokenizer.t) : Prop :=
  cursor_located chars n tz /\
  exists i j, i <= j /\ j <= m_index tz /\ Token.span (m_token tz) = span_of chars i j.

(* ================================================================= *)
(** * Properties *)

(* ----------------------------------------------------------------- *)
(** ** The exception object *)

(** C1.  Whatever [GclErrorID] is passed to the constructor of
    [GclException], the [errorID] member of the object is left uninitialised;
    the span and the message are stored as given. *)
Theorem GclException_ctor_leaves_errorID_unset :
  forall (errorID : GclErrorID.t) (span : Span.t) (info : string),
    GclException.errorID (GclException.ctor errorID span info) = None /\
    GclException.span (GclException.ctor errorID span info) = span /\
    GclException.info (GclException.ctor errorID span info) = info.
Proof. intros; repeat split. Qed.

(** Two different error kinds give the same object. *)
Lemma GclException_ctor_ignores_errorID :
  forall (a b : GclErrorID.t) (span : Span.t) (info : string),
    GclException.ctor a span info = GclException.ctor b span info.
Proof. reflexivity. Qed.

(** A run that throws: [parse("123abc")] passes [InvalidDigit] at the [throw]
    expression and the caller receives an object without an error kind. *)
Lemma parse_invalid_digit_exception :
  exists (span : Span.t) (tz : Tokenizer.t),
    run "123abc"
    = Throw GclErrorID.InvalidDigit
            (GclException.make None span "invalid digit `a` for base 10") tz.
Proof. eexists; eexists. vm_compute. reflexivity. Qed.

(* ----------------------------------------------------------------- *)
(** ** The typed accessors *)

Lemma Constructed_live v : Constructed v -> live (type v) (data v) = true.
Proof.
  induction 1; try reflexivity;
    destruct v as [[] []]; simpl in *; try reflexivity; try discriminate.
Qed.

Lemma accessor_mismatch (a : Accessors.Accessor) (v : Value) :
  Accessors.requested a <> type v -> Accessors.call a v = Accessors.TypeMismatch.
Proof.
  destruct v as [t d]; destruct a, t; simpl; intros H; try reflexivity;
    exfalso; apply H; reflexivity.
Qed.

Lemma accessor_match (a : Accessors.Accessor) (v : Value) :
  live (type v) (data v) = true ->
  Accessors.requested a = type v -> Accessors.call a v = Accessors.Succeeds.
Proof.
  destruct v as [t d]; destruct a, t; simpl; intros L H; try discriminate;
    destruct d; simpl in *; try discriminate; reflexivity.
Qed.

(** C5, as the code has it.  On a constructed [Value] an accessor succeeds
    when the kind it asks for is the tag and throws the type-mismatch error
    otherwise; so exactly one accessor succeeds when the tag is one of [Bool],
    [Int], [Float], [String], [Array], [Dict], and none when the tag is
    [Undefined] or [Null]. *)
Theorem accessors_on_constructed (v : Value) (H : Constructed v) :
  (forall a, Accessors.requested a <> type v ->
             Accessors.call a v = Accessors.TypeMismatch) /\
  (forall a, Accessors.requested a = type v ->
             Accessors.call a v = Accessors.Succeeds) /\
  Accessors.successes v = if has_payload (type v) then 1 else 0.
Proof.
  pose proof (Constructed_live H) as L.
  split; [intros; now apply accessor_mismatch|].
  split; [intros; now apply accessor_match|].
  destruct v as [t d]; destruct t, d; simpl in L; try discriminate; reflexivity.
Qed.

Lemma accessors_on_constructed_witness :
  Constructed (Value_bool true) /\
  Accessors.successes (Value_bool true) = 1 /\
  Accessors.call Accessors.GetInt (Value_bool true) = Accessors.TypeMismatch.
Proof.
  split; [constructor|].
  destruct (accessors_on_constructed (Constructed_bool true)) as (Hmis & _ & Hn).
  split; [exact Hn|].
  apply Hmis; simpl; discriminate.
Defined.

(** Counterexample to C5 as stated: a default-constructed [Value] is
    [Undefined] and none of the six accessors succeeds on it, so it is not
    the case that exactly one accessor succeeds on every constructed value. *)
Lemma accessors_on_default_none_succeeds :
  Constructed Value_default /\
  Accessors.successes Value_default = 0 /\
  (forall a, Accessors.call a Value_default = Accessors.TypeMismatch) /\
  ~ (forall v, Constructed v -> Accessors.successes v = 1).
Proof.
  split; [constructor|].
  split; [reflexivity|].
  split; [intros []; reflexivity|].
  intros H. specialize (H Value_default Constructed_default). discriminate.
Qed.

(* ----------------------------------------------------------------- *)
(** ** Moving a Value *)

Lemma move_ctor_transfers (t : ValueType.t) (p : ValueData) :
  live t p = true ->
  let '(dest, source) := move_ctor (mkValue t p) in
  type dest = t /\
  data dest = (if has_payload t then p else data_i 0) /\
  type source = ValueType.Undefined /\
  dtor source = [].
Proof.
  destruct t, p; simpl; intros L; try discriminate; repeat split.
Qed.

Lemma store_same sigma a v : store sigma a v a = v.
Proof. unfold store. now rewrite Nat.eqb_refl. Qed.

Lemma store_other sigma a b v : b <> a -> store sigma a v b = sigma b.
Proof. unfold store. intros H. apply Nat.eqb_neq in H. now rewrite H. Qed.

Lemma move_assign_transfers (sigma : Store) (this that : nat) (t : ValueType.t) (p : ValueData) :
  this <> that ->
  sigma that = mkValue t p ->
  live t p = true ->
  let sigma' := fst (move_assign this that sigma) in
  type (sigma' this) = t /\
  data (sigma' this) = (if has_payload t then p else data_i 0) /\
  type (sigma' that) = ValueType.Undefined /\
  dtor (sigma' that) = [] /\
  snd (move_assign this that sigma) = dtor (sigma this).
Proof.
  intros Hne Hthat L.
  assert (E1 : Nat.eqb this that = false) by now apply Nat.eqb_neq.
  assert (E2 : Nat.eqb that this = false) by (apply Nat.eqb_neq; congruence).
  unfold move_assign, release_if_defined, set_type, set_data, store, dtor.
  destruct (sigma this) as [t0 p0].
  destruct t0; simpl;
    rewrite ?Nat.eqb_refl, ?E1, ?E2, ?Hthat; simpl;
    rewrite ?Nat.eqb_refl, ?E1, ?E2, ?Hthat;
    destruct t, p; simpl in L |- *; try discriminate;
    rewrite ?Nat.eqb_refl, ?E1, ?E2; simpl; repeat split.
Qed.

(** C8.  Let [v] have tag [t] and payload [p].  The move constructor gives
    the new object tag [t] and payload [p], and move assignment does the same
    to its destination, which is an object other than [v]; both leave [v]
    with tag [Undefined], so that destroying [v] afterwards releases nothing.
    (For the tags [Undefined] and [Null], which select no member, the
    destination gets [data.i = 0].) *)
Theorem move_transfers_and_leaves_source_Undefined
  (t : ValueType.t) (p : ValueData) (L : live t p = true) :
  (type (fst (move_ctor (mkValue t p))) = t /\
   data (fst (move_ctor (mkValue t p))) = (if has_payload t then p else data_i 0) /\
   type (snd (move_ctor (mkValue t p))) = ValueType.Undefined /\
   dtor (snd (move_ctor (mkValue t p))) = []) /\
  (forall (sigma : Store) (this that : nat),
      this <> that ->
      sigma that = mkValue t p ->
      type (fst (move_assign this that sigma) this) = t /\
      data (fst (move_assign this that sigma) this) = (if has_payload t then p else data_i 0) /\
      type (fst (move_assign this that sigma) that) = ValueType.Undefined /\
      dtor (fst (move_assign this that sigma) that) = []).
Proof.
  split.
  - pose proof (move_ctor_transfers t p L) as H.
    destruct (move_ctor (mkValue t p)) as [dest source]. exact H.
  - intros sigma this that Hne Hthat.
    pose proof (@move_assign_transfers sigma this that t p Hne Hthat L) as H.
    simpl in H. destruct H as (H1 & H2 & H3 & H4 & _). auto.
Qed.

Lemma move_transfers_and_leaves_source_Undefined_witness :
  let v := Value_String "abc"%string in
  let sigma : Store := fun a => if Nat.eqb a 1 then v else Value_Array [Value_bool true] in
  fst (move_ctor v) = v /\
  type (snd (move_ctor v)) = ValueType.Undefined /\
  fst (move_assign 0 1 sigma) 0 = v /\
  type (fst (move_assign 0 1 sigma) 1) = ValueType.Undefined /\
  dtor (fst (move_assign 0 1 sigma) 1) = [].
Proof.
  intros v sigma.
  destruct (@move_transfers_and_leaves_source_Undefined
              ValueType.String (data_string "abc"%string) eq_refl) as [(C1 & C2 & C3 & C4) A].
  destruct (A sigma 0 1 (Nat.neq_0_succ 0) eq_refl) as (A1 & A2 & A3 & A4).
  repeat split; try assumption; reflexivity.
Defined.

(** The destination of a move assignment releases what it held before. *)
Lemma move_assign_releases_destination (sigma : Store) (this that : nat) :
  snd (move_assign this that sigma) = dtor (sigma this).
Proof.
  unfold move_assign, release_if_defined, dtor.
  destruct (negb (ValueType.eqb (type (sigma this)) ValueType.Undefined)).
  - destruct (releaseData (sigma this)) as [d released].
    destruct (moveDataTo _); reflexivity.
  - destruct (moveDataTo _); reflexivity.
Qed.

(** Assigning an object to itself by move leaves it [Undefined]: the operator
    has no test for [this == &that]. *)
Lemma move_assign_self (sigma : Store) (this : nat) :
  type (fst (move_assign this this sigma) this) = ValueType.Undefined.
Proof.
  unfold move_assign, release_if_defined, set_type, set_data.
  destruct (negb _); [destruct (releaseData _)|];
    destruct (moveDataTo _); simpl; now rewrite store_same.
Qed.

(* ----------------------------------------------------------------- *)
(** ** Fixed inputs *)

(** C2.  [parse("[1,2,3]")] gives the three [Int]s in order.  [parse("[]")]
    gives an [Array] of one element, an [Undefined] value: [parseArray] calls
    [parseValue] on the closing bracket and [parseValue] returns [true] there
    without writing its output. *)
Theorem parse_array_elements :
  result (run "[1,2,3]")
  = Some (true, Value_Array [Value_intptr 1; Value_intptr 2; Value_intptr 3]) /\
  result (run "[]") = Some (true, Value_Array [Value_default]).
Proof. split; vm_compute; reflexivity. Qed.

(** The same slip leaves an [Undefined] element after a trailing comma and
    between two commas. *)
Lemma parse_array_trailing_comma :
  result (run "[1,]") = Some (true, Value_Array [Value_intptr 1; Value_default]) /\
  result (run "[,]") = Some (true, Value_Array [Value_default; Value_default]).
Proof. split; vm_compute; reflexivity. Qed.

(** Scalars and a string with an escape. *)
Lemma parse_scalars :
  result (run "null") = Some (true, Value_nullptr) /\
  result (run "true") = Some (true, Value_bool true) /\
  result (run "false") = Some (true, Value_bool false) /\
  result (parse 8 Value_default
                [DQUOTE; "a"; BACKSLASH; "n"; "b"; DQUOTE]%char 6)
  = Some (true, Value_String (String "a" (String LF (String "b" EmptyString)))).
Proof. repeat split; vm_compute; reflexivity. Qed.

(** A missing closing brace, a string that does not end, a digit run that
    letters follow. *)
Lemma parse_malformed :
  (exists e tz, run "{a:1" = Throw GclErrorID.ExpectedPunctuaction e tz) /\
  (exists e tz, parse 14 Value_default (DQUOTE :: list_ascii_of_string "unterminated") 13
                = Throw GclErrorID.ExpectedStringEnd e tz) /\
  (exists e tz, run "123abc" = Throw GclErrorID.InvalidDigit e tz).
Proof. repeat split; eexists; eexists; vm_compute; reflexivity. Qed.

(** *** [parseValue] on a token that starts no value *)

Lemma parseValue_Eof (tfuel fuel : nat) (output : Value) (tz : Tokenizer.t) :
  Token.content (m_token tz) = tok_Eof ->
  parseValue tfuel (S fuel) output tz = Ok (false, output) tz.
Proof. intros H. simpl. unfold bind, token, get, Tokenizer.token. now rewrite H. Qed.

Lemma parseValue_other_identifier (tfuel fuel : nat) (output : Value) (tz : Tokenizer.t)
      (identifier : string) :
  Token.content (m_token tz) = tok_Identifier identifier ->
  identifier <> "true"%string -> identifier <> "false"%string -> identifier <> "null"%string ->
  parseValue tfuel (S fuel) output tz = Ok (false, output) tz.
Proof.
  intros H Ht Hf Hn. simpl. unfold bind, token, get, Tokenizer.token. rewrite H.
  apply String.eqb_neq in Ht, Hf, Hn. now rewrite Ht, Hf, Hn.
Qed.

(** C3.  On a punctuation token other than the left brace and the left
    square bracket, [parseValue] returns [true]: it consumes nothing and
    leaves its output as it was.  (On [Eof] and on an identifier other than
    [true], [false], [null] it returns [false]: the two lemmas above.) *)
Theorem parseValue_other_punctuation_returns_true
  (tfuel fuel : nat) (output : Value) (tz : Tokenizer.t) (p : Punctuaction.t) :
  Token.content (m_token tz) = tok_Punctuaction p ->
  p <> Punctuaction.Lbrace -> p <> Punctuaction.Lsqb ->
  parseValue tfuel (S fuel) output tz = Ok (true, output) tz.
Proof.
  intros H Hb Hs. simpl. unfold bind, token, get, Tokenizer.token. rewrite H.
  destruct p; simpl; try reflexivity; congruence.
Qed.

Lemma parseValue_other_punctuation_returns_true_witness :
  Token.content (m_token at_comma) = tok_Punctuaction Punctuaction.Comma /\
  parseValue 3 3 Value_default at_comma = Ok (true, Value_default) at_comma /\
  result (run ",") = Some (true, Value_default).
Proof.
  split; [reflexivity|]. split; [|vm_compute; reflexivity].
  apply (@parseValue_other_punctuation_returns_true 3 2 Value_default at_comma
           Punctuaction.Comma); [reflexivity | discriminate | discriminate].
Defined.

(** On the empty buffer [parse] dereferences nothing, the first token is
    [Eof] and the call returns [false]. *)
Lemma parse_empty_buffer (fuel : nat) (output : Value) (chars : list ascii) :
  parse (S fuel) output chars 0
  = Ok (false, output)
       (Tokenizer.make chars 0 0 1 0 NUL (Token.make (Span.make 1 0 1 0) tok_Eof) []).
Proof. reflexivity. Qed.

(* ================================================================= *)
(** * Reasoning about outcomes *)

Lemma sat_bind {A B} (m : M A) (k : A -> M B) (tz : Tokenizer.t)
      (Q1 : A -> Tokenizer.t -> Prop) (Q : B -> Tokenizer.t -> Prop)
      (E F : Tokenizer.t -> Prop) :
  sat (m tz) Q1 E F ->
  (forall x tz1, Q1 x tz1 -> sat (k x tz1) Q E F) ->
  sat (bind m k tz) Q E F.
Proof.
  unfold bind. destruct (m tz); simpl; auto.
Qed.

Lemma sat_weaken {A} (o : Outcome A) (Q Q' : A -> Tokenizer.t -> Prop)
      (E E' F F' : Tokenizer.t -> Prop) :
  sat o Q E F ->
  (forall x tz, Q x tz -> Q' x tz) ->
  (forall tz, E tz -> E' tz) ->
  (forall tz, F tz -> F' tz) ->
  sat o Q' E' F'.
Proof. destruct o; simpl; auto. Qed.

(* ----------------------------------------------------------------- *)
(** ** Invariants of the tokenizer state, and the error kinds thrown

    A property of the state that [advanceChar] keeps and that does not look
    at the current token is kept by every function of the tokenizer and of
    the parser, however the function ends.  The same walk through the code
    collects the error kinds written at its [throw] expressions. *)

Section Invariant.
Variable I : Tokenizer.t -> Prop.
Hypothesis I_advanceChar : forall tz, I tz -> I (final (advanceChar tz)).
Hypothesis I_with_token : forall tok tz, I tz -> I (with_token tok tz).

Lemma kept_final {A} (o : Outcome A) : kept I o -> I (final o).
Proof. destruct o; simpl; tauto. Qed.

Lemma keeps_ret {A} (x : A) : keeps I (ret x).
Proof. intros tz H; exact H. Qed.

Lemma keeps_bind {A B} (m : M A) (k : A -> M B) :
  keeps I m -> (forall x, keeps I (k x)) -> keeps I (bind m k).
Proof.
  intros Hm Hk tz H. specialize (Hm tz H). unfold bind.
  destruct (m tz) as [x tz1|site e tz1|tz1]; simpl in *; auto.
  now apply Hk.
Qed.

Lemma keeps_get {A} (f : Tokenizer.t -> A) : keeps I (get f).
Proof. intros tz H; exact H. Qed.

Lemma keeps_throw {A} errorID span info :
  thrown_somewhere errorID = true -> keeps I (@throw A errorID span info).
Proof. intros Hid tz H. split; assumption. Qed.

Lemma keeps_out_of_fuel {A} : keeps I (@out_of_fuel A).
Proof. intros tz H; exact H. Qed.

Lemma keeps_advanceChar : keeps I advanceChar.
Proof.
  intros tz H. apply I_advanceChar in H. revert H. unfold advanceChar.
  destruct (m_length tz <=? m_index tz + 1); [auto|].
  destruct (deref _ _) as [c rs]. destruct (Ascii.eqb c LF); auto.
Qed.

Lemma keeps_modify_token (f : Tokenizer.t -> Token.t) :
  keeps I (modify (fun tz => with_token (f tz) tz)).
Proof. intros tz H. simpl. now apply I_with_token. Qed.

Lemma keeps_set_content (c : TokenData) : keeps I (set_content c).
Proof. intros tz H. simpl. now apply I_with_token. Qed.

Lemma keeps_span_begin : keeps I (modify span_begin).
Proof. intros tz H. simpl. now apply I_with_token. Qed.

Lemma keeps_span_end : keeps I (modify span_end).
Proof. intros tz H. simpl. now apply I_with_token. Qed.

Ltac keeps_step :=
  match goal with
  | |- keeps I (bind _ _) => apply keeps_bind; [|intros]
  | |- keeps I (ret _) => apply keeps_ret
  | |- keeps I (get _) => apply keeps_get
  | |- keeps I token => apply keeps_get
  | |- keeps I token_span => apply keeps_get
  | |- keeps I (throw _ _ _) => apply keeps_throw; reflexivity
  | |- keeps I out_of_fuel => apply keeps_out_of_fuel
  | |- keeps I advanceChar => apply keeps_advanceChar
  | |- keeps I (set_content _) => apply keeps_set_content
  | |- keeps I (modify span_begin) => apply keeps_span_begin
  | |- keeps I (modify span_end) => apply keeps_span_end
  | |- keeps I (modify _) => apply keeps_modify_token
  | |- keeps I (if ?b then _ else _) => destruct b
  | |- keeps I (match ?x with _ => _ end) => destruct x
  | H : _ |- _ => solve [apply H; auto]
  end.

Ltac keeps_auto := repeat keeps_step.

Lemma keeps_skipWhitespace fuel : keeps I (skipWhitespace fuel).
Proof. induction fuel; simpl; keeps_auto. Qed.

Lemma keeps_skipComment_loop fuel : keeps I (skipComment_loop fuel).
Proof. induction fuel; simpl; keeps_auto. Qed.

Lemma keeps_skipComment fuel : keeps I (skipComment fuel).
Proof. unfold skipComment. keeps_auto. apply keeps_skipComment_loop. Qed.

Lemma keeps_skipComments fuel n : keeps I (skipComments fuel n).
Proof.
  induction n; simpl; keeps_auto;
    auto using keeps_skipComment, keeps_skipWhitespace.
Qed.

Lemma keeps_readIdentifier_loop fuel : forall s, keeps I (readIdentifier_loop fuel s).
Proof. induction fuel; intros s; simpl; keeps_auto. Qed.

Lemma keeps_readIdentifier fuel : keeps I (readIdentifier fuel).
Proof. unfold readIdentifier. keeps_auto. apply keeps_readIdentifier_loop. Qed.

Lemma keeps_readNumber_sign : keeps I readNumber_sign.
Proof. unfold readNumber_sign. keeps_auto. Qed.

Lemma keeps_readNumber_prefix : keeps I readNumber_prefix.
Proof. unfold readNumber_prefix. keeps_auto. Qed.

Lemma keeps_readNumber_digits fuel base : forall v, keeps I (readNumber_digits fuel base v).
Proof. induction fuel; intros v; simpl; keeps_auto. Qed.

Lemma keeps_readNumber_skip fuel : keeps I (readNumber_skip fuel).
Proof. induction fuel; simpl; keeps_auto. Qed.

Lemma keeps_readNumber fuel : keeps I (readNumber fuel).
Proof.
  unfold readNumber. keeps_auto;
    auto using keeps_readNumber_sign, keeps_readNumber_prefix,
               keeps_readNumber_digits, keeps_readNumber_skip.
Qed.

Lemma keeps_readPunctuaction : keeps I readPunctuaction.
Proof. unfold readPunctuaction. keeps_auto. Qed.

Lemma keeps_readString_escape s : keeps I (readString_escape s).
Proof. unfold readString_escape. keeps_auto. Qed.

Lemma keeps_readString_loop fuel : forall s, keeps I (readString_loop fuel s).
Proof.
  induction fuel; intros s; simpl; keeps_auto.
  apply keeps_readString_escape.
Qed.

Lemma keeps_readString fuel : keeps I (readString fuel).
Proof. unfold readString. keeps_auto. apply keeps_readString_loop. Qed.

Lemma keeps_readMisc : keeps I readMisc.
Proof. unfold readMisc. keeps_auto. Qed.

Lemma keeps_first_success methods :
  Forall (fun method => keeps I method) methods -> keeps I (first_success methods).
Proof.
  induction 1; simpl; keeps_auto.
Qed.

Lemma keeps_advance fuel : keeps I (advance fuel).
Proof.
  unfold advance. keeps_auto;
    auto using keeps_skipWhitespace, keeps_skipComments.
  apply keeps_first_success. unfold READ_METHODS.
  repeat constructor;
    auto using keeps_readIdentifier, keeps_readNumber, keeps_readPunctuaction,
               keeps_readString, keeps_readMisc.
Qed.

Section KeepsParser.
Variable tfuel : nat.

Lemma keeps_parseArray_loop pv :
  (forall v, keeps I (pv v)) ->
  forall n output, keeps I (parseArray_loop tfuel pv n output).
Proof.
  intros Hpv. induction n; intros output; simpl; keeps_auto.
  apply keeps_advance.
Qed.

Lemma keeps_parseArray pv :
  (forall v, keeps I (pv v)) ->
  forall n output, keeps I (parseArray tfuel pv n output).
Proof.
  intros Hpv n output. unfold parseArray. keeps_auto;
    auto using keeps_advance, keeps_parseArray_loop.
Qed.

Lemma keeps_parseDict_loop pv :
  (forall v, keeps I (pv v)) ->
  forall n output, keeps I (parseDict_loop tfuel pv n output).
Proof.
  intros Hpv. induction n; intros output; simpl; keeps_auto;
    apply keeps_advance.
Qed.

Lemma keeps_parseDict pv :
  (forall v, keeps I (pv v)) ->
  forall n output, keeps I (parseDict tfuel pv n output).
Proof.
  intros Hpv n output. unfold parseDict. keeps_auto;
    auto using keeps_advance, keeps_parseDict_loop.
Qed.

Lemma keeps_parseValue fuel : forall output, keeps I (parseValue tfuel fuel output).
Proof.
  induction fuel; intros output; simpl; keeps_auto;
    auto using keeps_advance, keeps_parseDict, keeps_parseArray.
Qed.
End KeepsParser.
End Invariant.

(* ----------------------------------------------------------------- *)
(** ** The buffer is never read outside its bound *)

Lemma reads_below_advanceChar n tz :
  reads_below n tz -> reads_below n (final (advanceChar tz)).
Proof.
  intros [Hlen Hreads]. unfold advanceChar.
  destruct (m_length tz <=? m_index tz + 1) eqn:Hend; simpl.
  - split; assumption.
  - apply Nat.leb_gt in Hend.
    destruct (Ascii.eqb _ LF); simpl; (split; [assumption|]);
      constructor; try assumption; lia.
Qed.

Lemma reads_below_with_token n tok tz :
  reads_below n tz -> reads_below n (with_token tok tz).
Proof. intros H; exact H. Qed.

Lemma reads_below_setText chars n :
  reads_below n (setText chars n Tokenizer.init).
Proof.
  unfold setText, reads_below. destruct (0 <? n) eqn:Hn; simpl.
  - apply Nat.ltb_lt in Hn. split; [reflexivity|]. constructor; [lia|constructor].
  - split; [reflexivity|constructor].
Qed.

(** C9.  Whatever the buffer and its length [n], and however the call ends,
    every index at which [parse] has dereferenced the buffer is below [n];
    and for [n = 0] nothing is dereferenced, the first token is [Eof] and
    [parse] returns [false]. *)
Theorem parse_reads_within_buffer :
  forall (fuel : nat) (output : Value) (chars : list ascii) (n : nat),
    Forall (fun i => i < n) (reads (final (parse fuel output chars n))) /\
    parse (S fuel) output chars 0
    = Ok (false, output)
         (Tokenizer.make chars 0 0 1 0 NUL (Token.make (Span.make 1 0 1 0) tok_Eof) []).
Proof.
  intros fuel output chars n. split; [|apply parse_empty_buffer].
  assert (H : reads_below n (final (parse fuel output chars n))).
  { apply kept_final. unfold parse. unfold bind at 1, modify.
    apply (@keeps_bind (reads_below n)); [|intros _|apply reads_below_setText].
    - apply keeps_advance;
        [apply reads_below_advanceChar|apply reads_below_with_token].
    - apply keeps_parseValue;
        [apply reads_below_advanceChar|apply reads_below_with_token]. }
  apply H.
Qed.

(** The same holds of the tokenizer on its own, call after call. *)
Lemma advance_reads_within_buffer (fuel n : nat) (tz : Tokenizer.t) :
  reads_below n tz -> reads_below n (final (advance fuel tz)).
Proof.
  intros H. apply kept_final.
  apply keeps_advance;
    [apply reads_below_advanceChar|apply reads_below_with_token|exact H].
Qed.

Lemma reset_reads_within_buffer (n : nat) (tz : Tokenizer.t) :
  reads_below n tz -> reads_below n (Tokenizer.reset tz).
Proof.
  intros [Hlen Hreads]. unfold Tokenizer.reset, reads_below.
  destruct (0 <? m_length tz) eqn:Hn; simpl; (split; [assumption|]); [|assumption].
  apply Nat.ltb_lt in Hn. constructor; [lia|assumption].
Qed.

(* ----------------------------------------------------------------- *)
(** ** The error kinds that reach the caller *)

(** Every exception that leaves [parse] was thrown with one of six error
    kinds; [ExpectedIdentifier], [ExpectedNumber] and [KeyAlreadyDefined] are
    written at no [throw] expression. *)
Lemma parse_throw_sites (fuel : nat) (output : Value) (chars : list ascii) (n : nat)
      (site : GclErrorID.t) (e : GclException.t) (tz : Tokenizer.t) :
  parse fuel output chars n = Throw site e tz -> thrown_somewhere site = true.
Proof.
  intros Hparse.
  assert (H : kept (fun _ => True) (parse fuel output chars n)).
  { unfold parse. unfold bind at 1, modify.
    apply (@keeps_bind (fun _ => True)); [|intros _|exact Logic.I].
    - apply keeps_advance; auto.
    - apply keeps_parseValue; auto. }
  rewrite Hparse in H. apply H.
Qed.

(** C4.  [parse("{a:1,a:2}")] stops with an exception whose message names
    the key, so the second entry does not replace the first; but the [throw]
    expression passes [ExpectedPunctuaction], and no run of [parse] on any
    input throws with [KeyAlreadyDefined].  The object built holds no error
    kind at all. *)
Theorem parse_duplicate_key_throws_ExpectedPunctuaction :
  (exists (span : Span.t) (tz : Tokenizer.t),
      run "{a:1,a:2}"
      = Throw GclErrorID.ExpectedPunctuaction
              (GclException.make None span "key `a` already defined") tz) /\
  (forall (fuel : nat) (output : Value) (chars : list ascii) (n : nat)
          (e : GclException.t) (tz : Tokenizer.t),
      parse fuel output chars n <> Throw GclErrorID.KeyAlreadyDefined e tz).
Proof.
  split.
  - eexists; eexists. vm_compute. reflexivity.
  - intros fuel output chars n e tz Hparse.
    apply parse_throw_sites in Hparse. discriminate.
Qed.

(* ================================================================= *)
(** * Termination *)

Lemma step_refl tz : step tz tz.
Proof. split; lia. Qed.

Lemma step_trans tz1 tz2 tz3 : step tz1 tz2 -> step tz2 tz3 -> step tz1 tz3.
Proof. unfold step; lia. Qed.

Lemma step_with_token tok tz : step tz (with_token tok tz).
Proof. unfold step, pending, ahead; simpl; lia. Qed.

(** [advanceChar] always returns; a success uses up one character ahead, a
    failure leaves NUL as the current character. *)
Lemma advanceChar_spec (tz : Tokenizer.t) :
  sat (advanceChar tz)
      (fun ok tz' =>
         step tz tz' /\
         (Ascii.eqb (m_char tz) NUL = false -> pending tz' < pending tz) /\
         (ok = true -> ahead tz' < ahead tz) /\
         (ok = false -> m_char tz' = NUL) /\
         m_token tz' = m_token tz)
      anyhow never.
Proof.
  unfold advanceChar, step, pending, ahead.
  destruct (m_length tz <=? m_index tz + 1) eqn:Hend; simpl.
  - apply Nat.leb_le in Hend.
    destruct (Ascii.eqb (m_char tz) NUL); repeat split; intros; try lia; try discriminate.
  - apply Nat.leb_gt in Hend.
    destruct (Ascii.eqb (nth (m_index tz + 1) (m_chars tz) NUL) LF); simpl;
      destruct (Ascii.eqb (nth (m_index tz + 1) (m_chars tz) NUL) NUL);
      destruct (Ascii.eqb (m_char tz) NUL);
      repeat split; intros; try lia; try discriminate.
Qed.

(** The current character is not NUL when a test that NUL fails holds of it. *)
Ltac not_NUL :=
  match goal with
  | |- Ascii.eqb ?c NUL = false =>
      let E := fresh "E" in
      destruct (Ascii.eqb_spec c NUL) as [E|]; [exfalso|reflexivity];
      rewrite E in *; vm_compute in *; congruence
  end.

(** Continue after an [advanceChar]. *)
Lemma sat_advanceChar {B} (k : bool -> M B) (tz : Tokenizer.t)
      (Q : B -> Tokenizer.t -> Prop) :
  (forall ok tz1,
      step tz tz1 ->
      (Ascii.eqb (m_char tz) NUL = false -> pending tz1 < pending tz) ->
      (ok = true -> ahead tz1 < ahead tz) ->
      (ok = false -> m_char tz1 = NUL) ->
      m_token tz1 = m_token tz ->
      sat (k ok tz1) Q anyhow never) ->
  sat (bind advanceChar k tz) Q anyhow never.
Proof.
  intros H. eapply sat_bind; [apply advanceChar_spec|].
  intros ok tz1 (H1 & H2 & H3 & H4 & H5). now apply H.
Qed.

Lemma sat_step_then {A B} (m : M A) (k : A -> M B) (tz : Tokenizer.t)
      (Q : B -> Tokenizer.t -> Prop) :
  sat (m tz) (fun _ tz1 => step tz tz1) anyhow never ->
  (forall x tz1, step tz tz1 -> sat (k x tz1) Q anyhow never) ->
  sat (bind m k tz) Q anyhow never.
Proof. intros Hm Hk. eapply sat_bind; [exact Hm|exact Hk]. Qed.

Lemma skipWhitespace_steps fuel :
  forall tz, pending tz + 1 <= fuel ->
             sat (skipWhitespace fuel tz) (fun _ tz' => step tz tz') anyhow never.
Proof.
  induction fuel; intros tz Hfuel; [lia|].
  simpl. unfold bind at 1, get.
  destruct (Ascii.eqb (m_char tz) " " || Ascii.eqb (m_char tz) TAB
            || Ascii.eqb (m_char tz) LF) eqn:Hws.
  - assert (Hc : Ascii.eqb (m_char tz) NUL = false) by not_NUL.
    apply sat_advanceChar. intros ok tz1 Hs Hlt _ _ _.
    specialize (Hlt Hc).
    eapply sat_weaken; [apply IHfuel; lia| |auto|auto].
    intros ? tz2 Hs2. eapply step_trans; eauto.
  - apply step_refl.
Qed.

Lemma skipComment_loop_steps fuel :
  forall tz, ahead tz + 1 <= fuel ->
             sat (skipComment_loop fuel tz) (fun _ tz' => step tz tz') anyhow never.
Proof.
  induction fuel; intros tz Hfuel; [lia|].
  simpl. unfold bind at 1, get.
  destruct (negb (Ascii.eqb (m_char tz) LF)).
  - apply sat_advanceChar. intros ok tz1 Hs _ Hok _ _.
    destruct ok; simpl; [|exact Hs].
    specialize (Hok eq_refl).
    eapply sat_weaken; [apply IHfuel; lia| |auto|auto].
    intros ? tz2 Hs2. eapply step_trans; eauto.
  - apply step_refl.
Qed.

Lemma pending_ahead tz : ahead tz <= pending tz.
Proof. unfold pending. lia. Qed.

Lemma skipComments_steps fuel n :
  forall tz, pending tz + 1 <= fuel -> pending tz + 1 <= n ->
             sat (skipComments fuel n tz) (fun _ tz' => step tz tz') anyhow never.
Proof.
  induction n; intros tz Hfuel Hn; [lia|].
  simpl. unfold bind at 1, get.
  destruct (Ascii.eqb (m_char tz) "#") eqn:Hhash; [|apply step_refl].
  assert (Hc : Ascii.eqb (m_char tz) NUL = false) by not_NUL.
  unfold skipComment.
  apply sat_bind with (Q1 := fun _ tz1 => step tz tz1 /\ pending tz1 < pending tz).
  - apply sat_advanceChar. intros ok tz1 Hs Hlt _ _ _. specialize (Hlt Hc).
    eapply sat_weaken;
      [apply skipComment_loop_steps; pose proof (pending_ahead tz1); lia| |auto|auto].
    intros ? tz2 [Ha Hp]. destruct Hs. split; [split|]; lia.
  - intros _ tz1 [Hs Hlt].
    eapply sat_step_then; [apply skipWhitespace_steps; lia|].
    intros _ tz2 Hs2.
    eapply sat_weaken; [apply IHn; destruct Hs2; lia| |auto|auto].
    intros ? tz3 Hs3. eauto using step_trans.
Qed.

Lemma sat_get {A B} (f : Tokenizer.t -> A) (k : A -> M B) (tz : Tokenizer.t)
      (Q : B -> Tokenizer.t -> Prop) (E F : Tokenizer.t -> Prop) :
  sat (k (f tz) tz) Q E F -> sat (bind (get f) k tz) Q E F.
Proof. intros H; exact H. Qed.

Lemma sat_set_content {B} (c : TokenData) (k : unit -> M B) (tz : Tokenizer.t)
      (Q : B -> Tokenizer.t -> Prop) (E F : Tokenizer.t -> Prop) :
  sat (k tt (with_content c tz)) Q E F -> sat (bind (set_content c) k tz) Q E F.
Proof. intros H; exact H. Qed.

Lemma scanned_step tz tz1 tz2 :
  step tz tz1 ->
  (Ascii.eqb (m_char tz) NUL = false -> pending tz1 < pending tz) ->
  m_token tz1 = m_token tz ->
  step tz1 tz2 -> m_token tz2 = m_token tz1 ->
  scanned tz tz2.
Proof.
  intros [Ha Hp] Hlt Htok [Ha2 Hp2] Htok2.
  repeat split; try lia; try congruence.
  intros Hc. specialize (Hlt Hc). lia.
Qed.

Lemma scanned_after tz tz1 tz2 :
  step tz tz1 ->
  (Ascii.eqb (m_char tz) NUL = false -> pending tz1 < pending tz) ->
  m_token tz1 = m_token tz ->
  scanned tz1 tz2 -> scanned tz tz2.
Proof.
  intros Hs Hlt Htok (Hs2 & _ & Htok2). eapply scanned_step; eauto.
Qed.

Lemma readIdentifier_loop_steps fuel :
  forall s tz, ahead tz + 1 <= fuel ->
               sat (readIdentifier_loop fuel s tz) (fun _ tz' => scanned tz tz') anyhow never.
Proof.
  induction fuel; intros s tz Hfuel; [lia|].
  simpl. apply sat_advanceChar. intros ok tz1 Hs Hlt Hok _ Htok.
  apply sat_get.
  destruct (ok && (isAlnum (m_char tz1) || Ascii.eqb (m_char tz1) "_")) eqn:Hc.
  - apply andb_prop in Hc. destruct Hc as [-> _]. specialize (Hok eq_refl).
    eapply sat_weaken; [apply IHfuel; lia| |auto|auto].
    intros ? tz2 H2. eapply scanned_after; eauto.
  - simpl. repeat split; try apply Hs; auto.
Qed.

Lemma readNumber_digits_steps fuel base :
  forall v tz, ahead tz + 1 <= fuel ->
               sat (readNumber_digits fuel base v tz) (fun _ tz' => scanned tz tz') anyhow never.
Proof.
  induction fuel; intros v tz Hfuel; [lia|].
  simpl. apply sat_advanceChar. intros ok tz1 Hs Hlt Hok _ Htok.
  apply sat_get.
  destruct (ok && isDigit (m_char tz1) base) eqn:Hc.
  - apply andb_prop in Hc. destruct Hc as [-> _]. specialize (Hok eq_refl).
    eapply sat_weaken; [apply IHfuel; lia| |auto|auto].
    intros ? tz2 H2. eapply scanned_after; eauto.
  - simpl. repeat split; try apply Hs; auto.
Qed.

Lemma readNumber_skip_steps fuel :
  forall tz, pending tz + 1 <= fuel ->
             sat (readNumber_skip fuel tz) (fun _ tz' => step tz tz') anyhow never.
Proof.
  induction fuel; intros tz Hfuel; [lia|].
  simpl. apply sat_get.
  destruct (isAlnum (m_char tz)) eqn:Hal; [|apply step_refl].
  assert (Hc : Ascii.eqb (m_char tz) NUL = false) by not_NUL.
  apply sat_advanceChar. intros ok tz1 Hs Hlt _ _ _. specialize (Hlt Hc).
  eapply sat_weaken; [apply IHfuel; lia| |auto|auto].
  intros ? tz2 Hs2. eapply step_trans; eauto.
Qed.

Lemma readString_escape_steps s tz :
  sat (readString_escape s tz) (fun _ tz' => tz' = tz) anyhow never.
Proof.
  unfold readString_escape. apply sat_get.
  repeat match goal with
         | |- sat ((if ?b then _ else _) _) _ _ _ => destruct b
         end; simpl; auto; exact I.
Qed.

Lemma readString_loop_steps fuel :
  forall s tz, ahead tz + 1 <= fuel ->
               sat (readString_loop fuel s tz) (fun _ tz' => scanned tz tz') anyhow never.
Proof.
  induction fuel; intros s tz Hfuel; [lia|].
  simpl. apply sat_advanceChar. intros ok tz1 Hs Hlt Hok _ Htok.
  apply sat_get.
  destruct (ok && negb (Ascii.eqb (m_char tz1) DQUOTE)) eqn:Hc.
  - apply andb_prop in Hc. destruct Hc as [-> _]. specialize (Hok eq_refl).
    destruct (Ascii.eqb (m_char tz1) LF); [exact I|].
    destruct (Ascii.eqb (m_char tz1) BACKSLASH).
    + apply sat_advanceChar. intros ok2 tz2 Hs2 _ _ _ Htok2.
      eapply sat_bind; [apply readString_escape_steps|].
      intros s' tz3 ->.
      eapply sat_weaken; [apply IHfuel; destruct Hs2; lia| |auto|auto].
      intros ? tz4 (Hs4 & _ & Htok4).
      eapply scanned_step; [exact Hs|exact Hlt|exact Htok| |congruence].
      eapply step_trans; eauto.
    + eapply sat_weaken; [apply IHfuel; lia| |auto|auto].
      intros ? tz2 H2. eapply scanned_after; eauto.
  - simpl. repeat split; try apply Hs; auto.
Qed.

Lemma ahead_with_content c tz : ahead (with_content c tz) = ahead tz.
Proof. reflexivity. Qed.

Lemma pending_with_content c tz : pending (with_content c tz) = pending tz.
Proof. reflexivity. Qed.

Lemma weight_with_content c tz :
  weight (with_content c tz) = pending tz + (match c with tok_Eof => 0 | _ => 1 end).
Proof. reflexivity. Qed.

Lemma method_post_false tz : method_post tz false tz.
Proof. unfold method_post. repeat split; lia. Qed.

Lemma readIdentifier_spec fuel tz :
  pending tz + 1 <= fuel ->
  sat (readIdentifier fuel tz) (method_post tz) anyhow never.
Proof.
  intros Hfuel. unfold readIdentifier. apply sat_get.
  destruct (negb (isAlpha (m_char tz))) eqn:Hal; [apply method_post_false|].
  apply negb_false_iff in Hal.
  assert (Hc : Ascii.eqb (m_char tz) NUL = false) by not_NUL.
  eapply sat_bind;
    [apply readIdentifier_loop_steps; pose proof (pending_ahead tz); lia|].
  intros s tz1 ([Ha Hp] & Hlt & _). specialize (Hlt Hc).
  apply sat_set_content. simpl. unfold method_post.
  rewrite weight_with_content, ahead_with_content. lia.
Qed.

Lemma readNumber_sign_spec tz :
  sat (readNumber_sign tz)
      (fun _ tz' =>
         step tz tz' /\
         (isDigit (m_char tz) 10 = true -> tz' = tz) /\
         (isDigit (m_char tz) 10 = false -> pending tz' < pending tz))
      anyhow never.
Proof.
  unfold readNumber_sign. apply sat_get.
  destruct (isDigit (m_char tz) 10) eqn:Hd; simpl.
  - repeat split; try lia; discriminate.
  - destruct (Ascii.eqb (m_char tz) "-") eqn:Hminus.
    + assert (Hc : Ascii.eqb (m_char tz) NUL = false) by not_NUL.
      apply sat_advanceChar. intros ok tz1 Hs Hlt _ _ _. simpl.
      repeat split; try apply Hs; auto; discriminate.
    + destruct (Ascii.eqb (m_char tz) "+") eqn:Hplus; [|exact I].
      assert (Hc : Ascii.eqb (m_char tz) NUL = false) by not_NUL.
      apply sat_advanceChar. intros ok tz1 Hs Hlt _ _ _. simpl.
      repeat split; try apply Hs; auto; discriminate.
Qed.

Lemma readNumber_prefix_spec tz :
  sat (readNumber_prefix tz)
      (fun prefix tz' =>
         step tz tz' /\
         (Ascii.eqb (m_char tz) "0" = true -> pending tz' < pending tz) /\
         (Ascii.eqb (m_char tz) "0" = false -> tz' = tz /\ prefix = Some 10%Z) /\
         (prefix = None -> Token.content (m_token tz') = tok_Int 0))
      anyhow never.
Proof.
  unfold readNumber_prefix. apply sat_get.
  destruct (Ascii.eqb (m_char tz) "0") eqn:Hzero; simpl.
  2:{ repeat split; try lia; discriminate. }
  assert (Hc : Ascii.eqb (m_char tz) NUL = false) by not_NUL.
  apply sat_advanceChar. intros ok tz1 Hs Hlt _ _ _. specialize (Hlt Hc).
  apply sat_get.
  destruct (negb (isDigit (m_char tz1) 10)); simpl.
  2:{ repeat split; try apply Hs; auto; discriminate. }
  destruct (Ascii.eqb (m_char tz1) "b" || Ascii.eqb (m_char tz1) "B"
            || Ascii.eqb (m_char tz1) "x" || Ascii.eqb (m_char tz1) "X").
  - apply sat_advanceChar. intros ok2 tz2 Hs2 _ _ _ _.
    apply sat_get.
    destruct (negb (isDigit (m_char tz2) _)); simpl; [exact I|].
    destruct Hs, Hs2. repeat split; try lia; discriminate.
  - apply sat_set_content. simpl.
    destruct Hs. repeat split; try (rewrite ?ahead_with_content, ?pending_with_content; lia);
      discriminate.
Qed.

Lemma readNumber_spec fuel tz :
  pending tz + 1 <= fuel ->
  sat (readNumber fuel tz) (method_post tz) anyhow never.
Proof.
  intros Hfuel. unfold readNumber. apply sat_get.
  destruct (negb (isDigit (m_char tz) 10) && negb (Ascii.eqb (m_char tz) "-")
            && negb (Ascii.eqb (m_char tz) "+")) eqn:Hstart;
    [apply method_post_false|].
  assert (Hc : Ascii.eqb (m_char tz) NUL = false) by not_NUL.
  eapply sat_bind; [apply readNumber_sign_spec|].
  intros isNeg tz1 (Hs1 & Hsame1 & Hlt1).
  eapply sat_bind; [apply readNumber_prefix_spec|].
  intros prefix tz2 (Hs2 & Hlt2 & Hsame2 & Hnone).
  (* the characters consumed so far, or the digit still to be consumed *)
  assert (Hprog : pending tz2 < pending tz
                  \/ (tz2 = tz /\ prefix = Some 10%Z)).
  { destruct (isDigit (m_char tz) 10) eqn:Hd.
    - rewrite (Hsame1 eq_refl) in *.
      destruct (Ascii.eqb (m_char tz) "0") eqn:Hz.
      + left. apply Hlt2. reflexivity.
      + right. apply Hsame2. reflexivity.
    - left. specialize (Hlt1 eq_refl). destruct Hs2. lia. }
  assert (Ha2 : ahead tz2 <= ahead tz) by (destruct Hs1, Hs2; lia).
  assert (Hp2 : pending tz2 <= pending tz) by (destruct Hs1, Hs2; lia).
  destruct prefix as [base|].
  - apply sat_get.
    eapply sat_bind;
      [apply readNumber_digits_steps; pose proof (pending_ahead tz2); lia|].
    intros value tz3 ([Ha3 Hp3] & Hlt3 & _).
    assert (Hstrict : pending tz3 < pending tz).
    { destruct Hprog as [H|[-> _]]; [lia|]. apply Hlt3. exact Hc. }
    apply sat_get.
    destruct (isAlnum (m_char tz3)).
    + apply sat_advanceChar. intros ok tz4 Hs4 _ _ _ _.
      eapply sat_bind; [apply readNumber_skip_steps; destruct Hs4; lia|].
      intros ? tz5 _. exact I.
    + apply sat_set_content. simpl. unfold method_post.
      rewrite weight_with_content, ahead_with_content. lia.
  - simpl. unfold method_post, weight. rewrite (Hnone eq_refl).
    destruct Hprog as [H|[_ H]]; [lia|discriminate].
Qed.

Lemma readPunctuaction_spec tz :
  sat (readPunctuaction tz) (method_post tz) anyhow never.
Proof.
  unfold readPunctuaction. apply sat_get.
  repeat match goal with
         | |- context [if Ascii.eqb ?c ?d then _ else _] =>
             let H := fresh "Hchr" in destruct (Ascii.eqb c d) eqn:H
         end;
    try apply method_post_false;
    (assert (Hc : Ascii.eqb (m_char tz) NUL = false) by not_NUL;
     apply sat_advanceChar; intros ok tz1 [Ha Hp] Hlt _ _ _; specialize (Hlt Hc);
     apply sat_set_content; simpl; unfold method_post;
     rewrite weight_with_content, ahead_with_content; lia).
Qed.

Lemma readString_spec fuel tz :
  pending tz + 1 <= fuel ->
  sat (readString fuel tz) (method_post tz) anyhow never.
Proof.
  intros Hfuel. unfold readString. apply sat_get.
  destruct (negb (Ascii.eqb (m_char tz) DQUOTE)) eqn:Hq; [apply method_post_false|].
  apply negb_false_iff in Hq.
  assert (Hc : Ascii.eqb (m_char tz) NUL = false) by not_NUL.
  eapply sat_bind;
    [apply readString_loop_steps; pose proof (pending_ahead tz); lia|].
  intros s tz1 ([Ha Hp] & Hlt & _). specialize (Hlt Hc).
  apply sat_get.
  destruct (negb (Ascii.eqb (m_char tz1) DQUOTE)); [exact I|].
  apply sat_advanceChar. intros ok tz2 [Ha2 Hp2] _ _ _ _.
  apply sat_set_content. simpl. unfold method_post.
  rewrite weight_with_content, ahead_with_content. lia.
Qed.

Lemma readMisc_spec tz :
  sat (readMisc tz) (method_post tz) anyhow never.
Proof.
  unfold readMisc. apply sat_get.
  destruct (Ascii.eqb (m_char tz) NUL); [|exact I].
  apply sat_set_content. simpl. unfold method_post.
  rewrite weight_with_content, ahead_with_content. lia.
Qed.

Lemma first_success_spec (F : nat) (methods : list (M bool)) :
  Forall (fun method => forall tz, pending tz + 1 <= F ->
                                   sat (method tz) (method_post tz) anyhow never) methods ->
  forall tz, pending tz + 1 <= F ->
             Token.content (m_token tz) = tok_Eof ->
             sat (first_success methods tz)
                 (fun _ tz' => ahead tz' <= ahead tz /\ weight tz' <= pending tz)
                 anyhow never.
Proof.
  induction 1 as [|method rest Hm _ IH]; intros tz HF Heof; simpl.
  - unfold weight. rewrite Heof. lia.
  - eapply sat_bind; [apply Hm; exact HF|].
    intros [] tz1 [Ha Hpost]; simpl.
    + lia.
    + destruct Hpost as [Hp Hcont].
      eapply sat_weaken; [apply IH; [lia|congruence]| |auto|auto].
      simpl. intros ? tz2 [Ha2 Hw2]. lia.
Qed.

(** [advance] returns or throws, and the token it produces has been paid for
    with pending characters. *)
Lemma advance_spec fuel tz :
  pending tz + 1 <= fuel ->
  sat (advance fuel tz)
      (fun _ tz' => ahead tz' <= ahead tz /\ weight tz' <= pending tz)
      anyhow never.
Proof.
  intros Hfuel. unfold advance.
  eapply sat_step_then; [now apply skipWhitespace_steps|].
  intros _ tz1 [Ha1 Hp1].
  eapply sat_step_then; [apply skipComments_steps; lia|].
  intros _ tz2 [Ha2 Hp2].
  unfold bind at 1, modify. unfold bind at 1.
  set (tz3 := span_begin _).
  assert (H3 : ahead tz3 = ahead tz2 /\ pending tz3 = pending tz2
               /\ Token.content (m_token tz3) = tok_Eof) by (repeat split).
  clearbody tz3. destruct H3 as (Ha3 & Hp3 & Heof).
  eapply sat_bind.
  - apply (@first_success_spec fuel); [|lia|exact Heof].
    unfold READ_METHODS. repeat constructor; intros;
      auto using readIdentifier_spec, readNumber_spec, readPunctuaction_spec,
                 readString_spec, readMisc_spec.
  - intros _ tz4 [Ha4 Hw4]. simpl.
    unfold weight, pending, ahead in *. simpl. lia.
Qed.

Lemma pstep_refl tz : pstep tz tz.
Proof. split; lia. Qed.

Lemma weight_pending tz : pending tz <= weight tz.
Proof. unfold weight. lia. Qed.

Lemma weight_is_punctuaction p tz :
  Token.is_punctuaction p (m_token tz) = true -> weight tz = pending tz + 1.
Proof.
  unfold Token.is_punctuaction, weight.
  destruct (Token.content (m_token tz)); try discriminate; reflexivity.
Qed.

Section ParserTerminates.
Variable tfuel : nat.

Lemma advance_consumes {B} (k : bool -> M B) (tz : Tokenizer.t)
      (Q : B -> Tokenizer.t -> Prop) :
  pending tz + 1 <= tfuel ->
  (forall b tz1, weight tz1 <= pending tz -> pending tz1 <= pending tz ->
                 sat (k b tz1) Q anyhow never) ->
  sat (bind (advance tfuel) k tz) Q anyhow never.
Proof.
  intros Hfuel Hk. eapply sat_bind; [apply advance_spec; exact Hfuel|].
  intros b tz1 [_ Hw]. apply Hk; [exact Hw|].
  pose proof (weight_pending tz1). lia.
Qed.

Section Loops.
Variable f : nat.
Variable pv : Value -> M (bool * Value).
Hypothesis pv_returns : returns_within tfuel f pv.

Lemma parseArray_loop_returns n :
  forall output tz,
    weight tz + 1 <= n -> weight tz + 1 <= f -> pending tz + 1 <= tfuel ->
    sat (parseArray_loop tfuel pv n output tz) (fun _ tz' => pstep tz tz') anyhow never.
Proof.
  induction n; intros output tz Hn Hf Ht; [lia|].
  simpl. eapply sat_bind; [apply pv_returns; assumption|].
  intros [ok value] tz1 [Hw1 Hp1]. unfold token. apply sat_get.
  destruct (negb ok); [exact I|].
  destruct (negb (Token.is_punctuaction Punctuaction.Comma _)) eqn:Hcomma.
  - destruct (Token.is_punctuaction Punctuaction.Rsqb _); [|exact I].
    simpl. split; assumption.
  - apply negb_false_iff, weight_is_punctuaction in Hcomma.
    apply advance_consumes; [lia|]. intros _ tz2 Hw2 Hp2.
    eapply sat_weaken; [apply IHn; lia| |auto|auto].
    intros ? tz3 [Hw3 Hp3]. split; lia.
Qed.

Lemma parseArray_returns n output tz :
  weight tz = pending tz + 1 ->
  weight tz <= n -> weight tz <= f -> pending tz + 1 <= tfuel ->
  sat (parseArray tfuel pv n output tz) (fun _ tz' => pstep tz tz') anyhow never.
Proof.
  intros Htok Hn Hf Ht. unfold parseArray.
  apply advance_consumes; [exact Ht|]. intros _ tz1 Hw1 Hp1.
  eapply sat_bind; [apply parseArray_loop_returns; lia|].
  intros output' tz2 [Hw2 Hp2]. unfold token. apply sat_get.
  destruct (negb (Token.is_punctuaction Punctuaction.Rsqb _)); [exact I|].
  apply advance_consumes; [lia|]. intros _ tz3 Hw3 Hp3.
  simpl. pose proof (weight_pending tz2). split; lia.
Qed.

Lemma parseDict_loop_returns n :
  forall output tz,
    weight tz + 1 <= n -> weight tz + 1 <= f -> pending tz + 1 <= tfuel ->
    sat (parseDict_loop tfuel pv n output tz) (fun _ tz' => pstep tz tz') anyhow never.
Proof.
  induction n; intros output tz Hn Hf Ht; [lia|].
  simpl. unfold token. apply sat_get. unfold Tokenizer.token.
  destruct (Token.content (m_token tz)) eqn:Hcontent; try apply pstep_refl.
  assert (Hw : weight tz = pending tz + 1) by (unfold weight; now rewrite Hcontent).
  apply sat_set_content.
  apply advance_consumes; [exact Ht|]. intros _ tz1 Hw1 Hp1.
  rewrite pending_with_content in Hw1, Hp1.
  apply sat_get.
  destruct (negb (Token.is_punctuaction Punctuaction.Colon _)); [exact I|].
  apply advance_consumes; [lia|]. intros _ tz2 Hw2 Hp2.
  pose proof (weight_pending tz1) as Hwp1.
  eapply sat_bind; [apply pv_returns; lia|].
  intros [ok value] tz3 [Hw3 Hp3]. apply sat_get.
  destruct (negb ok); [exact I|].
  destruct (StdMap.insert _ _) as [[output' it] inserted].
  destruct (negb inserted); [exact I|].
  destruct (negb (Token.is_punctuaction Punctuaction.Comma _)) eqn:Hcomma.
  - destruct (Token.is_punctuaction Punctuaction.Rbrace _); [|exact I].
    simpl. split; lia.
  - apply negb_false_iff, weight_is_punctuaction in Hcomma.
    apply advance_consumes; [lia|]. intros _ tz4 Hw4 Hp4.
    eapply sat_weaken; [apply IHn; lia| |auto|auto].
    intros ? tz5 [Hw5 Hp5]. split; lia.
Qed.

Lemma parseDict_returns n output tz :
  weight tz = pending tz + 1 ->
  weight tz <= n -> weight tz <= f -> pending tz + 1 <= tfuel ->
  sat (parseDict tfuel pv n output tz) (fun _ tz' => pstep tz tz') anyhow never.
Proof.
  intros Htok Hn Hf Ht. unfold parseDict.
  apply advance_consumes; [exact Ht|]. intros _ tz1 Hw1 Hp1.
  eapply sat_bind; [apply parseDict_loop_returns; lia|].
  intros output' tz2 [Hw2 Hp2]. unfold token. apply sat_get.
  destruct (negb (Token.is_punctuaction Punctuaction.Rbrace _)); [exact I|].
  apply advance_consumes; [lia|]. intros _ tz3 Hw3 Hp3.
  simpl. pose proof (weight_pending tz2). split; lia.
Qed.
End Loops.

Lemma parseValue_returns fuel : returns_within tfuel fuel (parseValue tfuel fuel).
Proof.
  induction fuel; intros output tz Hf Ht; [lia|].
  simpl. unfold token. apply sat_get. unfold Tokenizer.token.
  destruct (Token.content (m_token tz)) eqn:Hcontent; try apply pstep_refl;
    assert (Hw : weight tz = pending tz + 1)
      by (unfold weight; now rewrite Hcontent).
  - (* Int *)
    apply advance_consumes; [exact Ht|]. intros _ tz1 Hw1 Hp1.
    simpl. split; lia.
  - (* Float *)
    apply advance_consumes; [exact Ht|]. intros _ tz1 Hw1 Hp1.
    simpl. split; lia.
  - (* Identifier *)
    repeat match goal with
           | |- sat ((if ?b then _ else _) _) _ _ _ => destruct b
           end;
      try apply pstep_refl;
      (apply advance_consumes; [exact Ht|]; intros _ tz1 Hw1 Hp1;
       simpl; split; lia).
  - (* String *)
    apply sat_set_content.
    apply advance_consumes; [exact Ht|]. intros _ tz1 Hw1 Hp1.
    rewrite pending_with_content in Hw1, Hp1. simpl. split; lia.
  - (* Punctuaction *)
    destruct (Punctuaction.eqb punctuaction Punctuaction.Lbrace).
    + eapply sat_bind; [apply (parseDict_returns IHfuel); (assumption || lia)|].
      intros dict tz1 Hs. exact Hs.
    + destruct (Punctuaction.eqb punctuaction Punctuaction.Lsqb);
        [|apply pstep_refl].
      eapply sat_bind; [apply (parseArray_returns IHfuel); (assumption || lia)|].
      intros array tz1 Hs. exact Hs.
Qed.
End ParserTerminates.

Lemma pending_setText chars n tz : pending (setText chars n tz) <= n.
Proof.
  unfold setText, pending, ahead. destruct (0 <? n) eqn:Hn; simpl.
  - apply Nat.ltb_lt in Hn. destruct (Ascii.eqb _ NUL); lia.
  - lia.
Qed.

(** With [length + 1] units of fuel or more, [parse] returns or throws. *)
Lemma parse_enough_fuel (fuel : nat) (output : Value) (chars : list ascii) (n : nat) :
  n + 1 <= fuel ->
  sat (parse fuel output chars n) (fun _ _ => True) anyhow never.
Proof.
  intros Hfuel. unfold parse.
  unfold bind at 1, modify.
  pose proof (pending_setText chars n Tokenizer.init) as H0.
  apply advance_consumes; [lia|]. intros _ tz1 Hw1 Hp1.
  eapply sat_weaken; [apply parseValue_returns; lia| |auto|auto].
  auto.
Qed.

(* ----------------------------------------------------------------- *)
(** ** More fuel changes nothing

    [refines m m']: wherever [m] ends without running out of fuel, [m'] does
    exactly the same. *)

Lemma refines_refl {A} (m : M A) : refines m m.
Proof. intros tz _; reflexivity. Qed.

Lemma refines_out_of_fuel {A} (m' : M A) : refines out_of_fuel m'.
Proof. intros tz H; discriminate. Qed.

Lemma refines_bind {A B} (m m' : M A) (k k' : A -> M B) :
  refines m m' -> (forall x, refines (k x) (k' x)) ->
  refines (bind m k) (bind m' k').
Proof.
  intros Hm Hk tz. unfold bind. specialize (Hm tz).
  destruct (m tz) as [x tz1|site e tz1|tz1] eqn:Hmtz; simpl; intros Ht.
  - rewrite Hm by reflexivity. now apply Hk.
  - now rewrite Hm.
  - discriminate.
Qed.

Ltac refines_step :=
  match goal with
  | |- refines out_of_fuel _ => apply refines_out_of_fuel
  | |- refines ?m ?m => apply refines_refl
  | |- refines (bind _ _) (bind _ _) => apply refines_bind; [|intros]
  | |- refines (if ?b then _ else _) (if ?b then _ else _) => destruct b
  | |- refines (match ?x with _ => _ end) (match ?x with _ => _ end) => destruct x
  | H : _ |- _ => solve [apply H; auto; lia]
  end.

Ltac refines_auto := repeat refines_step.

(** A loop on fuel: induction on the smaller amount, case analysis on the
    larger. *)
Ltac fuel_induction n m :=
  induction n as [|n IH]; intros m Hle;
  [ simpl; intros; apply refines_out_of_fuel
  | destruct m as [|m]; [lia|]; apply Nat.succ_le_mono in Hle; simpl; intros ].

Lemma skipWhitespace_mono n : forall m, n <= m -> refines (skipWhitespace n) (skipWhitespace m).
Proof. fuel_induction n m; refines_auto. Qed.

Lemma skipComment_loop_mono n :
  forall m, n <= m -> refines (skipComment_loop n) (skipComment_loop m).
Proof. fuel_induction n m; refines_auto. Qed.

Lemma skipComment_mono n m : n <= m -> refines (skipComment n) (skipComment m).
Proof. intros H. unfold skipComment. refines_auto. now apply skipComment_loop_mono. Qed.

Lemma skipComments_mono f f' : f <= f' ->
  forall n m, n <= m -> refines (skipComments f n) (skipComments f' m).
Proof.
  intros Hf n. fuel_induction n m; refines_auto;
    auto using skipComment_mono, skipWhitespace_mono.
Qed.

Lemma readIdentifier_loop_mono n :
  forall m, n <= m -> forall s, refines (readIdentifier_loop n s) (readIdentifier_loop m s).
Proof. fuel_induction n m; refines_auto. Qed.

Lemma readNumber_digits_mono base n :
  forall m, n <= m ->
            forall v, refines (readNumber_digits n base v) (readNumber_digits m base v).
Proof. fuel_induction n m; refines_auto. Qed.

Lemma readNumber_skip_mono n :
  forall m, n <= m -> refines (readNumber_skip n) (readNumber_skip m).
Proof. fuel_induction n m; refines_auto. Qed.

Lemma readString_loop_mono n :
  forall m, n <= m -> forall s, refines (readString_loop n s) (readString_loop m s).
Proof. fuel_induction n m; refines_auto. Qed.

Lemma readIdentifier_mono n m : n <= m -> refines (readIdentifier n) (readIdentifier m).
Proof.
  intros H. unfold readIdentifier. refines_auto. now apply readIdentifier_loop_mono.
Qed.

Lemma readNumber_mono n m : n <= m -> refines (readNumber n) (readNumber m).
Proof.
  intros H. unfold readNumber. refines_auto;
    auto using readNumber_digits_mono, readNumber_skip_mono.
Qed.

Lemma readString_mono n m : n <= m -> refines (readString n) (readString m).
Proof.
  intros H. unfold readString. refines_auto. now apply readString_loop_mono.
Qed.

Lemma advance_mono n m : n <= m -> refines (advance n) (advance m).
Proof.
  intros H. unfold advance, READ_METHODS, first_success. refines_auto;
    auto using skipWhitespace_mono, skipComments_mono, readIdentifier_mono,
               readNumber_mono, readString_mono.
Qed.

Section ParserMono.
Variables tf tf' : nat.
Hypothesis tf_le : tf <= tf'.

Section LoopsMono.
Variables pv pv' : Value -> M (bool * Value).
Hypothesis pv_mono : forall v, refines (pv v) (pv' v).

Lemma parseArray_loop_mono n :
  forall m, n <= m ->
            forall output, refines (parseArray_loop tf pv n output)
                                   (parseArray_loop tf' pv' m output).
Proof. fuel_induction n m; refines_auto; auto using advance_mono. Qed.

Lemma parseArray_mono n m output :
  n <= m -> refines (parseArray tf pv n output) (parseArray tf' pv' m output).
Proof.
  intros H. unfold parseArray. refines_auto;
    auto using advance_mono, parseArray_loop_mono.
Qed.

Lemma parseDict_loop_mono n :
  forall m, n <= m ->
            forall output, refines (parseDict_loop tf pv n output)
                                   (parseDict_loop tf' pv' m output).
Proof. fuel_induction n m; refines_auto; auto using advance_mono. Qed.

Lemma parseDict_mono n m output :
  n <= m -> refines (parseDict tf pv n output) (parseDict tf' pv' m output).
Proof.
  intros H. unfold parseDict. refines_auto;
    auto using advance_mono, parseDict_loop_mono.
Qed.
End LoopsMono.

Lemma parseValue_mono n :
  forall m, n <= m ->
            forall output, refines (parseValue tf n output) (parseValue tf' m output).
Proof.
  fuel_induction n m; refines_auto;
    auto using advance_mono, parseDict_mono, parseArray_mono.
Qed.
End ParserMono.

Lemma parse_mono (n m : nat) (output : Value) (chars : list ascii) (length : nat) :
  n <= m ->
  terminated (parse n output chars length) = true ->
  parse m output chars length = parse n output chars length.
Proof.
  intros H. unfold parse.
  apply (@refines_bind _ _ (modify (setText chars length)) (modify (setText chars length))).
  - apply refines_refl.
  - intros _. apply refines_bind; [now apply advance_mono|].
    intros _. now apply parseValue_mono.
Qed.

Lemma terminated_sat {A} (o : Outcome A) (Q : A -> Tokenizer.t -> Prop) :
  sat o Q anyhow never -> terminated o = true.
Proof. destruct o; simpl; intros H; (reflexivity || contradiction). Qed.

(** [Tokenizer::advance] comes to an end from every state. *)
Lemma advance_terminates (fuel : nat) (tz : Tokenizer.t) :
  pending tz + 1 <= fuel -> terminated (advance fuel tz) = true.
Proof. intros H. eapply terminated_sat, advance_spec, H. Qed.

(** C10.  For every buffer, [parse] comes to an end: with fuel
    [fuel_for n = n + 1] or more for a buffer of length [n] the run returns
    or throws, never stopping for lack of fuel, and the outcome is the same
    for every such amount.  The tokenizer loops are bounded by the characters
    ahead ([advance_spec]), the parser loops and the recursion by the weight
    of the state ([parseValue_returns]). *)
Theorem parse_terminates (output : Value) (chars : list ascii) (n fuel : nat) :
  fuel_for n <= fuel ->
  terminated (parse fuel output chars n) = true /\
  parse fuel output chars n = parse (fuel_for n) output chars n.
Proof.
  unfold fuel_for. intros Hfuel.
  assert (H0 : terminated (parse (n + 1) output chars n) = true).
  { eapply terminated_sat, parse_enough_fuel. lia. }
  split.
  - eapply terminated_sat, parse_enough_fuel. exact Hfuel.
  - now apply parse_mono.
Qed.

Lemma parse_terminates_witness :
  fuel_for 8 <= 20 /\
  terminated (parse 20 Value_default (list_ascii_of_string "[1,{a:2}") 8) = true.
Proof.
  assert (H : fuel_for 8 <= 20) by (vm_compute; lia).
  split; [exact H|].
  exact (proj1 (@parse_terminates Value_default (list_ascii_of_string "[1,{a:2}") 8 20 H)).
Defined.

(* ================================================================= *)
(** * The order of the keys of a Dict *)

Lemma ltb_compare a b : String.ltb a b = true <-> String.compare a b = Lt.
Proof. unfold String.ltb. destruct (String.compare a b); split; congruence. Qed.

Lemma ltb_trans a b c : String.ltb a b = true -> String.ltb b c = true -> String.ltb a c = true.
Proof.
  rewrite !ltb_compare. intros H1 H2.
  apply String_as_OT.cmp_lt. apply String_as_OT.cmp_lt in H1, H2.
  eapply String_as_OT.lt_trans; eauto.
Qed.

Lemma ltb_irrefl a : String.ltb a a = false.
Proof.
  unfold String.ltb.
  assert (H : String.compare a a = Eq) by (apply String_as_OT.cmp_eq; reflexivity).
  now rewrite H.
Qed.

Lemma compare_Gt_ltb a b : String.compare a b = Gt -> String.ltb b a = true.
Proof.
  intros H. apply ltb_compare. rewrite String.compare_antisym, H. reflexivity.
Qed.

Lemma increasing_cons k ks : increasing (k :: ks) = above k ks && increasing ks.
Proof. reflexivity. Qed.

Section Insert.
Variable V : Type.
Implicit Types (m : StdMap.t V) (kv : string * V).

Lemma insert_above kv m k :
  String.ltb k (fst kv) = true ->
  above k (StdMap.keys m) = true ->
  above k (StdMap.keys (fst (fst (StdMap.insert kv m)))) = true.
Proof.
  intros Hk Hm. destruct m as [|[k' v'] rest]; simpl; [exact Hk|].
  destruct (String.compare (fst kv) k'); simpl; auto.
  destruct (StdMap.insert kv rest) as [[rest' it] ok]. simpl. exact Hm.
Qed.

(** [insert] keeps the keys increasing. *)
Lemma insert_increasing kv m :
  increasing (StdMap.keys m) = true ->
  increasing (StdMap.keys (fst (fst (StdMap.insert kv m)))) = true.
Proof.
  induction m as [|[k' v'] rest IH]; intros Hm; [reflexivity|].
  simpl. destruct (String.compare (fst kv) k') eqn:Hcmp.
  - exact Hm.
  - change (increasing (fst kv :: StdMap.keys ((k', v') :: rest)) = true).
    rewrite increasing_cons. apply andb_true_intro. split; [|exact Hm].
    simpl. now apply ltb_compare.
  - change (increasing (k' :: StdMap.keys rest) = true) in Hm.
    rewrite increasing_cons in Hm. apply andb_prop in Hm. destruct Hm as [Hab Hinc].
    pose proof (insert_above kv rest k' (compare_Gt_ltb _ _ Hcmp) Hab) as Hab'.
    specialize (IH Hinc).
    destruct (StdMap.insert kv rest) as [[rest' it] ok]. simpl in *.
    change (increasing (k' :: StdMap.keys rest') = true).
    rewrite increasing_cons. now rewrite Hab', IH.
Qed.

(** [insert] adds at most the new entry: a property of all values is kept. *)
Lemma insert_forallb (P : string * V -> bool) kv m :
  P kv = true -> forallb P m = true ->
  forallb P (fst (fst (StdMap.insert kv m))) = true.
Proof.
  intros Hkv. induction m as [|[k' v'] rest IH]; intros Hm; simpl.
  - now rewrite Hkv.
  - destruct (String.compare (fst kv) k'); simpl.
    + exact Hm.
    + now rewrite Hkv.
    + simpl in Hm. apply andb_prop in Hm. destruct Hm as [H1 H2].
      specialize (IH H2).
      destruct (StdMap.insert kv rest) as [[rest' it] ok]. simpl in *.
      now rewrite H1, IH.
Qed.

(** A key that is present is not inserted again: the container is
    unchanged, the iterator points to the entry that was there, and the
    flag is [false]. *)
Lemma insert_present kv m :
  increasing (StdMap.keys m) = true ->
  In (fst kv) (StdMap.keys m) ->
  exists v0, In (fst kv, v0) m /\ StdMap.insert kv m = (m, (fst kv, v0), false).
Proof.
  induction m as [|[k' v'] rest IH]; intros Hinc Hin; [contradiction|].
  change (increasing (k' :: StdMap.keys rest) = true) in Hinc.
  rewrite increasing_cons in Hinc. apply andb_prop in Hinc. destruct Hinc as [Hab Hinc].
  simpl. destruct (String.compare (fst kv) k') eqn:Hcmp.
  - apply String.compare_eq_iff in Hcmp. subst k'.
    exists v'. split; [now left|reflexivity].
  - exfalso. destruct Hin as [Heq|Hin].
    + simpl in Heq. subst k'. apply ltb_compare in Hcmp.
      rewrite ltb_irrefl in Hcmp. discriminate.
    + (* every key of [rest] is above [k'], hence above [fst kv] *)
      apply ltb_compare in Hcmp.
      clear IH. revert Hab Hinc Hin. generalize k' Hcmp. clear.
      induction rest as [|[k2 v2] rest IH]; intros k1 Hlt Hab Hinc Hin; [contradiction|].
      simpl in Hab. change (increasing (k2 :: StdMap.keys rest) = true) in Hinc.
      rewrite increasing_cons in Hinc. apply andb_prop in Hinc. destruct Hinc as [Hab2 Hinc].
      pose proof (ltb_trans _ _ _ Hlt Hab) as Hlt2.
      destruct Hin as [Heq|Hin].
      * simpl in Heq. subst k2. rewrite ltb_irrefl in Hlt2. discriminate.
      * eapply IH; eauto.
  - destruct Hin as [Heq|Hin].
    + simpl in Heq. subst k'.
      assert (H : String.compare (fst kv) (fst kv) = Eq)
        by (apply String_as_OT.cmp_eq; reflexivity).
      congruence.
    + destruct (IH Hinc Hin) as (v0 & Hv0 & Hins). rewrite Hins.
      exists v0. split; [now right|reflexivity].
Qed.
End Insert.

(** Increasing keys are pairwise different. *)
Lemma increasing_above_all k ks :
  above k ks = true -> increasing ks = true -> Forall (fun k' => String.ltb k k' = true) ks.
Proof.
  revert k. induction ks as [|k1 ks IH]; intros k Hab Hinc; constructor.
  - exact Hab.
  - rewrite increasing_cons in Hinc. apply andb_prop in Hinc. destruct Hinc as [Hab1 Hinc].
    destruct ks as [|k2 ks]; [constructor|].
    apply IH; [|exact Hinc]. simpl in *. eapply ltb_trans; eauto.
Qed.

Lemma increasing_NoDup ks : increasing ks = true -> NoDup ks.
Proof.
  induction ks as [|k ks IH]; intros Hinc; constructor.
  - rewrite increasing_cons in Hinc. apply andb_prop in Hinc. destruct Hinc as [Hab Hinc].
    intros Hin. pose proof (increasing_above_all _ _ Hab Hinc) as Hall.
    rewrite Forall_forall in Hall. specialize (Hall _ Hin).
    rewrite ltb_irrefl in Hall. discriminate.
  - apply IH. rewrite increasing_cons in Hinc. apply andb_prop in Hinc. tauto.
Qed.

Lemma yields_ret {A} (P : A -> Prop) (x : A) : P x -> yields P (ret x).
Proof. intros H tz; exact H. Qed.

Lemma yields_throw {A} (P : A -> Prop) errorID span info : yields P (throw errorID span info).
Proof. intros tz; exact I. Qed.

Lemma yields_out_of_fuel {A} (P : A -> Prop) : yields P out_of_fuel.
Proof. intros tz; exact I. Qed.

Lemma yields_bind {A B} (P : A -> Prop) (Q : B -> Prop) (m : M A) (k : A -> M B) :
  yields P m -> (forall x, P x -> yields Q (k x)) -> yields Q (bind m k).
Proof.
  intros Hm Hk tz. eapply sat_bind; [apply Hm|].
  intros x tz1 Hx. now apply Hk.
Qed.

Lemma yields_seq {A B} (Q : B -> Prop) (m : M A) (k : A -> M B) :
  (forall x, yields Q (k x)) -> yields Q (bind m k).
Proof.
  intros Hk tz. unfold bind. destruct (m tz); simpl; try exact I. apply Hk.
Qed.

Lemma move_ctor_ordered v : dicts_ordered v = true -> dicts_ordered (fst (move_ctor v)) = true.
Proof.
  destruct v as [t d]. destruct t, d; simpl; auto.
Qed.

Section ParserOrdered.
Variable tfuel : nat.

Section LoopsOrdered.
Variable pv : Value -> M (bool * Value).
Hypothesis pv_ordered : forall v, dicts_ordered v = true -> yields value_ordered (pv v).

Lemma parseArray_loop_ordered n :
  forall output, forallb dicts_ordered output = true ->
                 yields (fun a => forallb dicts_ordered a = true)
                        (parseArray_loop tfuel pv n output).
Proof.
  induction n; intros output Hout; simpl; [apply yields_out_of_fuel|].
  eapply yields_bind; [apply pv_ordered; reflexivity|].
  intros [ok value] Hv. apply yields_seq. intros tok.
  assert (Hout' : forallb dicts_ordered (output ++ [fst (move_ctor value)]) = true).
  { rewrite forallb_app, Hout. simpl. now rewrite move_ctor_ordered. }
  destruct (negb ok); [apply yields_throw|].
  destruct (negb _).
  - destruct (Token.is_punctuaction _ _); [now apply yields_ret|apply yields_throw].
  - apply yields_seq. intros _. now apply IHn.
Qed.

Lemma parseArray_ordered n output :
  forallb dicts_ordered output = true ->
  yields (fun a => forallb dicts_ordered a = true) (parseArray tfuel pv n output).
Proof.
  intros Hout. unfold parseArray. apply yields_seq. intros _.
  eapply yields_bind; [now apply parseArray_loop_ordered|].
  intros output' Hout'. apply yields_seq. intros tok.
  destruct (negb _); [apply yields_throw|].
  apply yields_seq. intros _. now apply yields_ret.
Qed.

Lemma parseDict_loop_ordered n :
  forall output, entries_ordered output = true ->
                 yields (fun m => entries_ordered m = true)
                        (parseDict_loop tfuel pv n output).
Proof.
  induction n; intros output Hout; simpl; [apply yields_out_of_fuel|].
  apply yields_seq. intros tok.
  destruct (Token.content tok); try now apply yields_ret.
  apply yields_seq. intros _. apply yields_seq. intros _. apply yields_seq. intros tok1.
  destruct (negb _); [apply yields_throw|].
  apply yields_seq. intros _.
  eapply yields_bind; [apply pv_ordered; reflexivity|].
  intros [ok value] Hv. apply yields_seq. intros tok2.
  destruct (negb ok); [apply yields_throw|].
  assert (Hout' : entries_ordered
                    (fst (fst (StdMap.insert (identifier, fst (move_ctor value)) output)))
                  = true).
  { unfold entries_ordered in *. apply andb_prop in Hout. destruct Hout as [Hk Hv'].
    apply andb_true_intro. split.
    - now apply insert_increasing.
    - apply insert_forallb; [|exact Hv']. simpl. now apply move_ctor_ordered. }
  destruct (StdMap.insert _ _) as [[output' it] inserted]. simpl in Hout'.
  destruct (negb inserted); [apply yields_throw|].
  destruct (negb _).
  - destruct (Token.is_punctuaction _ _); [now apply yields_ret|apply yields_throw].
  - apply yields_seq. intros _. now apply IHn.
Qed.

Lemma parseDict_ordered n output :
  entries_ordered output = true ->
  yields (fun m => entries_ordered m = true) (parseDict tfuel pv n output).
Proof.
  intros Hout. unfold parseDict. apply yields_seq. intros _.
  eapply yields_bind; [now apply parseDict_loop_ordered|].
  intros output' Hout'. apply yields_seq. intros tok.
  destruct (negb _); [apply yields_throw|].
  apply yields_seq. intros _. now apply yields_ret.
Qed.
End LoopsOrdered.

Lemma parseValue_ordered fuel :
  forall output, dicts_ordered output = true ->
                 yields value_ordered (parseValue tfuel fuel output).
Proof.
  induction fuel; intros output Hout; simpl; [apply yields_out_of_fuel|].
  apply yields_seq. intros tok.
  destruct (Token.content tok).
  - now apply yields_ret.
  - apply yields_seq. intros _. now apply yields_ret.
  - apply yields_seq. intros _. now apply yields_ret.
  - repeat match goal with
           | |- yields _ (if ?b then _ else _) => destruct b
           end;
      try (apply yields_seq; intros _); now apply yields_ret.
  - apply yields_seq. intros _. apply yields_seq. intros _. now apply yields_ret.
  - destruct (Punctuaction.eqb _ _).
    + eapply yields_bind; [apply (@parseDict_ordered _ IHfuel); reflexivity|].
      intros dict Hd. apply yields_ret. exact Hd.
    + destruct (Punctuaction.eqb _ _); [|now apply yields_ret].
      eapply yields_bind; [apply (@parseArray_ordered _ IHfuel); reflexivity|].
      intros array Ha. apply yields_ret. exact Ha.
Qed.
End ParserOrdered.

(** C7.  In every value that [parse] returns, every Dict, at any depth, has
    its keys in increasing lexicographic order, whatever the order in the
    text; so the keys of a Dict are pairwise different.  [parse("{}")] is the
    empty Dict and [parse("{b:2,a:1}")] lists key [a] before key [b]. *)
Theorem parse_dict_keys_sorted
  (fuel : nat) (chars : list ascii) (n : nat) (ok : bool) (v : Value) (tz : Tokenizer.t) :
  parse fuel Value_default chars n = Ok (ok, v) tz ->
  dicts_ordered v = true /\
  (forall m, data v = data_dict m ->
             increasing (StdMap.keys m) = true /\ NoDup (StdMap.keys m)) /\
  result (run "{}") = Some (true, Value_Dict []) /\
  result (run "{b:2,a:1}")
  = Some (true, Value_Dict [("a"%string, Value_intptr 1); ("b"%string, Value_intptr 2)]).
Proof.
  intros Hparse.
  assert (Hv : dicts_ordered v = true).
  { unfold parse in Hparse.
    assert (H : yields value_ordered
                       (modify (setText chars n);; advance fuel;;
                        parseValue fuel fuel Value_default)).
    { apply yields_seq. intros _. apply yields_seq. intros _.
      now apply parseValue_ordered. }
    specialize (H Tokenizer.init). rewrite Hparse in H. exact H. }
  split; [exact Hv|]. split; [|split; vm_compute; reflexivity].
  intros m Hm. destruct v as [t d]. simpl in Hm. subst d. simpl in Hv.
  apply andb_prop in Hv. destruct Hv as [Hk _].
  split; [exact Hk|]. now apply increasing_NoDup.
Qed.

Lemma parse_dict_keys_sorted_witness :
  parse 23 Value_default nested_dicts 22
  = Ok (true, nested_dicts_value) (final (parse 23 Value_default nested_dicts 22)) /\
  dicts_ordered nested_dicts_value = true /\
  NoDup (StdMap.keys [("a"%string, Value_intptr 1); ("b"%string, Value_intptr 2)]).
Proof.
  assert (Hrun : parse 23 Value_default nested_dicts 22
                 = Ok (true, nested_dicts_value)
                      (final (parse 23 Value_default nested_dicts 22)))
    by (vm_compute; reflexivity).
  assert (Hab : parse 10 Value_default (list_ascii_of_string "{b:2,a:1}") 9
                = Ok (true, Value_Dict [("a"%string, Value_intptr 1);
                                        ("b"%string, Value_intptr 2)])
                     (final (parse 10 Value_default (list_ascii_of_string "{b:2,a:1}") 9)))
    by (vm_compute; reflexivity).
  split; [exact Hrun|]. split.
  - exact (proj1 (parse_dict_keys_sorted _ _ _ Hrun)).
  - exact (proj2 (proj1 (proj2 (parse_dict_keys_sorted _ _ _ Hab)) _ eq_refl)).
Defined.

(* ================================================================= *)
(** * Integer literals *)

(** ** The digit loop and the reference accumulation *)

Lemma is_digit_of_isDigit (r : Radix) (chr : ascii) :
  is_digit_of (radix_base r) chr = isDigit chr (radix_base r).
Proof.
  destruct r; destruct chr as [[] [] [] [] [] [] [] []]; vm_compute; reflexivity.
Qed.

Lemma charToDigit_digit_value (r : Radix) (chr : ascii) :
  isDigit chr (radix_base r) = true ->
  charToDigit chr (radix_base r) = digit_value chr /\
  (0 <= digit_value chr < radix_base r)%Z.
Proof.
  destruct r; destruct chr as [[] [] [] [] [] [] [] []]; vm_compute;
    intros H; try discriminate; repeat split; congruence.
Qed.

Lemma uadd_umul (value base digit : Z) :
  uadd (umul value base) digit = ((value * base + digit) mod 2 ^ 64)%Z.
Proof.
  unfold uadd, umul, to_uintptr, ptr_modulus, ptr_bits.
  assert (HM : (2 ^ 64 <> 0)%Z) by (vm_compute; discriminate).
  generalize dependent (2 ^ 64)%Z. intros M HM.
  rewrite Z.add_mod_idemp_l, Z.add_mod_idemp_r by exact HM.
  rewrite <- Z.add_mod_idemp_l by exact HM.
  rewrite Z.mul_mod_idemp_r by exact HM.
  rewrite Z.add_mod_idemp_l by exact HM. reflexivity.
Qed.

Lemma accumulated_horner (r : Radix) (digits : list ascii) :
  forallb (fun chr => isDigit chr (radix_base r)) digits = true ->
  forall value, accumulated (radix_base r) digits value = horner (radix_base r) value digits.
Proof.
  induction digits as [|d rest IH]; intros Hd value; [reflexivity|].
  simpl in Hd. apply andb_prop in Hd. destruct Hd as [Hd Hrest].
  unfold accumulated in *. simpl.
  rewrite IH by exact Hrest. rewrite uadd_umul.
  destruct (charToDigit_digit_value r d Hd) as [-> _]. reflexivity.
Qed.

Lemma uneg_twos_complement (value : Z) : uneg value = twos_complement_negation value.
Proof.
  unfold uneg, twos_complement_negation, to_uintptr, ptr_modulus, ptr_bits.
  f_equal. unfold Z.lnot. lia.
Qed.

(** ** Running the tokenizer over a literal *)

Lemma returns_bind {A B} (m : M A) (k : A -> M B) tz x y
      (P Q : Tokenizer.t -> Prop) :
  returns m tz x P ->
  (forall tz1, P tz1 -> returns (k x) tz1 y Q) ->
  returns (bind m k) tz y Q.
Proof.
  intros Hm Hk. eapply sat_bind; [exact Hm|].
  intros x' tz1 [-> H1]. now apply Hk.
Qed.

Lemma returns_ret {A} (x : A) tz (P : Tokenizer.t -> Prop) : P tz -> returns (ret x) tz x P.
Proof. intros H. split; [reflexivity|exact H]. Qed.

Lemma returns_get {A B} (f : Tokenizer.t -> A) (k : A -> M B) tz y (Q : Tokenizer.t -> Prop) :
  returns (k (f tz)) tz y Q -> returns (bind (get f) k) tz y Q.
Proof. intros H; exact H. Qed.

Lemma returns_weaken {A} (m : M A) tz x (P Q : Tokenizer.t -> Prop) :
  returns m tz x P -> (forall tz', P tz' -> Q tz') -> returns m tz x Q.
Proof.
  unfold returns. intros H HPQ. eapply sat_weaken; [exact H| |auto|auto].
  intros y tz' [-> HP]. auto.
Qed.

Lemma advanceChar_cursor tz pre c rest :
  cursor tz pre (c :: rest) ->
  returns advanceChar tz (match rest with [] => false | _ => true end)
          (fun tz' => cursor tz' (pre ++ [c]) rest /\ m_token tz' = m_token tz).
Proof.
  intros (Hchars & Hlen & Hidx & Hchr). unfold returns, advanceChar.
  rewrite List.length_app in Hlen. simpl in Hlen.
  destruct rest as [|c' rest'].
  - simpl in Hlen.
    assert (E : (m_length tz <=? m_index tz + 1) = true) by (apply Nat.leb_le; lia).
    rewrite E. simpl. unfold cursor. simpl. repeat split. lia.
  - simpl in Hlen.
    assert (E : (m_length tz <=? m_index tz + 1) = false) by (apply Nat.leb_gt; lia).
    rewrite E. unfold deref.
    assert (Hnth : nth (m_index tz + 1) (m_chars tz) NUL = c').
    { rewrite Hchars, Hidx.
      change (pre ++ c :: c' :: rest') with (pre ++ [c] ++ c' :: rest').
      rewrite app_assoc, app_nth2; rewrite List.length_app; simpl; [|lia].
      replace (List.length pre + 1 - (List.length pre + 1)) with 0 by lia. reflexivity. }
    rewrite Hnth.
    assert (Hchars' : m_chars tz = (pre ++ [c]) ++ c' :: rest')
      by (rewrite Hchars, <- app_assoc; reflexivity).
    destruct (Ascii.eqb c' LF); simpl; unfold cursor; simpl;
      rewrite !List.length_app; simpl; repeat split; auto; try lia;
      rewrite List.length_app; simpl; lia.
Qed.

Lemma cursor_with_content c tz pre rest :
  cursor tz pre rest -> cursor (with_content c tz) pre rest.
Proof. destruct rest; intros H; exact H. Qed.

(** The digit loop on a run of digits that ends the buffer. *)
Lemma readNumber_digits_run base :
  forall digits fuel value tz pre c,
    cursor tz pre (c :: digits) ->
    forallb (fun chr => isDigit chr base) digits = true ->
    List.length digits < fuel ->
    returns (readNumber_digits fuel base value) tz (accumulated base digits value)
            (fun tz' => cursor tz' (pre ++ c :: digits) [] /\ m_token tz' = m_token tz).
Proof.
  induction digits as [|d rest IH]; intros fuel value tz pre c Hcur Hd Hfuel;
    (destruct fuel as [|fuel]; [simpl in Hfuel; lia|]); simpl.
  - eapply returns_bind; [apply advanceChar_cursor; exact Hcur|].
    intros tz1 [Hcur1 Htok1]. apply returns_get. simpl.
    apply returns_ret. split; assumption.
  - simpl in Hd. apply andb_prop in Hd. destruct Hd as [Hd Hrest].
    eapply returns_bind; [apply advanceChar_cursor; exact Hcur|].
    intros tz1 [Hcur1 Htok1]. apply returns_get.
    assert (Hchr : m_char tz1 = d) by apply Hcur1.
    rewrite Hchr, Hd. simpl.
    eapply returns_weaken; [apply IH; [exact Hcur1|exact Hrest|simpl in Hfuel; lia]|].
    intros tz2 [Hcur2 Htok2]. rewrite <- app_assoc in Hcur2. split; [exact Hcur2|congruence].
Qed.

(** Replace a test on closed characters by its value. *)
Ltac reduce_test e :=
  let v := eval vm_compute in e in
  first [constr_eq v true | constr_eq v false];
  change e with v.

Ltac reduce_tests :=
  repeat match goal with
         | |- context [Ascii.eqb ?a ?b] => reduce_test (Ascii.eqb a b)
         | |- context [isDigit ?c ?b] => reduce_test (isDigit c b)
         | |- context [isAlnum ?c] => reduce_test (isAlnum c)
         | |- context [isAlpha ?c] => reduce_test (isAlpha c)
         end;
  cbn [negb andb orb].

(** One [advanceChar] with the cursor known. *)
Ltac advance_cursor H :=
  eapply returns_bind; [apply advanceChar_cursor; exact H|];
  let tz' := fresh "tz" in
  let Hcur := fresh "Hcur" in
  let Htok := fresh "Htok" in
  intros tz' [Hcur Htok].

Ltac advance_cursor_sat H :=
  eapply sat_bind; [apply advanceChar_cursor; exact H|];
  let ok := fresh "ok" in
  let tz' := fresh "tz" in
  let Hcur := fresh "Hcur" in
  let Htok := fresh "Htok" in
  intros ok tz' [-> [Hcur Htok]].

Lemma cursor_char tz pre c rest : cursor tz pre (c :: rest) -> m_char tz = c.
Proof. intros H; apply H. Qed.

Lemma cursor_end_char tz pre : cursor tz pre [] -> m_char tz = NUL.
Proof. intros H; apply H. Qed.

(** A decimal digit is neither a sign, nor a letter, nor blank. *)
Lemma decimal_digit_facts (c : ascii) :
  isDigit c 10 = true ->
  Ascii.eqb c "-" = false /\ Ascii.eqb c "+" = false /\ isAlpha c = false /\
  Ascii.eqb c " " = false /\ Ascii.eqb c TAB = false /\ Ascii.eqb c LF = false /\
  Ascii.eqb c "#" = false /\ isAlnum c = true.
Proof.
  destruct c as [[] [] [] [] [] [] [] []]; vm_compute; intros H;
    try discriminate; repeat split.
Qed.

Lemma digit_is_alnum (r : Radix) (c : ascii) :
  isDigit c (radix_base r) = true -> Ascii.eqb c NUL = false.
Proof.
  destruct r; destruct c as [[] [] [] [] [] [] [] []]; vm_compute; intros H;
    try discriminate; reflexivity.
Qed.

Lemma readNumber_sign_run (s : Sign) tz pre c rest :
  cursor tz pre (sign_chars s ++ c :: rest) ->
  isDigit c 10 = true ->
  returns readNumber_sign tz (match s with Minus => true | _ => false end)
          (fun tz' => cursor tz' (pre ++ sign_chars s) (c :: rest)
                      /\ m_token tz' = m_token tz).
Proof.
  intros Hcur Hc. unfold readNumber_sign. apply returns_get.
  destruct s; simpl in Hcur.
  - rewrite (cursor_char Hcur), Hc. simpl. rewrite app_nil_r.
    apply returns_ret. split; [exact Hcur|reflexivity].
  - rewrite (cursor_char Hcur). reduce_tests.
    advance_cursor Hcur. apply returns_ret. split; assumption.
  - rewrite (cursor_char Hcur). reduce_tests.
    advance_cursor Hcur. apply returns_ret. split; assumption.
Qed.

Lemma accumulated_leading_zero (digits : list ascii) (c : ascii) :
  accumulated 10 digits (to_uintptr (charToDigit c 10))
  = accumulated 10 (c :: digits) (to_uintptr (charToDigit "0" 10)).
Proof.
  unfold accumulated. simpl. f_equal.
  rewrite uadd_umul. unfold to_uintptr, ptr_modulus, ptr_bits.
  change (charToDigit "0" 10) with 0%Z. rewrite Z.mod_0_l by (vm_compute; discriminate).
  reflexivity.
Qed.

(** The prefix step on the radix marker and the first digit. *)
Lemma readNumber_prefix_run (r : Radix) tz pre d digits :
  cursor tz pre (radix_chars r ++ d :: digits) ->
  forallb (fun chr => isDigit chr (radix_base r)) (d :: digits) = true ->
  sat (readNumber_prefix tz)
      (fun prefix tz' =>
         match prefix with
         | None =>
             accumulated (radix_base r) digits (to_uintptr (charToDigit d (radix_base r))) = 0%Z
             /\ Token.content (m_token tz') = tok_Int 0
             /\ m_char tz' = NUL
         | Some base =>
             base = radix_base r /\
             m_token tz' = m_token tz /\
             exists pre' c' digits',
               cursor tz' pre' (c' :: digits') /\
               List.length digits' <= List.length digits /\
               forallb (fun chr => isDigit chr base) digits' = true /\
               accumulated base digits' (to_uintptr (charToDigit c' base))
               = accumulated base digits (to_uintptr (charToDigit d base))
         end)
      never never.
Proof.
  intros Hcur Hd. simpl in Hd. apply andb_prop in Hd. destruct Hd as [Hd Hds].
  unfold readNumber_prefix. apply sat_get.
  destruct r as [|upper|upper]; simpl in Hcur, Hd, Hds |- *.
  - (* decimal *)
    rewrite (cursor_char Hcur).
    destruct (Ascii.eqb d "0") eqn:Hzero.
    + apply Ascii.eqb_eq in Hzero. subst d.
      advance_cursor_sat Hcur. apply sat_get.
      destruct digits as [|d2 digits'].
      * rewrite (cursor_end_char Hcur0). reduce_tests.
        apply sat_set_content. simpl. repeat split.
        apply (cursor_end_char Hcur0).
      * simpl in Hds. apply andb_prop in Hds. destruct Hds as [Hd2 Hds].
        rewrite (cursor_char Hcur0), Hd2. simpl.
        repeat split; [exact Htok|].
        exists (pre ++ ["0"%char]), d2, digits'.
        split; [exact Hcur0|]. split; [simpl; lia|]. split; [exact Hds|].
        apply accumulated_leading_zero.
    + simpl. repeat split.
      exists pre, d, digits. split; [exact Hcur|]. split; [lia|].
      split; [exact Hds|reflexivity].
  - (* binary *)
    rewrite (cursor_char Hcur). reduce_tests.
    advance_cursor_sat Hcur. apply sat_get. rewrite (cursor_char Hcur0).
    destruct upper; reduce_tests;
      (advance_cursor_sat Hcur0; apply sat_get; rewrite (cursor_char Hcur1), Hd; simpl;
       repeat split; [congruence|];
       eexists; exists d, digits;
       split; [exact Hcur1|]; split; [lia|]; split; [exact Hds|reflexivity]).
  - (* hexadecimal *)
    rewrite (cursor_char Hcur). reduce_tests.
    advance_cursor_sat Hcur. apply sat_get. rewrite (cursor_char Hcur0).
    destruct upper; reduce_tests;
      (advance_cursor_sat Hcur0; apply sat_get; rewrite (cursor_char Hcur1), Hd; simpl;
       repeat split; [congruence|];
       eexists; exists d, digits;
       split; [exact Hcur1|]; split; [lia|]; split; [exact Hds|reflexivity]).
Qed.

Lemma literal_first_char (s : Sign) (r : Radix) (d : ascii) (digits : list ascii) :
  isDigit d (radix_base r) = true ->
  exists c rest,
    literal_text s r (d :: digits) = c :: rest /\
    (isDigit c 10 || Ascii.eqb c "-" || Ascii.eqb c "+") = true /\
    (Ascii.eqb c " " || Ascii.eqb c TAB || Ascii.eqb c LF) = false /\
    Ascii.eqb c "#" = false /\
    isAlpha c = false.
Proof.
  intros Hd. unfold literal_text.
  destruct s; simpl;
    try solve [eexists; eexists; split; [reflexivity|]; vm_compute; repeat split].
  destruct r as [|upper|upper]; simpl;
    try solve [eexists; eexists; split; [reflexivity|]; vm_compute; repeat split].
  simpl in Hd.
  destruct (decimal_digit_facts d Hd) as (H1 & H2 & H3 & H4 & H5 & H6 & H7 & _).
  exists d, digits. rewrite Hd, H3, H4, H5, H6, H7. repeat split.
Qed.

Lemma radix_first_char (r : Radix) (d : ascii) (digits : list ascii) :
  isDigit d (radix_base r) = true ->
  exists c rest, radix_chars r ++ d :: digits = c :: rest /\ isDigit c 10 = true.
Proof.
  intros Hd. destruct r as [|upper|upper]; simpl.
  - exists d, digits. split; [reflexivity|exact Hd].
  - eexists; eexists; split; reflexivity.
  - eexists; eexists; split; reflexivity.
Qed.

Lemma readNumber_literal (s : Sign) (r : Radix) (d : ascii) (digits : list ascii)
      (fuel : nat) (tz : Tokenizer.t) (pre : list ascii) :
  cursor tz pre (literal_text s r (d :: digits)) ->
  forallb (fun chr => isDigit chr (radix_base r)) (d :: digits) = true ->
  List.length digits < fuel ->
  returns (readNumber fuel) tz true
          (fun tz' => Token.content (m_token tz') = tok_Int (lexed_value s r d digits)
                      /\ m_char tz' = NUL).
Proof.
  intros Hcur Hall Hfuel.
  assert (Hd : isDigit d (radix_base r) = true)
    by (simpl in Hall; apply andb_prop in Hall; tauto).
  destruct (literal_first_char s r d digits Hd) as (c & rest & Htext & Hstart & _).
  unfold returns, readNumber. apply sat_get.
  assert (Hc : m_char tz = c) by (rewrite Htext in Hcur; exact (cursor_char Hcur)).
  rewrite Hc.
  replace (negb (isDigit c 10) && negb (Ascii.eqb c "-") && negb (Ascii.eqb c "+"))
    with false
    by (destruct (isDigit c 10), (Ascii.eqb c "-"), (Ascii.eqb c "+");
        simpl in *; congruence).
  destruct (radix_first_char r d digits Hd) as (c1 & rest1 & Hradix & Hc1).
  unfold literal_text in Hcur. rewrite Hradix in Hcur.
  eapply sat_bind; [apply (@readNumber_sign_run s tz pre c1 rest1 Hcur Hc1)|].
  intros isNeg tz1 [-> [Hcur1 Htok1]]. rewrite <- Hradix in Hcur1.
  eapply sat_bind; [apply (@readNumber_prefix_run r tz1 _ d digits Hcur1 Hall)|].
  intros [base|] tz2 Hpost.
  - destruct Hpost as (-> & Htok2 & pre' & c' & digits' & Hcur2 & Hlen & Hdigits' & Hacc).
    apply sat_get. rewrite (cursor_char Hcur2).
    eapply sat_bind;
      [eapply readNumber_digits_run; [exact Hcur2|exact Hdigits'|lia]|].
    intros value tz3 [-> [Hcur3 Htok3]].
    apply sat_get. rewrite (cursor_end_char Hcur3). reduce_tests.
    apply sat_set_content. simpl. split; [reflexivity|].
    split; [|apply (cursor_end_char Hcur3)].
    unfold lexed_value. rewrite Hacc. destruct s; reflexivity.
  - destruct Hpost as (Hzero & Hcontent & Hnul). simpl.
    split; [reflexivity|]. split; [|exact Hnul].
    rewrite Hcontent. unfold lexed_value. rewrite Hzero. destruct s; reflexivity.
Qed.

Lemma sat_bind_eq {A B} (m : M A) (k : A -> M B) tz x tz1
      (Q : B -> Tokenizer.t -> Prop) (E F : Tokenizer.t -> Prop) :
  m tz = Ok x tz1 -> sat (k x tz1) Q E F -> sat (bind m k tz) Q E F.
Proof. intros Hm Hk. unfold bind. now rewrite Hm. Qed.

Lemma skipWhitespace_stop fuel tz :
  (Ascii.eqb (m_char tz) " " || Ascii.eqb (m_char tz) TAB || Ascii.eqb (m_char tz) LF) = false ->
  skipWhitespace (S fuel) tz = Ok tt tz.
Proof. intros H. simpl. unfold bind, get. now rewrite H. Qed.

Lemma skipComments_stop fuel n tz :
  Ascii.eqb (m_char tz) "#" = false -> skipComments fuel (S n) tz = Ok tt tz.
Proof. intros H. simpl. unfold bind, get. now rewrite H. Qed.

Lemma readIdentifier_no fuel tz :
  isAlpha (m_char tz) = false -> readIdentifier fuel tz = Ok false tz.
Proof. intros H. unfold readIdentifier, bind, get. now rewrite H. Qed.

Lemma cursor_with_token tok tz pre rest :
  cursor tz pre rest -> cursor (with_token tok tz) pre rest.
Proof. destruct rest; intros H; exact H. Qed.

(** [advance] on a literal that ends the buffer lexes the whole of it. *)
Lemma advance_literal (s : Sign) (r : Radix) (d : ascii) (digits : list ascii)
      (fuel : nat) (tz : Tokenizer.t) (pre : list ascii) :
  cursor tz pre (literal_text s r (d :: digits)) ->
  forallb (fun chr => isDigit chr (radix_base r)) (d :: digits) = true ->
  List.length digits < fuel ->
  returns (advance fuel) tz true
          (fun tz' => Token.content (m_token tz') = tok_Int (lexed_value s r d digits)
                      /\ m_char tz' = NUL).
Proof.
  intros Hcur Hall Hfuel.
  assert (Hd : isDigit d (radix_base r) = true)
    by (simpl in Hall; apply andb_prop in Hall; tauto).
  destruct (literal_first_char s r d digits Hd)
    as (c & rest & Htext & _ & Hws & Hhash & Halpha).
  assert (Hc : m_char tz = c) by (rewrite Htext in Hcur; exact (cursor_char Hcur)).
  destruct fuel as [|fuel]; [lia|].
  unfold returns, advance.
  eapply sat_bind_eq; [apply skipWhitespace_stop; now rewrite Hc|].
  eapply sat_bind_eq; [apply skipComments_stop; now rewrite Hc|].
  unfold bind at 1, modify. unfold bind at 1.
  set (tz1 := span_begin _).
  assert (Hcur1 : cursor tz1 pre (literal_text s r (d :: digits)))
    by (unfold tz1, span_begin; now repeat apply cursor_with_token).
  assert (Hc1 : m_char tz1 = c) by exact Hc.
  clearbody tz1.
  unfold READ_METHODS, first_success.
  apply sat_bind
    with (Q1 := fun _ tz' =>
                  Token.content (m_token tz') = tok_Int (lexed_value s r d digits)
                  /\ m_char tz' = NUL).
  - eapply sat_bind_eq; [apply readIdentifier_no; now rewrite Hc1|].
    eapply sat_bind; [apply (@readNumber_literal s r d digits _ _ _ Hcur1 Hall Hfuel)|].
    intros done tz2 [-> H2]. exact H2.
  - intros x tz2 [Hcontent Hnul]. simpl.
    unfold Token.kind. simpl. rewrite Hcontent. repeat split; assumption.
Qed.

(** At the end of the buffer [advance] produces [Eof]. *)
Lemma advance_at_end (fuel : nat) (tz : Tokenizer.t) :
  m_char tz = NUL -> exists tz', advance (S fuel) tz = Ok false tz'.
Proof.
  intros H. destruct tz as [chars len idx line col chr tok rs]. simpl in H. subst chr.
  eexists. reflexivity.
Qed.

Lemma lexed_value_literal (s : Sign) (r : Radix) (d : ascii) (digits : list ascii) :
  forallb (fun chr => isDigit chr (radix_base r)) (d :: digits) = true ->
  to_intptr (lexed_value s r d digits) = literal_value s r (d :: digits).
Proof.
  intros Hall. simpl in Hall. apply andb_prop in Hall. destruct Hall as [Hd Hds].
  unfold lexed_value, literal_value.
  rewrite (accumulated_horner r digits Hds).
  destruct (charToDigit_digit_value r d Hd) as [-> _].
  assert (E : horner (radix_base r) (to_uintptr (digit_value d)) digits
              = horner (radix_base r) 0 (d :: digits)) by reflexivity.
  rewrite E. destruct s; try reflexivity. now rewrite uneg_twos_complement.
Qed.

Lemma setText_cursor (c : ascii) (rest : list ascii) :
  cursor (setText (c :: rest) (List.length (c :: rest)) Tokenizer.init) [] (c :: rest).
Proof. unfold cursor, setText. simpl. repeat split. Qed.

(** C6.  Let a literal consist of an optional sign, an optional radix marker
    ([0b], [0B], [0x], [0X]) and one or more digits of the base (10 without a
    marker, 2 and 16 with one).  Then [parse] returns the [Int] whose value is
    the magnitude accumulated by [value = value * base + digit] on 64-bit
    unsigned integers, negated in two's complement under a leading minus and
    read as [intptr_t].  In particular the five literals of the specification
    give 123, -123, 31, 5 and 0. *)
Theorem parse_integer_literal
  (s : Sign) (r : Radix) (d : ascii) (digits : list ascii) (fuel : nat) :
  forallb (is_digit_of (radix_base r)) (d :: digits) = true ->
  fuel_for (List.length (literal_text s r (d :: digits))) <= fuel ->
  result (parse fuel Value_default (literal_text s r (d :: digits))
                (List.length (literal_text s r (d :: digits))))
  = Some (true, Value_intptr (literal_value s r (d :: digits))) /\
  result (run "123") = Some (true, Value_intptr 123) /\
  result (run "-123") = Some (true, Value_intptr (-123)) /\
  result (run "0x1F") = Some (true, Value_intptr 31) /\
  result (run "0b101") = Some (true, Value_intptr 5) /\
  result (run "0") = Some (true, Value_intptr 0).
Proof.
  intros Hspec Hfuel.
  split; [|repeat split; vm_compute; reflexivity].
  assert (Hall : forallb (fun chr => isDigit chr (radix_base r)) (d :: digits) = true).
  { rewrite <- Hspec. generalize (d :: digits). intros l.
    induction l as [|chr l IH]; [reflexivity|].
    simpl. now rewrite IH, is_digit_of_isDigit. }
  assert (Hd : isDigit d (radix_base r) = true)
    by (simpl in Hall; apply andb_prop in Hall; tauto).
  destruct (literal_first_char s r d digits Hd) as (c & rest & Htext & _).
  assert (Hlen : List.length digits < List.length (literal_text s r (d :: digits))).
  { unfold literal_text. rewrite !List.length_app. simpl. lia. }
  unfold fuel_for in Hfuel.
  destruct fuel as [|fuel]; [lia|].
  unfold parse. unfold bind at 1, modify.
  pose proof (setText_cursor c rest) as Hcur. rewrite <- Htext in Hcur.
  pose proof (@advance_literal s r d digits (S fuel) _ _ Hcur Hall ltac:(lia)) as Hadv.
  unfold returns in Hadv. unfold bind at 1.
  destruct (advance (S fuel) _) as [b tz1| |]; simpl in Hadv; try contradiction.
  destruct Hadv as (-> & Hcontent & Hnul).
  simpl. unfold bind at 1, token, get, Tokenizer.token. rewrite Hcontent.
  destruct (advance_at_end fuel tz1 Hnul) as [tz2 Hend].
  unfold bind. rewrite Hend. simpl. unfold Value_intptr.
  now rewrite (lexed_value_literal s r d digits Hall).
Qed.

Lemma parse_integer_literal_witness :
  forallb (is_digit_of 16) ["1"%char; "F"%char] = true /\
  result (parse 6 Value_default (list_ascii_of_string "-0x1F") 5)
  = Some (true, Value_intptr (-31)).
Proof.
  split; [reflexivity|].
  exact (proj1 (@parse_integer_literal Minus (Hexadecimal false) "1"%char ["F"%char] 6
                  eq_refl (Nat.le_refl 6))).
Defined.

(** The digits are needed: after a sign, [readNumber] takes whatever
    character comes next for the first digit. *)
Lemma parse_lone_sign :
  result (run "-") = Some (true, Value_intptr 48) /\
  result (run "+") = Some (true, Value_intptr (-48)).
Proof. split; vm_compute; reflexivity. Qed.

(* ================================================================= *)
(** * Further properties of the tokenizer *)

(* ----------------------------------------------------------------- *)
(** ** The cursor only moves forward *)

Lemma bound_to_advanceChar chars n i0 tz :
  bound_to chars n i0 tz -> bound_to chars n i0 (final (advanceChar tz)).
Proof.
  intros (Hc & Hn & Hi). unfold advanceChar, bound_to.
  destruct (m_length tz <=? m_index tz + 1); simpl; [auto|].
  destruct (Ascii.eqb _ LF); simpl; repeat split; auto; lia.
Qed.

Lemma bound_to_with_token chars n i0 tok tz :
  bound_to chars n i0 tz -> bound_to chars n i0 (with_token tok tz).
Proof. intros H; exact H. Qed.

(** X1.  Neither [Tokenizer::advance] nor [Parser::parseValue] rebinds the
    buffer, changes the bound length or moves the cursor index backward,
    however the call ends: there is no backtracking. *)
Theorem cursor_only_moves_forward :
  forall (tfuel fuel : nat) (output : Value) (tz : Tokenizer.t),
    (m_chars (final (advance fuel tz)) = m_chars tz /\
     m_length (final (advance fuel tz)) = m_length tz /\
     m_index tz <= m_index (final (advance fuel tz))) /\
    (m_chars (final (parseValue tfuel fuel output tz)) = m_chars tz /\
     m_length (final (parseValue tfuel fuel output tz)) = m_length tz /\
     m_index tz <= m_index (final (parseValue tfuel fuel output tz))).
Proof.
  intros tfuel fuel output tz.
  assert (H0 : bound_to (m_chars tz) (m_length tz) (m_index tz) tz)
    by (repeat split; lia).
  split.
  - apply (@kept_final (bound_to (m_chars tz) (m_length tz) (m_index tz))).
    apply keeps_advance;
      [apply bound_to_advanceChar|apply bound_to_with_token|exact H0].
  - apply (@kept_final (bound_to (m_chars tz) (m_length tz) (m_index tz))).
    apply keeps_parseValue;
      [apply bound_to_advanceChar|apply bound_to_with_token|exact H0].
Qed.

(* ----------------------------------------------------------------- *)
(** ** The end of the input is final *)

Lemma sat_any {A} (o : Outcome A) : sat o (fun _ _ => True) anyhow anyhow.
Proof. destruct o; exact I. Qed.

(** A computation that ends in a [throw] satisfies every condition on what
    it returns. *)
Lemma sat_then {A B} (m : M A) (k : A -> M B) tz (Q : B -> Tokenizer.t -> Prop) :
  (forall x tz1, sat (k x tz1) Q anyhow anyhow) ->
  sat (bind m k tz) Q anyhow anyhow.
Proof. intros H. unfold bind. destruct (m tz); simpl; auto; exact I. Qed.

Lemma readIdentifier_Eof fuel tz :
  sat (readIdentifier fuel tz) (Eof_means_end tz) anyhow anyhow.
Proof.
  unfold readIdentifier. apply sat_get.
  destruct (negb (isAlpha (m_char tz))); [reflexivity|].
  apply sat_then. intros identifier tz1. apply sat_set_content.
  simpl. intros H. discriminate H.
Qed.

Lemma readNumber_Eof fuel tz :
  sat (readNumber fuel tz) (Eof_means_end tz) anyhow anyhow.
Proof.
  unfold readNumber. apply sat_get.
  destruct (_ && _); [reflexivity|].
  apply sat_then. intros isNeg tz1.
  eapply sat_bind.
  - eapply sat_weaken; [apply readNumber_prefix_spec| |auto|].
    + intros prefix tz2 H. exact (proj2 (proj2 (proj2 H))).
    + intros tz2 [].
  - intros [base|] tz2 Hnone.
    + apply sat_get. apply sat_then. intros value tz3. apply sat_get.
      destruct (isAlnum (m_char tz3)).
      * apply sat_then. intros _ tz4. apply sat_then. intros _ tz5.
        apply sat_get. exact I.
      * apply sat_set_content. simpl. intros H. discriminate H.
    + simpl. intros H. rewrite (Hnone eq_refl) in H. discriminate H.
Qed.

Lemma readPunctuaction_Eof tz :
  sat (readPunctuaction tz) (Eof_means_end tz) anyhow anyhow.
Proof.
  unfold readPunctuaction. apply sat_get.
  repeat match goal with
         | |- context [if Ascii.eqb ?c ?d then _ else _] => destruct (Ascii.eqb c d)
         end;
    try reflexivity;
    (apply sat_then; intros _ tz1; apply sat_set_content; simpl;
     intros H; discriminate H).
Qed.

Lemma readString_Eof fuel tz :
  sat (readString fuel tz) (Eof_means_end tz) anyhow anyhow.
Proof.
  unfold readString. apply sat_get.
  destruct (negb (Ascii.eqb (m_char tz) DQUOTE)); [reflexivity|].
  apply sat_then. intros s tz1. apply sat_get.
  destruct (negb (Ascii.eqb (m_char tz1) DQUOTE)); [apply sat_get; exact I|].
  apply sat_then. intros _ tz2. apply sat_set_content.
  simpl. intros H. discriminate H.
Qed.

Lemma readMisc_Eof tz :
  sat (readMisc tz) (fun done tz' => done = true /\ Eof_means_end tz done tz')
      anyhow anyhow.
Proof.
  unfold readMisc. apply sat_get.
  destruct (Ascii.eqb_spec (m_char tz) NUL) as [E|_]; [|apply sat_get; exact I].
  apply sat_set_content. simpl. split; [reflexivity|].
  intros _. split; [reflexivity|exact E].
Qed.

(** When [advance] returns [false], it has stopped on NUL with the token
    [Eof]. *)
Lemma advance_false_at_end fuel tz :
  sat (advance fuel tz) (fun b tz' => b = false -> at_end_of_input tz') anyhow anyhow.
Proof.
  unfold advance. apply sat_then. intros _ tz1. apply sat_then. intros _ tz2.
  unfold bind at 1, modify. unfold bind at 1.
  set (tz3 := span_begin _).
  assert (Hspan : Token.span (m_token tz3)
                  = Span.make (m_lineNumber tz3) (m_columNumber tz3)
                              (m_lineNumber tz3) (m_columNumber tz3)) by reflexivity.
  clearbody tz3.
  apply sat_bind
    with (Q1 := fun _ tz' => Token.content (m_token tz') = tok_Eof ->
                             tz' = with_content tok_Eof tz3 /\ m_char tz3 = NUL).
  - unfold READ_METHODS, first_success.
    eapply sat_bind; [apply readIdentifier_Eof|].
    intros [] tz4 H4; [exact H4|]. simpl in H4. subst tz4.
    eapply sat_bind; [apply readNumber_Eof|].
    intros [] tz4 H4; [exact H4|]. simpl in H4. subst tz4.
    eapply sat_bind; [apply readPunctuaction_Eof|].
    intros [] tz4 H4; [exact H4|]. simpl in H4. subst tz4.
    eapply sat_bind; [apply readString_Eof|].
    intros [] tz4 H4; [exact H4|]. simpl in H4. subst tz4.
    eapply sat_bind; [apply readMisc_Eof|].
    intros done tz4 [-> H4]. exact H4.
  - intros _ tz4 H4. simpl. unfold Token.kind. simpl.
    destruct (Token.content (m_token tz4)) eqn:Hcontent; try discriminate.
    intros _. destruct (H4 eq_refl) as [-> Hnul].
    unfold at_end_of_input. simpl. split; [exact Hnul|].
    rewrite Hspan. reflexivity.
Qed.

Lemma advance_at_end_of_input fuel tz :
  at_end_of_input tz -> advance (S fuel) tz = Ok false tz.
Proof.
  destruct tz as [chars len idx line col chr tok rs]. intros [Hc Ht].
  simpl in Hc, Ht. subst chr tok. reflexivity.
Qed.

(** X2.  The end of the input is final.  Once [advance] has returned [false]
    the current character is NUL, which is the end of the buffer or a NUL
    byte inside it, and every further call returns [false] again and leaves
    the tokenizer exactly as it is. *)
Theorem advance_Eof_is_final (fuel fuel' : nat) (tz tz' : Tokenizer.t) :
  advance fuel tz = Ok false tz' ->
  m_char tz' = NUL /\
  Token.content (m_token tz') = tok_Eof /\
  advance (S fuel') tz' = Ok false tz'.
Proof.
  intros H. pose proof (advance_false_at_end fuel tz) as Hsat.
  rewrite H in Hsat. simpl in Hsat. specialize (Hsat eq_refl).
  split; [apply Hsat|]. split.
  - destruct Hsat as [_ Htok]. now rewrite Htok.
  - now apply advance_at_end_of_input.
Qed.

Lemma advance_Eof_is_final_witness :
  let tz0 := setText (list_ascii_of_string "7 ") 2 Tokenizer.init in
  let tz1 := final (advance 3 tz0) in
  let tz2 := final (advance 3 tz1) in
  advance 3 tz1 = Ok false tz2 /\ advance 1 tz2 = Ok false tz2.
Proof.
  intros tz0 tz1 tz2.
  assert (H : advance 3 tz1 = Ok false tz2) by (vm_compute; reflexivity).
  split; [exact H|].
  exact (proj2 (proj2 (@advance_Eof_is_final 3 0 tz1 tz2 H))).
Defined.

(* ================================================================= *)
(** * Further properties of Value *)

(* ----------------------------------------------------------------- *)
(** ** Copying *)




(* ----------------------------------------------------------------- *)
(** ** Clearing and destroying *)

(** X4.  [clear()] releases exactly what the destructor would release and
    leaves the value [Undefined]; after it neither a second [clear()] nor
    the destructor releases anything, so no member is destroyed twice. *)
Theorem clear_releases_once :
  forall v : Value,
    snd (clear v) = dtor v /\
    type (fst (clear v)) = ValueType.Undefined /\
    dtor (fst (clear v)) = [] /\
    clear (fst (clear v)) = (fst (clear v), []).
Proof.
  intros [t p]. destruct t; simpl; repeat split.
Qed.

(* ================================================================= *)
(** * Lexing, token by token *)

(* ----------------------------------------------------------------- *)
(** ** Stepping through a run *)

Lemma returns_inv {A} {m : M A} {tz x} {P : Tokenizer.t -> Prop} :
  returns m tz x P -> exists tz', m tz = Ok x tz' /\ P tz'.
Proof.
  unfold returns. destruct (m tz) as [y tz'| |]; simpl; try contradiction.
  intros [-> H]. now exists tz'.
Qed.

Lemma returns_eq {A} (m : M A) tz x tz' (P : Tokenizer.t -> Prop) :
  m tz = Ok x tz' -> P tz' -> returns m tz x P.
Proof. intros E H. unfold returns. rewrite E. now split. Qed.

Lemma returns_eq_value {A} (m : M A) tz (x y : A) (P : Tokenizer.t -> Prop) :
  y = x -> returns m tz y P -> returns m tz x P.
Proof. now intros ->. Qed.

Lemma bind_Ok {A B} {m : M A} (k : A -> M B) {tz x tz1} :
  m tz = Ok x tz1 -> bind m k tz = k x tz1.
Proof. intros E. unfold bind. now rewrite E. Qed.

Lemma bind_get {A B} (f : Tokenizer.t -> A) (k : A -> M B) tz :
  bind (get f) k tz = k (f tz) tz.
Proof. reflexivity. Qed.

Lemma thrown_bind {A B} (m : M A) (k : A -> M B) tz x (P : Tokenizer.t -> Prop) r :
  returns m tz x P ->
  (forall tz1, P tz1 -> thrown (k x tz1) = Some r) ->
  thrown (bind m k tz) = Some r.
Proof.
  intros Hm Hk. destruct (returns_inv Hm) as (tz1 & E & H1).
  rewrite (bind_Ok _ E). now apply Hk.
Qed.

Lemma thrown_bind_left {A B} (m : M A) (k : A -> M B) tz r :
  thrown (m tz) = Some r -> thrown (bind m k tz) = Some r.
Proof. unfold bind. destruct (m tz); simpl; congruence. Qed.

Lemma fold_push_back (l : list ascii) :
  forall s, fold_left push_back l s = (s ++ string_of_list_ascii l)%string.
Proof.
  induction l as [|c l IH]; intros s; simpl.
  - induction s; simpl; congruence.
  - rewrite IH. unfold push_back.
    induction s; simpl; congruence.
Qed.

(* ----------------------------------------------------------------- *)
(** ** The start of a token *)

Lemma advance_start (fuel : nat) (tz : Tokenizer.t) :
  blank (m_char tz) = false ->
  Ascii.eqb (m_char tz) "#" = false ->
  advance (S fuel) tz
  = (first_success (READ_METHODS (S fuel));;
     modify span_end;;
     token <- get m_token;;
     ret (match Token.kind token with TokenKind.Eof => false | _ => true end))
      (span_begin (with_token (Token.reset (m_token tz)) tz)).
Proof.
  intros Hb Hh. unfold advance.
  rewrite (bind_Ok _ (skipWhitespace_stop fuel tz Hb)).
  rewrite (bind_Ok _ (skipComments_stop (S fuel) fuel tz Hh)).
  reflexivity.
Qed.

(** [advance] on a character that starts a token: what the read methods
    lex is what [advance] leaves. *)
Lemma advance_lexes (fuel : nat) (tz : Tokenizer.t) (pre' rest : list ascii)
      (content : TokenData) :
  blank (m_char tz) = false ->
  Ascii.eqb (m_char tz) "#" = false ->
  returns (first_success (READ_METHODS (S fuel)))
          (span_begin (with_token (Token.reset (m_token tz)) tz)) tt
          (fun tz' => cursor tz' pre' rest /\ Token.content (m_token tz') = content) ->
  returns (advance (S fuel)) tz
          (match content with tok_Eof => false | _ => true end)
          (fun tz' => cursor tz' pre' rest /\ Token.content (m_token tz') = content).
Proof.
  intros Hb Hh Hm. unfold returns. rewrite (advance_start fuel tz Hb Hh).
  eapply sat_bind; [exact Hm|].
  intros x tz1 [_ [Hcur Hcontent]]. simpl.
  unfold Token.kind. simpl. rewrite Hcontent.
  split; [now destruct content|]. split; [|reflexivity].
  unfold span_end. now apply cursor_with_token.
Qed.

Lemma first_success_next (method : M bool) (rest : list (M bool)) (tz : Tokenizer.t) :
  method tz = Ok false tz ->
  first_success (method :: rest) tz = first_success rest tz.
Proof. intros E. simpl. now rewrite (bind_Ok _ E). Qed.

Lemma first_success_skip (method : M bool) (rest : list (M bool)) (tz : Tokenizer.t)
      (P : Tokenizer.t -> Prop) :
  method tz = Ok false tz ->
  returns (first_success rest) tz tt P ->
  returns (first_success (method :: rest)) tz tt P.
Proof. intros E H. unfold returns. now rewrite (@first_success_next method rest tz E). Qed.

Lemma first_success_done (method : M bool) (rest : list (M bool)) (tz : Tokenizer.t)
      (P : Tokenizer.t -> Prop) :
  returns method tz true P -> returns (first_success (method :: rest)) tz tt P.
Proof.
  intros H. simpl. eapply returns_bind; [exact H|].
  intros tz1 H1. now apply returns_ret.
Qed.

(* ----------------------------------------------------------------- *)
(** ** Words *)

Lemma readIdentifier_loop_run :
  forall body fuel s tz pre c rest,
    cursor tz pre (c :: body ++ rest) ->
    forallb word_char body = true ->
    stops word_char rest = true ->
    List.length body < fuel ->
    returns (readIdentifier_loop fuel s) tz (fold_left push_back body s)
            (fun tz' => cursor tz' (pre ++ c :: body) rest /\ m_token tz' = m_token tz).
Proof.
  induction body as [|d body IH]; intros fuel s tz pre c rest Hcur Hbody Hstop Hfuel;
    (destruct fuel as [|fuel]; [simpl in Hfuel; lia|]); simpl.
  - simpl in Hcur. advance_cursor Hcur. apply returns_get.
    destruct rest as [|x rest].
    + simpl. apply returns_ret. split; assumption.
    + simpl in Hstop. rewrite (cursor_char Hcur0).
      fold (word_char x). apply negb_true_iff in Hstop. rewrite Hstop. simpl.
      apply returns_ret. split; assumption.
  - simpl in Hbody. apply andb_prop in Hbody. destruct Hbody as [Hd Hbody].
    simpl in Hcur. advance_cursor Hcur. apply returns_get.
    rewrite (cursor_char Hcur0). fold (word_char d). rewrite Hd. simpl.
    eapply returns_weaken; [apply IH; [exact Hcur0|exact Hbody|exact Hstop|simpl in Hfuel; lia]|].
    intros tz2 [Hcur2 Htok2]. rewrite <- app_assoc in Hcur2. split; [exact Hcur2|congruence].
Qed.

Lemma readIdentifier_run (c : ascii) (body rest : list ascii) (fuel : nat)
      (tz : Tokenizer.t) (pre : list ascii) :
  cursor tz pre (c :: body ++ rest) ->
  isAlpha c = true ->
  forallb word_char body = true ->
  stops word_char rest = true ->
  List.length body < fuel ->
  returns (readIdentifier fuel) tz true
          (fun tz' => cursor tz' (pre ++ c :: body) rest /\
                      Token.content (m_token tz')
                      = tok_Identifier (string_of_list_ascii (c :: body))).
Proof.
  intros Hcur Hc Hbody Hstop Hfuel. unfold readIdentifier.
  apply returns_get. rewrite (cursor_char Hcur), Hc. simpl.
  eapply returns_bind;
    [apply (@readIdentifier_loop_run body fuel _ tz pre c rest Hcur Hbody Hstop Hfuel)|].
  intros tz1 [Hcur1 Htok1]. rewrite fold_push_back. simpl.
  unfold set_content, modify, returns, bind. simpl.
  split; [reflexivity|]. split; [|reflexivity].
  now apply cursor_with_content.
Qed.

(** A letter is neither blank nor the start of a comment. *)
Lemma alpha_facts (c : ascii) :
  isAlpha c = true -> blank c = false /\ Ascii.eqb c "#" = false.
Proof.
  destruct c as [[] [] [] [] [] [] [] []]; vm_compute; intros H;
    try discriminate; split; reflexivity.
Qed.

(** [advance] on a word lexes the whole of it, up to the first character
    that cannot continue a word. *)
Lemma advance_word (c : ascii) (body rest : list ascii) (fuel : nat)
      (tz : Tokenizer.t) (pre : list ascii) :
  cursor tz pre (c :: body ++ rest) ->
  isAlpha c = true ->
  forallb word_char body = true ->
  stops word_char rest = true ->
  List.length body < fuel ->
  returns (advance fuel) tz true
          (fun tz' => cursor tz' (pre ++ c :: body) rest /\
                      Token.content (m_token tz')
                      = tok_Identifier (string_of_list_ascii (c :: body))).
Proof.
  intros Hcur Hc Hbody Hstop Hfuel.
  destruct fuel as [|fuel]; [lia|].
  destruct (alpha_facts c Hc) as [Hb Hh].
  pose proof (cursor_char Hcur) as Hchr.
  apply (@advance_lexes fuel tz (pre ++ c :: body) rest
           (tok_Identifier (string_of_list_ascii (c :: body))));
    [now rewrite Hchr|now rewrite Hchr|].
  apply first_success_done. apply readIdentifier_run; assumption.
Qed.

Lemma keyword_false (identifier : string) :
  keyword identifier = false ->
  String.eqb identifier "true" = false /\
  String.eqb identifier "false" = false /\
  String.eqb identifier "null" = false.
Proof.
  unfold keyword. intros H.
  apply orb_false_iff in H. destruct H as [H H3].
  apply orb_false_iff in H. destruct H as [H1 H2]. auto.
Qed.

(** X5.  A bare word is a value only if it is [true], [false] or [null].
    When the input starts with a letter followed by letters, digits and
    underscores, and that word is none of the three, [parse] returns [false]
    and leaves its output as it was; it throws nothing, whatever follows
    the word. *)
Theorem parse_bare_word
  (c : ascii) (body rest : list ascii) (output : Value) (fuel : nat) :
  isAlpha c = true ->
  forallb word_char body = true ->
  stops word_char rest = true ->
  keyword (string_of_list_ascii (c :: body)) = false ->
  fuel_for (List.length (c :: body ++ rest)) <= fuel ->
  result (parse fuel output (c :: body ++ rest) (List.length (c :: body ++ rest)))
  = Some (false, output).
Proof.
  intros Hc Hbody Hstop Hkey Hfuel.
  unfold fuel_for in Hfuel. simpl in Hfuel. rewrite List.length_app in Hfuel.
  destruct fuel as [|fuel]; [lia|].
  unfold parse. unfold bind at 1, modify.
  pose proof (setText_cursor c (body ++ rest)) as Hcur.
  destruct (returns_inv
              (@advance_word c body rest (S fuel) _ [] Hcur Hc Hbody Hstop ltac:(lia)))
    as (tz1 & E & _ & Hcontent).
  rewrite (bind_Ok _ E).
  simpl. unfold bind at 1, token, get, Tokenizer.token. rewrite Hcontent.
  destruct (keyword_false _ Hkey) as (K1 & K2 & K3).
  rewrite K1, K2, K3. reflexivity.
Qed.

Lemma parse_bare_word_witness :
  result (parse 8 Value_default (list_ascii_of_string "nil, 1]") 7)
  = Some (false, Value_default).
Proof.
  exact (@parse_bare_word "n"%char (list_ascii_of_string "il")
           (list_ascii_of_string ", 1]") Value_default 8
           eq_refl eq_refl eq_refl eq_refl (Nat.le_refl 8)).
Defined.

(* ----------------------------------------------------------------- *)
(** ** Methods that do not apply *)

Lemma readNumber_no fuel tz :
  (isDigit (m_char tz) 10 || Ascii.eqb (m_char tz) "-" || Ascii.eqb (m_char tz) "+") = false ->
  readNumber fuel tz = Ok false tz.
Proof.
  intros H. unfold readNumber. rewrite bind_get.
  destruct (isDigit (m_char tz) 10), (Ascii.eqb (m_char tz) "-"),
    (Ascii.eqb (m_char tz) "+"); simpl in *; try discriminate; reflexivity.
Qed.

Lemma readPunctuaction_no tz :
  punctuation_char (m_char tz) = false -> readPunctuaction tz = Ok false tz.
Proof.
  intros H. unfold readPunctuaction. rewrite bind_get.
  unfold punctuation_char in H.
  destruct (Ascii.eqb (m_char tz) "{"), (Ascii.eqb (m_char tz) "}"),
    (Ascii.eqb (m_char tz) "["), (Ascii.eqb (m_char tz) "]"),
    (Ascii.eqb (m_char tz) ","), (Ascii.eqb (m_char tz) ":");
    simpl in *; try discriminate; reflexivity.
Qed.

Lemma readString_no fuel tz :
  Ascii.eqb (m_char tz) DQUOTE = false -> readString fuel tz = Ok false tz.
Proof. intros H. unfold readString. rewrite bind_get, H. reflexivity. Qed.

(* ----------------------------------------------------------------- *)
(** ** String literals *)

Lemma returns_bind_eq {A B} (m m' : M A) (k : A -> M B) tz tz' y
      (Q : Tokenizer.t -> Prop) :
  m tz = m' tz' -> returns (bind m' k) tz' y Q -> returns (bind m k) tz y Q.
Proof. unfold returns, bind. intros ->. auto. Qed.

Lemma thrown_bind_eq {A B} (m m' : M A) (k : A -> M B) tz tz' r :
  m tz = m' tz' -> thrown (bind m' k tz') = r -> thrown (bind m k tz) = r.
Proof. unfold bind. intros ->. auto. Qed.

(** One character of the string, written raw or as an escape sequence,
    costs the loop one round. *)
Lemma readString_loop_char (c : ascii) :
  forall fuel s tz pre c0 tail,
    cursor tz pre (c0 :: escaped c ++ tail) ->
    exists tz1 pre1 c1,
      readString_loop (S fuel) s tz = readString_loop fuel (push_back s c) tz1 /\
      cursor tz1 pre1 (c1 :: tail) /\
      pre1 ++ [c1] = pre ++ c0 :: escaped c /\
      m_token tz1 = m_token tz.
Proof.
  intros fuel s tz pre c0 tail Hcur.
  assert (Hescape :
            forall x : ascii,
              escaped c = [BACKSLASH; x] ->
              (forall s tz, m_char tz = x -> readString_escape s tz = Ok (push_back s c) tz) ->
              exists tz1 pre1 c1,
                readString_loop (S fuel) s tz = readString_loop fuel (push_back s c) tz1 /\
                cursor tz1 pre1 (c1 :: tail) /\
                pre1 ++ [c1] = pre ++ c0 :: escaped c /\
                m_token tz1 = m_token tz).
  { intros x Hx Hdecode. rewrite Hx in Hcur |- *. simpl in Hcur.
    destruct (returns_inv (advanceChar_cursor Hcur)) as (tz1 & E1 & Hcur1 & Htok1).
    destruct (returns_inv (advanceChar_cursor Hcur1)) as (tz2 & E2 & Hcur2 & Htok2).
    exists tz2, (pre ++ [c0; BACKSLASH]), x.
    split; [|split; [|split]].
    - simpl. rewrite (bind_Ok _ E1), bind_get, (cursor_char Hcur1).
      reduce_tests. rewrite (bind_Ok _ E2).
      rewrite (bind_Ok _ (Hdecode s tz2 (cursor_char Hcur2))). reflexivity.
    - rewrite <- app_assoc in Hcur2. exact Hcur2.
    - rewrite <- app_assoc. reflexivity.
    - congruence. }
  unfold escaped in Hcur, Hescape |- *.
  destruct (Ascii.eqb c LF) eqn:E1.
  { apply Ascii.eqb_eq in E1. subst c.
    apply (Hescape "n"%char eq_refl). intros s0 tz0 H0.
    unfold readString_escape. now rewrite bind_get, H0. }
  destruct (Ascii.eqb c TAB) eqn:E2.
  { apply Ascii.eqb_eq in E2. subst c.
    apply (Hescape "t"%char eq_refl). intros s0 tz0 H0.
    unfold readString_escape. now rewrite bind_get, H0. }
  destruct (Ascii.eqb c BACKSLASH) eqn:E3.
  { apply Ascii.eqb_eq in E3. subst c.
    apply (Hescape BACKSLASH eq_refl). intros s0 tz0 H0.
    unfold readString_escape. now rewrite bind_get, H0. }
  destruct (Ascii.eqb c DQUOTE) eqn:E4.
  { apply Ascii.eqb_eq in E4. subst c.
    apply (Hescape DQUOTE eq_refl). intros s0 tz0 H0.
    unfold readString_escape. now rewrite bind_get, H0. }
  clear Hescape. simpl in Hcur.
  destruct (returns_inv (advanceChar_cursor Hcur)) as (tz1 & Eq1 & Hcur1 & Htok1).
  exists tz1, (pre ++ [c0]), c.
  split; [|split; [|split]].
  - simpl. rewrite (bind_Ok _ Eq1), bind_get, (cursor_char Hcur1), E4, E1, E3.
    reflexivity.
  - exact Hcur1.
  - rewrite <- app_assoc. reflexivity.
  - exact Htok1.
Qed.

(** The loop of [readString] over the text of [content]: it arrives, with
    the characters of [content] collected, at the last character of the
    text, whatever follows. *)
Lemma readString_loop_prefix :
  forall content fuel s tz pre c0 tail,
    cursor tz pre (c0 :: flat_map escaped content ++ tail) ->
    exists tz' pre' c',
      readString_loop (List.length content + fuel) s tz
      = readString_loop fuel (fold_left push_back content s) tz' /\
      cursor tz' pre' (c' :: tail) /\
      pre' ++ [c'] = pre ++ c0 :: flat_map escaped content /\
      m_token tz' = m_token tz.
Proof.
  induction content as [|c content IH]; intros fuel s tz pre c0 tail Hcur.
  - exists tz, pre, c0.
    split; [reflexivity|]. split; [exact Hcur|]. split; reflexivity.
  - simpl flat_map in Hcur. rewrite <- app_assoc in Hcur.
    destruct (@readString_loop_char c (List.length content + fuel) s tz pre c0 _ Hcur)
      as (tz1 & pre1 & c1 & E1 & Hcur1 & Hpre1 & Htok1).
    destruct (IH fuel (push_back s c) tz1 pre1 c1 tail Hcur1)
      as (tz2 & pre2 & c2 & E2 & Hcur2 & Hpre2 & Htok2).
    exists tz2, pre2, c2. split; [|split; [|split]].
    + simpl List.length. simpl plus. rewrite E1, E2. reflexivity.
    + exact Hcur2.
    + rewrite Hpre2. simpl flat_map.
      change (pre1 ++ c1 :: flat_map escaped content)
        with (pre1 ++ [c1] ++ flat_map escaped content).
      rewrite app_assoc, Hpre1, <- app_assoc. reflexivity.
    + congruence.
Qed.

Lemma readString_run (content rest : list ascii) (fuel : nat)
      (tz : Tokenizer.t) (pre : list ascii) :
  cursor tz pre (DQUOTE :: flat_map escaped content ++ DQUOTE :: rest) ->
  List.length content < fuel ->
  returns (readString fuel) tz true
          (fun tz' => cursor tz' (pre ++ DQUOTE :: flat_map escaped content ++ [DQUOTE]) rest /\
                      Token.content (m_token tz')
                      = tok_String (string_of_list_ascii content)).
Proof.
  intros Hcur Hfuel. unfold readString.
  apply returns_get. rewrite (cursor_char Hcur). reduce_tests.
  replace fuel with (List.length content + S (fuel - List.length content - 1)) by lia.
  destruct (@readString_loop_prefix content (S (fuel - List.length content - 1))
              EmptyString tz pre DQUOTE _ Hcur)
    as (tz1 & pre1 & c1 & E1 & Hcur1 & Hpre1 & Htok1).
  eapply returns_bind_eq; [exact E1|].
  rewrite fold_push_back. simpl append.
  eapply returns_bind.
  - simpl readString_loop. advance_cursor Hcur1. apply returns_get.
    rewrite (cursor_char Hcur0). reduce_tests.
    apply returns_ret. exact Hcur0.
  - intros tz2 Hcur2. simpl. apply returns_get.
    rewrite (cursor_char Hcur2). reduce_tests.
    advance_cursor Hcur2.
    unfold set_content, modify, returns, bind. simpl.
    split; [reflexivity|]. split; [|reflexivity].
    apply cursor_with_content.
    rewrite Hpre1, <- app_assoc in Hcur0. exact Hcur0.
Qed.

(** [advance] on a string literal lexes the whole of it. *)
Lemma advance_string (content rest : list ascii) (fuel : nat)
      (tz : Tokenizer.t) (pre : list ascii) :
  cursor tz pre (DQUOTE :: flat_map escaped content ++ DQUOTE :: rest) ->
  List.length content < fuel ->
  returns (advance fuel) tz true
          (fun tz' => cursor tz' (pre ++ DQUOTE :: flat_map escaped content ++ [DQUOTE]) rest /\
                      Token.content (m_token tz')
                      = tok_String (string_of_list_ascii content)).
Proof.
  intros Hcur Hfuel.
  destruct fuel as [|fuel]; [lia|].
  pose proof (cursor_char Hcur) as Hchr.
  apply (@advance_lexes fuel tz _ rest (tok_String (string_of_list_ascii content)));
    [now rewrite Hchr|now rewrite Hchr|].
  set (tz0 := span_begin _).
  assert (Hcur0 : cursor tz0 pre (DQUOTE :: flat_map escaped content ++ DQUOTE :: rest))
    by exact Hcur.
  assert (Hchr0 : m_char tz0 = DQUOTE) by exact Hchr.
  clearbody tz0. unfold READ_METHODS.
  apply first_success_skip; [apply readIdentifier_no; now rewrite Hchr0|].
  apply first_success_skip; [apply readNumber_no; now rewrite Hchr0|].
  apply first_success_skip; [apply readPunctuaction_no; now rewrite Hchr0|].
  apply first_success_done. now apply readString_run.
Qed.

Lemma length_list_ascii_of_string (s : string) :
  List.length (list_ascii_of_string s) = String.length s.
Proof. induction s; simpl; congruence. Qed.

Lemma flat_map_escaped_length (content : list ascii) :
  List.length content <= List.length (flat_map escaped content).
Proof.
  induction content as [|c content IH]; simpl; [lia|].
  rewrite List.length_app.
  assert (1 <= List.length (escaped c)); [|lia].
  unfold escaped.
  destruct (Ascii.eqb c LF), (Ascii.eqb c TAB), (Ascii.eqb c BACKSLASH),
    (Ascii.eqb c DQUOTE); simpl; lia.
Qed.

Lemma quoted_length (s : string) :
  String.length s + 2 <= List.length (quoted s).
Proof.
  unfold quoted. simpl. rewrite List.length_app. simpl.
  pose proof (flat_map_escaped_length (list_ascii_of_string s)) as H.
  rewrite length_list_ascii_of_string in H. lia.
Qed.


(** X6.  String literals round-trip.  For every string [s], the literal
    made of a double quote, the characters of [s] with newline, tab,
    backslash and double quote written as the escape sequences of
    [readString], and a closing double quote, parses to the String [s]. *)
Theorem parse_string_literal (s : string) (output : Value) (fuel : nat) :
  fuel_for (List.length (quoted s)) <= fuel ->
  result (parse fuel output (quoted s) (List.length (quoted s)))
  = Some (true, Value_String s).
Proof.
  intros Hfuel. unfold fuel_for in Hfuel.
  pose proof (quoted_length s) as Hlen.
  destruct fuel as [|fuel]; [lia|].
  unfold parse. unfold bind at 1, modify.
  pose proof (setText_cursor DQUOTE (flat_map escaped (list_ascii_of_string s) ++ [DQUOTE]))
    as Hcur.
  fold (quoted s) in Hcur.
  assert (Hfuel' : List.length (list_ascii_of_string s) < S fuel)
    by (rewrite length_list_ascii_of_string; lia).
  destruct (returns_inv
              (@advance_string (list_ascii_of_string s) [] (S fuel) _ [] Hcur Hfuel'))
    as (tz1 & E & Hcur1 & Hcontent).
  rewrite (bind_Ok _ E).
  simpl. unfold bind at 1, token, get, Tokenizer.token. rewrite Hcontent.
  unfold bind at 1, set_content, modify.
  destruct (advance_at_end fuel (with_content (tok_String EmptyString) tz1)
              (cursor_end_char Hcur1)) as [tz2 Hend].
  rewrite (bind_Ok _ Hend). simpl.
  now rewrite string_of_list_ascii_of_string.
Qed.

Lemma parse_string_literal_witness :
  result (parse 9 Value_default
                [DQUOTE; "a"%char; BACKSLASH; "n"%char; BACKSLASH; DQUOTE; "b"%char; DQUOTE] 8)
  = Some (true, Value_String (String "a" (String LF (String DQUOTE (String "b" EmptyString))))).
Proof.
  exact (@parse_string_literal
           (String "a" (String LF (String DQUOTE (String "b" EmptyString))))
           Value_default 9 (Nat.le_refl 9)).
Defined.

(** The loop of [readString] ends the lexing where a line or the buffer ends
    inside the literal. *)
Lemma readString_unterminated (content tail : list ascii) (fuel : nat)
      (tz : Tokenizer.t) (pre : list ascii) :
  cursor tz pre (DQUOTE :: flat_map escaped content ++ tail) ->
  line_ends tail = true ->
  List.length content < fuel ->
  thrown (readString fuel tz)
  = Some (GclErrorID.ExpectedStringEnd, "expected string end"%string).
Proof.
  intros Hcur Htail Hfuel. unfold readString.
  rewrite bind_get, (cursor_char Hcur). reduce_tests.
  replace fuel with (List.length content + S (fuel - List.length content - 1)) by lia.
  destruct (@readString_loop_prefix content (S (fuel - List.length content - 1))
              EmptyString tz pre DQUOTE _ Hcur)
    as (tz1 & pre1 & c1 & E1 & Hcur1 & Hpre1 & Htok1).
  eapply thrown_bind_eq; [exact E1|].
  simpl readString_loop.
  destruct (returns_inv (advanceChar_cursor Hcur1)) as (tz2 & E2 & Hcur2 & Htok2).
  destruct tail as [|x tail].
  - unfold bind at 1. unfold bind at 1. rewrite E2.
    rewrite bind_get. simpl.
    rewrite bind_get, (cursor_end_char Hcur2). reflexivity.
  - simpl in Htail. apply Ascii.eqb_eq in Htail. subst x.
    apply thrown_bind_left.
    rewrite (bind_Ok _ E2), bind_get, (cursor_char Hcur2). reflexivity.
Qed.

Lemma advance_throws (fuel : nat) (tz : Tokenizer.t) (r : GclErrorID.t * string) :
  blank (m_char tz) = false ->
  Ascii.eqb (m_char tz) "#" = false ->
  thrown (first_success (READ_METHODS (S fuel))
            (span_begin (with_token (Token.reset (m_token tz)) tz))) = Some r ->
  thrown (advance (S fuel) tz) = Some r.
Proof.
  intros Hb Hh H. rewrite (advance_start fuel tz Hb Hh).
  now apply thrown_bind_left.
Qed.

Lemma parse_throws_at_first_token (fuel : nat) (output : Value) (c : ascii)
      (rest : list ascii) (r : GclErrorID.t * string) :
  thrown (advance fuel (setText (c :: rest) (List.length (c :: rest)) Tokenizer.init))
  = Some r ->
  thrown (parse fuel output (c :: rest) (List.length (c :: rest))) = Some r.
Proof.
  intros H. unfold parse. unfold bind at 1, modify.
  now apply thrown_bind_left.
Qed.

(** X7.  A string literal has to be closed on its line.  When, after the
    opening double quote and any characters, raw or escaped, the line or
    the whole input ends, [parse] throws from the site
    [ExpectedStringEnd] with the message [expected string end]. *)
Theorem parse_unterminated_string
  (content tail : list ascii) (output : Value) (fuel : nat) :
  line_ends tail = true ->
  fuel_for (List.length (DQUOTE :: flat_map escaped content ++ tail)) <= fuel ->
  thrown (parse fuel output (DQUOTE :: flat_map escaped content ++ tail)
                (List.length (DQUOTE :: flat_map escaped content ++ tail)))
  = Some (GclErrorID.ExpectedStringEnd, "expected string end"%string).
Proof.
  intros Htail Hfuel. unfold fuel_for in Hfuel.
  assert (Hlen : List.length content
                 <= List.length (flat_map escaped content ++ tail))
    by (rewrite List.length_app; pose proof (flat_map_escaped_length content); lia).
  simpl List.length in Hfuel.
  destruct fuel as [|fuel]; [lia|].
  apply parse_throws_at_first_token.
  pose proof (setText_cursor DQUOTE (flat_map escaped content ++ tail)) as Hcur.
  apply advance_throws;
    [now rewrite (cursor_char Hcur)|now rewrite (cursor_char Hcur)|].
  set (tz0 := span_begin _).
  assert (Hcur0 : cursor tz0 [] (DQUOTE :: flat_map escaped content ++ tail))
    by exact Hcur.
  assert (Hchr0 : m_char tz0 = DQUOTE) by exact (cursor_char Hcur).
  clearbody tz0. unfold READ_METHODS.
  rewrite first_success_next by (apply readIdentifier_no; now rewrite Hchr0).
  rewrite first_success_next by (apply readNumber_no; now rewrite Hchr0).
  rewrite first_success_next by (apply readPunctuaction_no; now rewrite Hchr0).
  simpl first_success. apply thrown_bind_left.
  apply (@readString_unterminated content tail (S fuel) tz0 [] Hcur0 Htail). lia.
Qed.

Lemma parse_unterminated_string_witness :
  thrown (parse 5 Value_default [DQUOTE; "a"%char; LF; DQUOTE] 4)
  = Some (GclErrorID.ExpectedStringEnd, "expected string end"%string).
Proof.
  exact (@parse_unterminated_string ["a"%char] [LF; DQUOTE] Value_default 5
           eq_refl (Nat.le_refl 5)).
Defined.

Lemma cursor_hd {tz pre rest} : cursor tz pre rest -> m_char tz = hd NUL rest.
Proof.
  destruct rest as [|c rest]; intros H.
  - exact (cursor_end_char H).
  - exact (cursor_char H).
Qed.

Lemma readString_escape_invalid (s : string) (tz : Tokenizer.t) :
  escape_char (m_char tz) = false ->
  thrown (readString_escape s tz)
  = Some (GclErrorID.InvalidEscape,
          ("invalid escape sequence `" ++ format_char (m_char tz) ++ "`")%string).
Proof.
  unfold escape_char, readString_escape. intros H. rewrite bind_get.
  destruct (Ascii.eqb (m_char tz) "n"), (Ascii.eqb (m_char tz) "t"),
    (Ascii.eqb (m_char tz) BACKSLASH), (Ascii.eqb (m_char tz) DQUOTE);
    simpl in H; try discriminate; reflexivity.
Qed.

Lemma readString_invalid_escape (content rest : list ascii) (fuel : nat)
      (tz : Tokenizer.t) (pre : list ascii) :
  cursor tz pre (DQUOTE :: flat_map escaped content ++ BACKSLASH :: rest) ->
  escape_char (hd NUL rest) = false ->
  List.length content < fuel ->
  thrown (readString fuel tz)
  = Some (GclErrorID.InvalidEscape,
          ("invalid escape sequence `" ++ format_char (hd NUL rest) ++ "`")%string).
Proof.
  intros Hcur Hbad Hfuel. unfold readString.
  rewrite bind_get, (cursor_char Hcur). reduce_tests.
  replace fuel with (List.length content + S (fuel - List.length content - 1)) by lia.
  destruct (@readString_loop_prefix content (S (fuel - List.length content - 1))
              EmptyString tz pre DQUOTE _ Hcur)
    as (tz1 & pre1 & c1 & E1 & Hcur1 & Hpre1 & Htok1).
  eapply thrown_bind_eq; [exact E1|].
  apply thrown_bind_left. simpl readString_loop.
  destruct (returns_inv (advanceChar_cursor Hcur1)) as (tz2 & E2 & Hcur2 & Htok2).
  rewrite (bind_Ok _ E2), bind_get, (cursor_char Hcur2). reduce_tests.
  destruct (returns_inv (advanceChar_cursor Hcur2)) as (tz3 & E3 & Hcur3 & Htok3).
  rewrite (bind_Ok _ E3).
  apply thrown_bind_left.
  rewrite <- (cursor_hd Hcur3) in Hbad |- *.
  now apply readString_escape_invalid.
Qed.


(** X8.  Inside a string literal a backslash has to be followed by [n],
    [t], a backslash or a double quote.  When, after the opening double
    quote and any characters, raw or escaped, a backslash is followed by
    another character, or by the end of the input, [parse] throws from the
    site [InvalidEscape], and the message names that character (NUL at the
    end of the input). *)
Theorem parse_invalid_escape
  (content rest : list ascii) (output : Value) (fuel : nat) :
  escape_char (hd NUL rest) = false ->
  fuel_for (List.length (DQUOTE :: flat_map escaped content ++ BACKSLASH :: rest)) <= fuel ->
  thrown (parse fuel output (DQUOTE :: flat_map escaped content ++ BACKSLASH :: rest)
                (List.length (DQUOTE :: flat_map escaped content ++ BACKSLASH :: rest)))
  = Some (GclErrorID.InvalidEscape,
          ("invalid escape sequence `" ++ format_char (hd NUL rest) ++ "`")%string).
Proof.
  intros Hbad Hfuel. unfold fuel_for in Hfuel.
  pose proof (flat_map_escaped_length content) as Hlen.
  simpl List.length in Hfuel. rewrite List.length_app in Hfuel.
  destruct fuel as [|fuel]; [lia|].
  apply parse_throws_at_first_token.
  pose proof (setText_cursor DQUOTE (flat_map escaped content ++ BACKSLASH :: rest)) as Hcur.
  apply advance_throws;
    [now rewrite (cursor_char Hcur)|now rewrite (cursor_char Hcur)|].
  set (tz0 := span_begin _).
  assert (Hcur0 : cursor tz0 [] (DQUOTE :: flat_map escaped content ++ BACKSLASH :: rest))
    by exact Hcur.
  assert (Hchr0 : m_char tz0 = DQUOTE) by exact (cursor_char Hcur).
  clearbody tz0. unfold READ_METHODS.
  rewrite first_success_next by (apply readIdentifier_no; now rewrite Hchr0).
  rewrite first_success_next by (apply readNumber_no; now rewrite Hchr0).
  rewrite first_success_next by (apply readPunctuaction_no; now rewrite Hchr0).
  simpl first_success. apply thrown_bind_left.
  apply (@readString_invalid_escape content rest (S fuel) tz0 [] Hcur0 Hbad). lia.
Qed.

Lemma parse_invalid_escape_witness :
  thrown (parse 6 Value_default [DQUOTE; "a"%char; BACKSLASH; "q"%char; DQUOTE] 5)
  = Some (GclErrorID.InvalidEscape, "invalid escape sequence `q`"%string).
Proof.
  exact (@parse_invalid_escape ["a"%char] ["q"%char; DQUOTE] Value_default 6
           eq_refl (Nat.le_refl 6)).
Defined.

(* ----------------------------------------------------------------- *)
(** ** Characters that start no token *)

Lemma starts_token_false (c : ascii) :
  starts_token c = false ->
  isAlpha c = false /\
  (isDigit c 10 || Ascii.eqb c "-" || Ascii.eqb c "+") = false /\
  punctuation_char c = false /\
  Ascii.eqb c DQUOTE = false.
Proof.
  unfold starts_token.
  destruct (isAlpha c), (isDigit c 10), (Ascii.eqb c "-"), (Ascii.eqb c "+"),
    (punctuation_char c), (Ascii.eqb c DQUOTE); simpl; intros H;
    try discriminate; repeat split.
Qed.

(** X9.  An input whose first character is not blank, does not start a
    comment, is not NUL and starts none of identifier, number, punctuation
    and string makes [parse] throw from the site [UnknownChar], with a
    message that names the character. *)
Theorem parse_unknown_char
  (c : ascii) (rest : list ascii) (output : Value) (fuel : nat) :
  blank c = false ->
  Ascii.eqb c "#" = false ->
  starts_token c = false ->
  Ascii.eqb c NUL = false ->
  thrown (parse (S fuel) output (c :: rest) (List.length (c :: rest)))
  = Some (GclErrorID.UnknownChar, ("unknown character `" ++ format_char c ++ "`")%string).
Proof.
  intros Hb Hh Hs Hn.
  destruct (starts_token_false c Hs) as (Ha & Hd & Hp & Hq).
  apply parse_throws_at_first_token.
  pose proof (setText_cursor c rest) as Hcur.
  apply advance_throws;
    [now rewrite (cursor_char Hcur)|now rewrite (cursor_char Hcur)|].
  set (tz0 := span_begin _).
  assert (Hchr0 : m_char tz0 = c) by exact (cursor_char Hcur).
  clearbody tz0. unfold READ_METHODS.
  rewrite first_success_next by (apply readIdentifier_no; now rewrite Hchr0).
  rewrite first_success_next by (apply readNumber_no; now rewrite Hchr0).
  rewrite first_success_next by (apply readPunctuaction_no; now rewrite Hchr0).
  rewrite first_success_next by (apply readString_no; now rewrite Hchr0).
  simpl first_success. apply thrown_bind_left.
  unfold readMisc. rewrite bind_get, Hchr0, Hn. reflexivity.
Qed.

Lemma parse_unknown_char_witness :
  thrown (parse 3 Value_default (list_ascii_of_string "?1") 2)
  = Some (GclErrorID.UnknownChar, "unknown character `?`"%string).
Proof.
  exact (@parse_unknown_char "?"%char ["1"%char] Value_default 2
           eq_refl eq_refl eq_refl eq_refl).
Defined.

(* ----------------------------------------------------------------- *)
(** ** Number literals in context *)

(** The digit loop on a run of digits, up to the first character that is
    not a digit of the base. *)
Lemma readNumber_digits_run_rest base :
  forall digits fuel value tz pre c rest,
    cursor tz pre (c :: digits ++ rest) ->
    forallb (fun chr => isDigit chr base) digits = true ->
    stops (fun chr => isDigit chr base) rest = true ->
    List.length digits < fuel ->
    returns (readNumber_digits fuel base value) tz (accumulated base digits value)
            (fun tz' => cursor tz' (pre ++ c :: digits) rest /\ m_token tz' = m_token tz).
Proof.
  induction digits as [|d digits IH]; intros fuel value tz pre c rest Hcur Hd Hstop Hfuel;
    (destruct fuel as [|fuel]; [simpl in Hfuel; lia|]); simpl.
  - simpl in Hcur. advance_cursor Hcur. apply returns_get.
    destruct rest as [|x rest].
    + simpl. apply returns_ret. split; assumption.
    + simpl in Hstop. rewrite (cursor_char Hcur0).
      apply negb_true_iff in Hstop. rewrite Hstop. simpl.
      apply returns_ret. split; assumption.
  - simpl in Hd. apply andb_prop in Hd. destruct Hd as [Hd Hds].
    simpl in Hcur. advance_cursor Hcur. apply returns_get.
    rewrite (cursor_char Hcur0), Hd. simpl.
    eapply returns_weaken; [apply IH; [exact Hcur0|exact Hds|exact Hstop|simpl in Hfuel; lia]|].
    intros tz2 [Hcur2 Htok2]. rewrite <- app_assoc in Hcur2. split; [exact Hcur2|congruence].
Qed.

(** What [readNumber_prefix] leaves when the literal is followed by [rest]. *)
Lemma readNumber_prefix_run_rest (r : Radix) tz pre d digits rest :
  cursor tz pre (radix_chars r ++ d :: digits ++ rest) ->
  forallb (fun chr => isDigit chr (radix_base r)) (d :: digits) = true ->
  stops (fun chr => isDigit chr (radix_base r)) rest = true ->
  (lone_zero r d digits = true -> radix_marker (hd NUL rest) = false) ->
  sat (readNumber_prefix tz)
      (fun prefix tz' =>
         match prefix with
         | None =>
             lone_zero r d digits = true /\
             Token.content (m_token tz') = tok_Int 0 /\
             cursor tz' (pre ++ radix_chars r ++ d :: digits) rest
         | Some base =>
             base = radix_base r /\
             m_token tz' = m_token tz /\
             lone_zero r d digits = false /\
             exists pre' c' digits',
               cursor tz' pre' (c' :: digits' ++ rest) /\
               pre' ++ c' :: digits' = pre ++ radix_chars r ++ d :: digits /\
               List.length digits' <= List.length digits /\
               forallb (fun chr => isDigit chr base) digits' = true /\
               accumulated base digits' (to_uintptr (charToDigit c' base))
               = accumulated base digits (to_uintptr (charToDigit d base))
         end)
      never never.
Proof.
  intros Hcur Hd Hstop Hzero. simpl in Hd. apply andb_prop in Hd. destruct Hd as [Hd Hds].
  unfold readNumber_prefix. apply sat_get.
  destruct r as [|upper|upper]; simpl in Hcur, Hd, Hds, Hstop, Hzero |- *.
  - (* decimal *)
    rewrite (cursor_char Hcur).
    destruct (Ascii.eqb d "0") eqn:Hz.
    + apply Ascii.eqb_eq in Hz. subst d.
      advance_cursor_sat Hcur. apply sat_get.
      destruct digits as [|d2 digits'].
      * simpl in Hcur0. specialize (Hzero eq_refl).
        destruct rest as [|x rest]; simpl in Hzero, Hstop.
        -- rewrite (cursor_end_char Hcur0). reduce_tests.
           apply sat_set_content. simpl.
           split; [reflexivity|]. split; [reflexivity|].
           apply cursor_with_content. exact Hcur0.
        -- apply negb_true_iff in Hstop. rewrite (cursor_char Hcur0), Hstop.
           unfold radix_marker in Hzero. rewrite Hzero. cbn [negb].
           apply sat_set_content. simpl.
           split; [reflexivity|]. split; [reflexivity|].
           apply cursor_with_content. exact Hcur0.
      * simpl in Hds. apply andb_prop in Hds. destruct Hds as [Hd2 Hds].
        simpl in Hcur0. rewrite (cursor_char Hcur0), Hd2. simpl.
        split; [reflexivity|]. split; [exact Htok|].
        split; [reflexivity|].
        exists (pre ++ ["0"%char]), d2, digits'.
        split; [exact Hcur0|]. split; [now rewrite <- app_assoc|].
        split; [simpl; lia|]. split; [exact Hds|].
        apply accumulated_leading_zero.
    + simpl. split; [reflexivity|]. split; [reflexivity|].
      split; [destruct digits; reflexivity|].
      exists pre, d, digits. split; [exact Hcur|]. split; [reflexivity|].
      split; [lia|]. split; [exact Hds|reflexivity].
  - (* binary *)
    rewrite (cursor_char Hcur). reduce_tests.
    advance_cursor_sat Hcur. apply sat_get. rewrite (cursor_char Hcur0).
    destruct upper; reduce_tests;
      (advance_cursor_sat Hcur0; apply sat_get; rewrite (cursor_char Hcur1), Hd; simpl;
       split; [reflexivity|]; split; [congruence|]; split; [reflexivity|];
       eexists; exists d, digits;
       split; [exact Hcur1|]; split; [now rewrite <- !app_assoc|];
       split; [lia|]; split; [exact Hds|reflexivity]).
  - (* hexadecimal *)
    rewrite (cursor_char Hcur). reduce_tests.
    advance_cursor_sat Hcur. apply sat_get. rewrite (cursor_char Hcur0).
    destruct upper; reduce_tests;
      (advance_cursor_sat Hcur0; apply sat_get; rewrite (cursor_char Hcur1), Hd; simpl;
       split; [reflexivity|]; split; [congruence|]; split; [reflexivity|];
       eexists; exists d, digits;
       split; [exact Hcur1|]; split; [now rewrite <- !app_assoc|];
       split; [lia|]; split; [exact Hds|reflexivity]).
Qed.

Lemma sat_inv {A} {m : M A} {tz} {Q : A -> Tokenizer.t -> Prop} :
  sat (m tz) Q never never -> exists x tz', m tz = Ok x tz' /\ Q x tz'.
Proof.
  destruct (m tz) as [x tz'| |]; simpl; try contradiction.
  intros H. now exists x, tz'.
Qed.

(** [readNumber] on a literal followed by [rest]: either the literal is a
    lone [0] and the token is [Int 0] at once, or the sign, the radix marker
    and the digits are passed and the method is at its test of the character
    after the digits. *)
Lemma readNumber_reaches (s : Sign) (r : Radix) (d : ascii) (digits rest : list ascii)
      (fuel : nat) (tz : Tokenizer.t) (pre : list ascii) :
  cursor tz pre (literal_text s r (d :: digits) ++ rest) ->
  forallb (fun chr => isDigit chr (radix_base r)) (d :: digits) = true ->
  stops (fun chr => isDigit chr (radix_base r)) rest = true ->
  (lone_zero r d digits = true -> radix_marker (hd NUL rest) = false) ->
  List.length digits < fuel ->
  (lone_zero r d digits = true /\
   returns (readNumber fuel) tz true
           (fun tz' => cursor tz' (pre ++ literal_text s r (d :: digits)) rest /\
                       Token.content (m_token tz') = tok_Int 0))
  \/
  (exists tz3,
      lone_zero r d digits = false /\
      cursor tz3 (pre ++ literal_text s r (d :: digits)) rest /\
      readNumber fuel tz
      = (chr <- get m_char;;
         if isAlnum chr then
           let invalidDigitChr := chr in
           advanceChar;;
           readNumber_skip fuel;;
           span <- token_span;;
           throw GclErrorID.InvalidDigit span
                 ("invalid digit `" ++ format_char invalidDigitChr
                    ++ "` for base " ++ format_int (radix_base r))
         else
           let value :=
             if (match s with Minus => true | _ => false end) : bool
             then uneg (accumulated (radix_base r) digits
                          (to_uintptr (charToDigit d (radix_base r))))
             else accumulated (radix_base r) digits
                    (to_uintptr (charToDigit d (radix_base r))) in
           set_content (tok_Int value);;
           ret true) tz3).
Proof.
  intros Hcur Hall Hstop Hzero Hfuel.
  assert (Hd : isDigit d (radix_base r) = true)
    by (simpl in Hall; apply andb_prop in Hall; tauto).
  destruct (literal_first_char s r d digits Hd) as (c & rest0 & Htext & Hstart & _).
  assert (Hc : m_char tz = c).
  { rewrite Htext in Hcur. simpl in Hcur. exact (cursor_char Hcur). }
  assert (Hno : (negb (isDigit c 10) && negb (Ascii.eqb c "-") && negb (Ascii.eqb c "+"))
                = false)
    by (destruct (isDigit c 10), (Ascii.eqb c "-"), (Ascii.eqb c "+");
        simpl in *; congruence).
  destruct (radix_first_char r d digits Hd) as (c1 & rest1 & Hradix & Hc1).
  assert (Hcur' : cursor tz pre (sign_chars s ++ c1 :: rest1 ++ rest)).
  { unfold literal_text in Hcur. rewrite <- app_assoc in Hcur.
    rewrite <- app_assoc in Hcur. simpl in Hcur.
    change (c1 :: rest1 ++ rest) with ((c1 :: rest1) ++ rest).
    rewrite <- Hradix. rewrite <- app_assoc. exact Hcur. }
  destruct (returns_inv (@readNumber_sign_run s tz pre c1 (rest1 ++ rest) Hcur' Hc1))
    as (tz1 & E1 & Hcur1 & Htok1).
  change (c1 :: rest1 ++ rest) with ((c1 :: rest1) ++ rest) in Hcur1.
  rewrite <- Hradix, <- app_assoc in Hcur1. simpl in Hcur1.
  destruct (sat_inv (@readNumber_prefix_run_rest r tz1 _ d digits rest Hcur1 Hall Hstop Hzero))
    as (prefix & tz2 & E2 & Hpost).
  assert (Hpre : (pre ++ sign_chars s) ++ radix_chars r ++ d :: digits
                 = pre ++ literal_text s r (d :: digits))
    by (unfold literal_text; now rewrite <- app_assoc).
  destruct prefix as [base|].
  - right.
    destruct Hpost
      as (-> & Htok2 & Hlone & pre' & c' & digits' & Hcur2 & Hpre2 & Hlen & Hdigits' & Hacc).
    destruct (returns_inv
                (@readNumber_digits_run_rest (radix_base r) digits' fuel
                   (to_uintptr (charToDigit c' (radix_base r))) tz2 pre' c' rest
                   Hcur2 Hdigits' Hstop ltac:(lia)))
      as (tz3 & E3 & Hcur3 & Htok3).
    exists tz3. split; [exact Hlone|]. split.
    + rewrite Hpre2, Hpre in Hcur3. exact Hcur3.
    + unfold readNumber. rewrite bind_get, Hc, Hno.
      rewrite (bind_Ok _ E1), (bind_Ok _ E2).
      rewrite bind_get, (cursor_char Hcur2).
      rewrite (bind_Ok _ E3), Hacc. reflexivity.
  - left. destruct Hpost as (Hlone & Hcontent & Hcur2).
    split; [exact Hlone|].
    apply (@returns_eq _ (readNumber fuel) tz true tz2).
    + unfold readNumber. rewrite bind_get, Hc, Hno.
      rewrite (bind_Ok _ E1), (bind_Ok _ E2). reflexivity.
    + split; [|exact Hcontent]. rewrite Hpre in Hcur2. exact Hcur2.
Qed.

Lemma digit_is_alnum_char (r : Radix) (c : ascii) :
  isDigit c (radix_base r) = true -> isAlnum c = true.
Proof.
  destruct r; destruct c as [[] [] [] [] [] [] [] []]; vm_compute; intros H;
    try discriminate; reflexivity.
Qed.

Lemma radix_marker_is_alnum (c : ascii) : radix_marker c = true -> isAlnum c = true.
Proof.
  destruct c as [[] [] [] [] [] [] [] []]; vm_compute; intros H;
    try discriminate; reflexivity.
Qed.

Lemma stops_alnum_digit (r : Radix) (rest : list ascii) :
  stops isAlnum rest = true ->
  stops (fun chr => isDigit chr (radix_base r)) rest = true.
Proof.
  destruct rest as [|x rest]; [reflexivity|]. simpl.
  intros H. apply negb_true_iff in H. apply negb_true_iff.
  destruct (isDigit x (radix_base r)) eqn:E; [|reflexivity].
  apply digit_is_alnum_char in E. congruence.
Qed.

Lemma stops_alnum_marker (rest : list ascii) :
  stops isAlnum rest = true -> radix_marker (hd NUL rest) = false.
Proof.
  destruct rest as [|x rest]; [reflexivity|]. simpl.
  intros H. apply negb_true_iff in H.
  destruct (radix_marker x) eqn:E; [|reflexivity].
  apply radix_marker_is_alnum in E. congruence.
Qed.

Lemma stops_alnum_hd (rest : list ascii) :
  stops isAlnum rest = true -> isAlnum (hd NUL rest) = false.
Proof.
  destruct rest as [|x rest]; [reflexivity|]. simpl.
  intros H. now apply negb_true_iff in H.
Qed.

Lemma lone_zero_lexed_value (s : Sign) (r : Radix) (d : ascii) (digits : list ascii) :
  lone_zero r d digits = true -> lexed_value s r d digits = 0%Z.
Proof.
  destruct r, digits; simpl; try discriminate.
  intros H. apply Ascii.eqb_eq in H. subst d. destruct s; reflexivity.
Qed.

(** [readNumber] on a literal followed by a character that is neither a
    letter nor a digit, or by the end of the buffer. *)
Lemma readNumber_literal_rest (s : Sign) (r : Radix) (d : ascii) (digits rest : list ascii)
      (fuel : nat) (tz : Tokenizer.t) (pre : list ascii) :
  cursor tz pre (literal_text s r (d :: digits) ++ rest) ->
  forallb (fun chr => isDigit chr (radix_base r)) (d :: digits) = true ->
  stops isAlnum rest = true ->
  List.length digits < fuel ->
  returns (readNumber fuel) tz true
          (fun tz' => cursor tz' (pre ++ literal_text s r (d :: digits)) rest /\
                      Token.content (m_token tz') = tok_Int (lexed_value s r d digits)).
Proof.
  intros Hcur Hall Hstop Hfuel.
  destruct (@readNumber_reaches s r d digits rest fuel tz pre Hcur Hall
              (stops_alnum_digit r rest Hstop)
              (fun _ => stops_alnum_marker rest Hstop) Hfuel)
    as [[Hlone H]|(tz3 & _ & Hcur3 & E)].
  - rewrite (lone_zero_lexed_value s r d digits Hlone). exact H.
  - unfold returns. rewrite E, bind_get, (cursor_hd Hcur3), (stops_alnum_hd rest Hstop).
    unfold set_content, modify, bind. simpl.
    split; [reflexivity|]. split.
    + apply cursor_with_content. exact Hcur3.
    + unfold lexed_value. destruct s; reflexivity.
Qed.

(** [advance] on a literal lexes the whole of it. *)
Lemma advance_literal_rest (s : Sign) (r : Radix) (d : ascii) (digits rest : list ascii)
      (fuel : nat) (tz : Tokenizer.t) (pre : list ascii) :
  cursor tz pre (literal_text s r (d :: digits) ++ rest) ->
  forallb (fun chr => isDigit chr (radix_base r)) (d :: digits) = true ->
  stops isAlnum rest = true ->
  List.length digits < fuel ->
  returns (advance fuel) tz true
          (fun tz' => cursor tz' (pre ++ literal_text s r (d :: digits)) rest /\
                      Token.content (m_token tz') = tok_Int (lexed_value s r d digits)).
Proof.
  intros Hcur Hall Hstop Hfuel.
  assert (Hd : isDigit d (radix_base r) = true)
    by (simpl in Hall; apply andb_prop in Hall; tauto).
  destruct (literal_first_char s r d digits Hd)
    as (c & rest0 & Htext & _ & Hws & Hhash & Halpha).
  assert (Hc : m_char tz = c).
  { rewrite Htext in Hcur. simpl in Hcur. exact (cursor_char Hcur). }
  destruct fuel as [|fuel]; [lia|].
  apply (@advance_lexes fuel tz _ rest (tok_Int (lexed_value s r d digits)));
    [now rewrite Hc|now rewrite Hc|].
  set (tz0 := span_begin _).
  assert (Hcur0 : cursor tz0 pre (literal_text s r (d :: digits) ++ rest)) by exact Hcur.
  assert (Hchr0 : m_char tz0 = c) by exact Hc.
  clearbody tz0. unfold READ_METHODS.
  apply first_success_skip; [apply readIdentifier_no; now rewrite Hchr0|].
  apply first_success_done. now apply readNumber_literal_rest.
Qed.

(* ----------------------------------------------------------------- *)
(** ** A letter or a digit right after the digits *)

Lemma advanceChar_returns (tz : Tokenizer.t) :
  exists ok tz', advanceChar tz = Ok ok tz' /\
                 (Ascii.eqb (m_char tz) NUL = false -> pending tz' < pending tz) /\
                 pending tz' <= pending tz.
Proof.
  pose proof (advanceChar_spec tz) as H.
  destruct (advanceChar tz) as [ok tz'| |] eqn:E.
  - exists ok, tz'. simpl in H. destruct H as ((_ & Hp) & Hlt & _).
    split; [reflexivity|]. split; assumption.
  - unfold advanceChar in E.
    destruct (m_length tz <=? m_index tz + 1); [discriminate|].
    unfold deref in E.
    destruct (Ascii.eqb (nth (m_index tz + 1) (m_chars tz) NUL) LF); discriminate.
  - contradiction.
Qed.

Lemma readNumber_skip_returns (fuel : nat) :
  forall tz, pending tz + 1 <= fuel -> exists tz', readNumber_skip fuel tz = Ok tt tz'.
Proof.
  induction fuel as [|fuel IH]; intros tz Hfuel; [lia|].
  simpl. rewrite bind_get.
  destruct (isAlnum (m_char tz)) eqn:Hal; [|now exists tz].
  assert (Hc : Ascii.eqb (m_char tz) NUL = false) by not_NUL.
  destruct (advanceChar_returns tz) as (ok & tz1 & E1 & Hlt & _).
  specialize (Hlt Hc).
  destruct (IH tz1 ltac:(lia)) as (tz2 & E2).
  exists tz2. now rewrite (bind_Ok _ E1).
Qed.

Lemma cursor_pending {tz pre rest} : cursor tz pre rest -> pending tz <= List.length rest.
Proof.
  unfold cursor, pending, ahead. destruct rest as [|c rest].
  - intros [Hc Hlen]. rewrite Hc. simpl. lia.
  - intros (_ & Hlen & Hidx & _). rewrite Hlen, Hidx, List.length_app. simpl.
    destruct (Ascii.eqb (m_char tz) NUL); lia.
Qed.

Lemma readNumber_invalid_digit (s : Sign) (r : Radix) (d x : ascii)
      (digits rest : list ascii) (fuel : nat) (tz : Tokenizer.t) (pre : list ascii) :
  cursor tz pre (literal_text s r (d :: digits) ++ x :: rest) ->
  forallb (fun chr => isDigit chr (radix_base r)) (d :: digits) = true ->
  isAlnum x = true ->
  isDigit x (radix_base r) = false ->
  lone_zero r d digits = false ->
  List.length (literal_text s r (d :: digits) ++ x :: rest) < fuel ->
  thrown (readNumber fuel tz)
  = Some (GclErrorID.InvalidDigit,
          ("invalid digit `" ++ format_char x ++ "` for base "
             ++ format_int (radix_base r))%string).
Proof.
  intros Hcur Hall Hx Hnd Hlone Hfuel.
  assert (Hlen : List.length digits + List.length rest + 2
                 <= List.length (literal_text s r (d :: digits) ++ x :: rest)).
  { unfold literal_text. rewrite !List.length_app. simpl. lia. }
  destruct (@readNumber_reaches s r d digits (x :: rest) fuel tz pre Hcur Hall)
    as [[Hl _]|(tz3 & _ & Hcur3 & E)].
  - simpl. now rewrite Hnd.
  - congruence.
  - lia.
  - congruence.
  - rewrite E, bind_get, (cursor_char Hcur3), Hx. cbv zeta.
    destruct (advanceChar_returns tz3) as (ok & tz4 & E4 & _ & Hp4).
    rewrite (bind_Ok _ E4).
    pose proof (cursor_pending Hcur3) as Hp3. simpl in Hp3.
    destruct (@readNumber_skip_returns fuel tz4 ltac:(lia)) as (tz5 & E5).
    rewrite (bind_Ok _ E5). reflexivity.
Qed.

(** X10.  Digits have to end at something other than a letter or a digit.
    When an integer literal (optional sign, optional radix marker, digits of
    the base) other than a lone [0] is directly followed by a letter or by
    a digit that is not of the base, [parse] throws from the site
    [InvalidDigit], and the message names that character and the base. *)
Theorem parse_invalid_digit
  (s : Sign) (r : Radix) (d x : ascii) (digits rest : list ascii)
  (output : Value) (fuel : nat) :
  forallb (fun chr => isDigit chr (radix_base r)) (d :: digits) = true ->
  isAlnum x = true ->
  isDigit x (radix_base r) = false ->
  lone_zero r d digits = false ->
  fuel_for (List.length (literal_text s r (d :: digits) ++ x :: rest)) <= fuel ->
  thrown (parse fuel output (literal_text s r (d :: digits) ++ x :: rest)
                (List.length (literal_text s r (d :: digits) ++ x :: rest)))
  = Some (GclErrorID.InvalidDigit,
          ("invalid digit `" ++ format_char x ++ "` for base "
             ++ format_int (radix_base r))%string).
Proof.
  intros Hall Hx Hnd Hlone Hfuel. unfold fuel_for in Hfuel.
  assert (Hd : isDigit d (radix_base r) = true)
    by (simpl in Hall; apply andb_prop in Hall; tauto).
  destruct (literal_first_char s r d digits Hd)
    as (c & rest0 & Htext & _ & Hws & Hhash & Halpha).
  revert Hfuel. rewrite Htext. simpl app. intros Hfuel.
  destruct fuel as [|fuel]; [lia|].
  apply parse_throws_at_first_token.
  pose proof (setText_cursor c (rest0 ++ x :: rest)) as Hcur.
  apply advance_throws;
    [now rewrite (cursor_char Hcur)|now rewrite (cursor_char Hcur)|].
  set (tz0 := span_begin _).
  assert (Hcur0 : cursor tz0 [] (literal_text s r (d :: digits) ++ x :: rest))
    by (rewrite Htext; exact Hcur).
  assert (Hchr0 : m_char tz0 = c) by exact (cursor_char Hcur).
  clearbody tz0. unfold READ_METHODS.
  rewrite first_success_next by (apply readIdentifier_no; now rewrite Hchr0).
  simpl first_success. apply thrown_bind_left.
  apply (@readNumber_invalid_digit s r d x digits rest (S fuel) tz0 [] Hcur0 Hall Hx Hnd Hlone).
  rewrite Htext. simpl app. lia.
Qed.

Lemma parse_invalid_digit_witness :
  thrown (parse 7 Value_default (list_ascii_of_string "0b102,") 6)
  = Some (GclErrorID.InvalidDigit, "invalid digit `2` for base 2"%string).
Proof.
  exact (@parse_invalid_digit NoSign (Binary false) "1"%char "2"%char ["0"%char] [","%char]
           Value_default 7 eq_refl eq_refl eq_refl eq_refl (Nat.le_refl 7)).
Defined.

(* ----------------------------------------------------------------- *)
(** ** A lone zero *)

Lemma alpha_not_digit (c : ascii) : isAlpha c = true -> isDigit c 10 = false.
Proof.
  destruct c as [[] [] [] [] [] [] [] []]; vm_compute; intros H;
    try discriminate; reflexivity.
Qed.

(** X11.  A lone [0] ends at any character that is neither a decimal digit
    nor one of [b], [B], [x], [X]: there [readNumber] returns the token
    [Int 0] without its test for a letter after the digits.  So an optional
    sign and [0] directly followed by a word that starts with another
    letter parse to [Int 0], and nothing is thrown, where every other
    literal directly followed by a letter is an [InvalidDigit] error. *)
Theorem parse_zero_then_word
  (s : Sign) (c : ascii) (body rest : list ascii) (output : Value) (fuel : nat) :
  isAlpha c = true ->
  radix_marker c = false ->
  forallb word_char body = true ->
  stops word_char rest = true ->
  fuel_for (List.length (sign_chars s ++ "0"%char :: c :: body ++ rest)) <= fuel ->
  result (parse fuel output (sign_chars s ++ "0"%char :: c :: body ++ rest)
                (List.length (sign_chars s ++ "0"%char :: c :: body ++ rest)))
  = Some (true, Value_intptr 0).
Proof.
  intros Hc Hm Hbody Hstop Hfuel. unfold fuel_for in Hfuel.
  assert (Hlen : List.length body + 2
                 <= List.length (sign_chars s ++ "0"%char :: c :: body ++ rest))
    by (rewrite List.length_app; simpl; rewrite List.length_app; lia).
  destruct fuel as [|fuel]; [lia|].
  assert (Htext : sign_chars s ++ "0"%char :: c :: body ++ rest
                  = literal_text s Decimal ["0"%char] ++ c :: body ++ rest)
    by (unfold literal_text; simpl; now rewrite <- app_assoc).
  rewrite Htext in *. clear Htext.
  remember (literal_text s Decimal ["0"%char] ++ c :: body ++ rest) as text eqn:Htext.
  destruct (literal_first_char s Decimal "0"%char [] eq_refl)
    as (c0 & rest0 & Hfirst & _ & Hws & Hhash & Halpha).
  assert (Hshape : text = c0 :: rest0 ++ c :: body ++ rest)
    by (rewrite Htext, Hfirst; reflexivity).
  unfold parse. unfold bind at 1, modify.
  assert (Hcur : cursor (setText text (List.length text) Tokenizer.init) [] text)
    by (rewrite Hshape; apply setText_cursor).
  assert (Hchr : m_char (setText text (List.length text) Tokenizer.init) = c0)
    by (rewrite (cursor_hd Hcur), Hshape; reflexivity).
  (* the first token *)
  assert (Hadv : returns (advance (S fuel))
                         (setText text (List.length text) Tokenizer.init) true
                         (fun tz' => cursor tz' ([] ++ literal_text s Decimal ["0"%char])
                                            (c :: body ++ rest) /\
                                     Token.content (m_token tz') = tok_Int 0)).
  { apply (@advance_lexes fuel _ _ (c :: body ++ rest) (tok_Int 0));
      [now rewrite Hchr|now rewrite Hchr|].
    set (tz0 := span_begin _).
    assert (Hcur0 : cursor tz0 [] text) by exact Hcur.
    assert (Hchr0 : m_char tz0 = c0) by exact Hchr.
    clearbody tz0. unfold READ_METHODS. rewrite Htext in Hcur0.
    apply first_success_skip; [apply readIdentifier_no; now rewrite Hchr0|].
    apply first_success_done.
    destruct (@readNumber_reaches s Decimal "0"%char [] (c :: body ++ rest) (S fuel) tz0 []
                Hcur0 eq_refl)
      as [[_ H]|(tz3 & Hlone & _)].
    - simpl. now rewrite (alpha_not_digit c Hc).
    - intros _. exact Hm.
    - simpl. lia.
    - exact H.
    - discriminate. }
  destruct (returns_inv Hadv) as (tz1 & E1 & Hcur1 & Hcontent1).
  rewrite (bind_Ok _ E1).
  simpl. unfold bind at 1, token, get, Tokenizer.token. rewrite Hcontent1.
  destruct (returns_inv
              (@advance_word c body rest (S fuel) tz1 _ Hcur1 Hc Hbody Hstop ltac:(lia)))
    as (tz2 & E2 & _).
  rewrite (bind_Ok _ E2). reflexivity.
Qed.

Lemma parse_zero_then_word_witness :
  result (parse 6 Value_default (list_ascii_of_string "-0zip") 5)
  = Some (true, Value_intptr 0).
Proof.
  exact (@parse_zero_then_word Minus "z"%char (list_ascii_of_string "ip") [] Value_default 6
           eq_refl eq_refl eq_refl eq_refl (Nat.le_refl 6)).
Defined.

(* ----------------------------------------------------------------- *)
(** ** Punctuation *)

Lemma advance_punctuation (p : Punctuaction.t) (rest : list ascii) (fuel : nat)
      (tz : Tokenizer.t) (pre : list ascii) :
  cursor tz pre (punct_char p :: rest) ->
  returns (advance (S fuel)) tz true
          (fun tz' => cursor tz' (pre ++ [punct_char p]) rest /\
                      Token.content (m_token tz') = tok_Punctuaction p).
Proof.
  intros Hcur. pose proof (cursor_char Hcur) as Hchr.
  apply (@advance_lexes fuel tz _ rest (tok_Punctuaction p));
    [rewrite Hchr; now destruct p|rewrite Hchr; now destruct p|].
  set (tz0 := span_begin _).
  assert (Hcur0 : cursor tz0 pre (punct_char p :: rest)) by exact Hcur.
  assert (Hchr0 : m_char tz0 = punct_char p) by exact Hchr.
  clearbody tz0. unfold READ_METHODS.
  apply first_success_skip; [apply readIdentifier_no; rewrite Hchr0; now destruct p|].
  apply first_success_skip; [apply readNumber_no; rewrite Hchr0; now destruct p|].
  apply first_success_done.
  unfold readPunctuaction. apply returns_get. rewrite Hchr0.
  destruct p; reduce_tests; cbv iota;
    (advance_cursor Hcur0;
     unfold set_content, modify, returns, bind; simpl;
     split; [reflexivity|]; split; [|reflexivity];
     apply cursor_with_content; exact Hcur1).
Qed.

(* ----------------------------------------------------------------- *)
(** ** Blanks and comments *)

Lemma advanceChar_at_end tz pre :
  cursor tz pre [] ->
  advanceChar tz = Ok false (with_char NUL tz) /\ cursor (with_char NUL tz) pre [].
Proof.
  intros [Hc Hlen]. unfold advanceChar.
  assert (E : (m_length tz <=? m_index tz + 1) = true) by (apply Nat.leb_le; lia).
  rewrite E. split; [reflexivity|]. split; [reflexivity|exact Hlen].
Qed.

Lemma stops_hd (p : ascii -> bool) (rest : list ascii) :
  p NUL = false -> stops p rest = true -> p (hd NUL rest) = false.
Proof.
  intros Hnul. destruct rest as [|x rest]; [intros _; exact Hnul|].
  simpl. intros H. now apply negb_true_iff in H.
Qed.

Lemma skipWhitespace_run :
  forall blanks fuel tz pre rest,
    cursor tz pre (blanks ++ rest) ->
    forallb blank blanks = true ->
    stops blank rest = true ->
    List.length blanks < fuel ->
    returns (skipWhitespace fuel) tz tt
            (fun tz' => cursor tz' (pre ++ blanks) rest /\ m_token tz' = m_token tz).
Proof.
  induction blanks as [|b blanks IH]; intros fuel tz pre rest Hcur Hb Hstop Hfuel;
    (destruct fuel as [|fuel]; [simpl in Hfuel; lia|]); simpl skipWhitespace.
  - simpl in Hcur. apply returns_get. rewrite (cursor_hd Hcur).
    fold (blank (hd NUL rest)). rewrite (stops_hd blank rest eq_refl Hstop).
    apply returns_ret. rewrite app_nil_r. split; [exact Hcur|reflexivity].
  - simpl in Hb. apply andb_prop in Hb. destruct Hb as [Hb Hbs].
    simpl in Hcur. apply returns_get. rewrite (cursor_char Hcur).
    fold (blank b). rewrite Hb.
    advance_cursor Hcur.
    eapply returns_weaken; [apply IH; [exact Hcur0|exact Hbs|exact Hstop|simpl in Hfuel; lia]|].
    intros tz2 [Hcur2 Htok2]. rewrite <- app_assoc in Hcur2. split; [exact Hcur2|congruence].
Qed.

Lemma skipComment_loop_run :
  forall body fuel tz pre rest,
    cursor tz pre (body ++ rest) ->
    forallb no_newline body = true ->
    line_ends rest = true ->
    List.length body < fuel ->
    returns (skipComment_loop fuel) tz tt
            (fun tz' => cursor tz' (pre ++ body) rest /\ m_token tz' = m_token tz).
Proof.
  induction body as [|b body IH]; intros fuel tz pre rest Hcur Hb Hend Hfuel;
    (destruct fuel as [|fuel]; [simpl in Hfuel; lia|]); simpl skipComment_loop.
  - simpl in Hcur. apply returns_get. rewrite app_nil_r.
    destruct rest as [|x rest].
    + rewrite (cursor_end_char Hcur). reduce_tests.
      destruct (advanceChar_at_end Hcur) as [E Hcur1].
      unfold returns. rewrite (bind_Ok _ E). simpl.
      split; [reflexivity|]. split; [exact Hcur1|reflexivity].
    + simpl in Hend. rewrite (cursor_char Hcur), Hend. simpl.
      apply returns_ret. split; [exact Hcur|reflexivity].
  - simpl in Hb. apply andb_prop in Hb. destruct Hb as [Hb Hbs].
    simpl in Hcur. apply returns_get. rewrite (cursor_char Hcur).
    unfold no_newline in Hb. rewrite Hb.
    advance_cursor Hcur.
    destruct (body ++ rest) as [|y l] eqn:Hl.
    + apply app_eq_nil in Hl. destruct Hl as [-> ->]. simpl.
      apply returns_ret. split; [exact Hcur0|exact Htok].
    + simpl. rewrite <- Hl in Hcur0.
      eapply returns_weaken; [apply IH; [exact Hcur0|exact Hbs|exact Hend|simpl in Hfuel; lia]|].
      intros tz2 [Hcur2 Htok2]. rewrite <- app_assoc in Hcur2.
      split; [exact Hcur2|congruence].
Qed.

Lemma comment_text_length (piece : list ascii * list ascii) :
  List.length (comment_text piece)
  = List.length (fst piece) + List.length (snd piece) + 2.
Proof. unfold comment_text. simpl. rewrite List.length_app. simpl. lia. Qed.

(** The comment loop of [advance] over comments. *)
Lemma skipComments_run :
  forall comments fuel n tz pre rest,
    cursor tz pre (flat_map comment_text comments ++ rest) ->
    forallb comment_ok comments = true ->
    token_ahead rest = true ->
    List.length (flat_map comment_text comments) < fuel ->
    List.length comments < n ->
    returns (skipComments fuel n) tz tt
            (fun tz' => cursor tz' (pre ++ flat_map comment_text comments) rest /\
                        m_token tz' = m_token tz).
Proof.
  induction comments as [|[body blanks] comments IH];
    intros fuel n tz pre rest Hcur Hok Hrest Hfuel Hn;
    (destruct n as [|n]; [simpl in Hn; lia|]); simpl skipComments.
  - simpl in Hcur. apply returns_get. rewrite (cursor_hd Hcur), app_nil_r.
    assert (E : Ascii.eqb (hd NUL rest) "#" = false).
    { destruct rest as [|x rest]; [reflexivity|]. simpl in Hrest |- *.
      apply andb_prop in Hrest. destruct Hrest as [_ H]. now apply negb_true_iff in H. }
    rewrite E. apply returns_ret. split; [exact Hcur|reflexivity].
  - simpl in Hok. apply andb_prop in Hok. destruct Hok as [Hpiece Hok].
    unfold comment_ok in Hpiece. simpl in Hpiece.
    apply andb_prop in Hpiece. destruct Hpiece as [Hbody Hblanks].
    change (flat_map comment_text ((body, blanks) :: comments))
      with (comment_text (body, blanks) ++ flat_map comment_text comments) in *.
    rewrite List.length_app, comment_text_length in Hfuel. simpl in Hfuel.
    change (comment_text (body, blanks)) with ("#"%char :: body ++ LF :: blanks) in *.
    simpl app in Hcur. rewrite <- !app_assoc in Hcur. simpl app in Hcur.
    apply returns_get. rewrite (cursor_char Hcur). reduce_tests.
    unfold skipComment.
    apply returns_bind
      with (x := tt)
           (P := fun tz' =>
                   cursor tz' ((pre ++ ["#"%char]) ++ body)
                          (LF :: blanks ++ flat_map comment_text comments ++ rest) /\
                   m_token tz' = m_token tz).
    { advance_cursor Hcur.
      eapply returns_weaken;
        [apply (@skipComment_loop_run body fuel tz0 _
                  (LF :: blanks ++ flat_map comment_text comments ++ rest)
                  Hcur0 Hbody eq_refl); lia|].
      intros tz1 [Hcur1 Htok1]. split; [exact Hcur1|congruence]. }
    cbv beta. intros tz1 [Hcur1 Htok1].
    eapply returns_bind.
    { change (LF :: blanks ++ flat_map comment_text comments ++ rest)
        with ((LF :: blanks) ++ flat_map comment_text comments ++ rest) in Hcur1.
      apply (@skipWhitespace_run (LF :: blanks) fuel tz1 _ _ Hcur1).
      - simpl. exact Hblanks.
      - destruct comments as [|[body2 blanks2] comments2]; simpl.
        + destruct rest as [|x rest]; [reflexivity|]. simpl in Hrest |- *.
          apply andb_prop in Hrest. tauto.
        + reflexivity.
      - simpl. lia. }
    cbv beta. intros tz2 [Hcur2 Htok2].
    eapply returns_weaken;
      [apply IH; [exact Hcur2|exact Hok|exact Hrest|lia|simpl in Hn; lia]|].
    intros tz3 [Hcur3 Htok3]. split; [|congruence].
    simpl. rewrite <- !app_assoc in Hcur3 |- *. simpl in Hcur3 |- *.
    rewrite <- !app_assoc in Hcur3. exact Hcur3.
Qed.

Lemma token_ahead_hd (rest : list ascii) :
  token_ahead rest = true ->
  blank (hd NUL rest) = false /\ Ascii.eqb (hd NUL rest) "#" = false.
Proof.
  destruct rest as [|x rest]; [intros _; split; reflexivity|].
  simpl. intros H. apply andb_prop in H. destruct H as [H1 H2].
  apply negb_true_iff in H1. apply negb_true_iff in H2. now split.
Qed.

Lemma trivia_text_length (trivia : list ascii * list (list ascii * list ascii)) :
  List.length (fst trivia) + List.length (snd trivia)
  <= List.length (trivia_text trivia).
Proof.
  unfold trivia_text. rewrite List.length_app.
  assert (H : List.length (snd trivia) <= List.length (flat_map comment_text (snd trivia))).
  { induction (snd trivia) as [|piece l IH]; [simpl; lia|].
    change (flat_map comment_text (piece :: l))
      with (comment_text piece ++ flat_map comment_text l).
    rewrite List.length_app, comment_text_length. simpl. lia. }
  lia.
Qed.

(** [advance] from blanks and comments is [advance] from the text after
    them. *)
Lemma advance_skips_trivia (trivia : list ascii * list (list ascii * list ascii))
      (rest : list ascii) (fuel : nat) (tz : Tokenizer.t) (pre : list ascii) :
  cursor tz pre (trivia_text trivia ++ rest) ->
  trivia_ok trivia = true ->
  token_ahead rest = true ->
  List.length (trivia_text trivia) < fuel ->
  exists tz',
    cursor tz' (pre ++ trivia_text trivia) rest /\
    m_token tz' = m_token tz /\
    advance fuel tz = advance fuel tz'.
Proof.
  intros Hcur Hok Hrest Hfuel.
  destruct trivia as [lead comments]. unfold trivia_ok in Hok. simpl in Hok.
  apply andb_prop in Hok. destruct Hok as [Hlead Hcomments].
  pose proof (trivia_text_length (lead, comments)) as Hlen. simpl in Hlen.
  unfold trivia_text in *. simpl fst in *. simpl snd in *.
  rewrite List.length_app in Hfuel, Hlen. rewrite <- app_assoc in Hcur.
  assert (Hstop : stops blank (flat_map comment_text comments ++ rest) = true).
  { destruct comments as [|[body blanks] comments]; simpl.
    - destruct rest as [|x rest]; [reflexivity|]. simpl in Hrest |- *.
      apply andb_prop in Hrest. tauto.
    - reflexivity. }
  destruct (returns_inv (@skipWhitespace_run lead fuel tz pre _ Hcur Hlead Hstop ltac:(lia)))
    as (tz1 & E1 & Hcur1 & Htok1).
  destruct (returns_inv
              (@skipComments_run comments fuel fuel tz1 _ rest Hcur1 Hcomments Hrest
                 ltac:(lia) ltac:(lia)))
    as (tz2 & E2 & Hcur2 & Htok2).
  exists tz2. rewrite <- app_assoc in Hcur2.
  split; [exact Hcur2|]. split; [congruence|].
  destruct (token_ahead_hd rest Hrest) as [Hb Hh].
  rewrite <- (cursor_hd Hcur2) in Hb, Hh.
  destruct fuel as [|fuel]; [lia|].
  rewrite (advance_start fuel tz2 Hb Hh).
  unfold advance. rewrite (bind_Ok _ E1), (bind_Ok _ E2).
  unfold bind at 1, modify. unfold bind at 1. reflexivity.
Qed.

(* ================================================================= *)
(** * Token streams *)

Lemma item_token_ahead (item : Item) (rest : list ascii) :
  item_ok item = true -> token_ahead (item_text item ++ rest) = true.
Proof.
  destruct item as [c body|s r d digits|p|content]; simpl item_text; intros Hok.
  - simpl in Hok. apply andb_prop in Hok. destruct Hok as [Hc _].
    destruct (alpha_facts c Hc) as [Hb Hh]. simpl. now rewrite Hb, Hh.
  - assert (Hd : isDigit d (radix_base r) = true)
      by (simpl in Hok; apply andb_prop in Hok; tauto).
    destruct (literal_first_char s r d digits Hd) as (c & rest0 & Htext & _ & Hws & Hhash & _).
    rewrite Htext. simpl. unfold blank. now rewrite Hws, Hhash.
  - destruct p; reflexivity.
  - reflexivity.
Qed.

Lemma advance_item (item : Item) (rest : list ascii) (fuel : nat)
      (tz : Tokenizer.t) (pre : list ascii) :
  cursor tz pre (item_text item ++ rest) ->
  item_ok item = true ->
  item_ends item rest = true ->
  List.length (item_text item) < fuel ->
  returns (advance fuel) tz true
          (fun tz' => cursor tz' (pre ++ item_text item) rest /\
                      Token.content (m_token tz') = item_content item).
Proof.
  destruct item as [c body|s r d digits|p|content];
    simpl item_text; simpl item_ok; simpl item_ends; simpl item_content;
    intros Hcur Hok Hends Hfuel.
  - apply andb_prop in Hok. destruct Hok as [Hc Hbody].
    simpl in Hfuel. apply advance_word; try assumption. lia.
  - apply advance_literal_rest; try assumption.
    unfold literal_text in Hfuel. rewrite !List.length_app in Hfuel. simpl in Hfuel. lia.
  - destruct fuel as [|fuel]; [simpl in Hfuel; lia|].
    now apply advance_punctuation.
  - simpl in Hcur. rewrite <- app_assoc in Hcur. simpl in Hcur.
    apply advance_string; [exact Hcur|].
    simpl in Hfuel. rewrite List.length_app in Hfuel. simpl in Hfuel.
    pose proof (flat_map_escaped_length content). lia.
Qed.

Lemma advance_elem (elem : Trivia * Item) (rest : list ascii) (fuel : nat)
      (tz : Tokenizer.t) (pre : list ascii) :
  cursor tz pre (elem_text elem ++ rest) ->
  trivia_ok (fst elem) = true ->
  item_ok (snd elem) = true ->
  item_ends (snd elem) rest = true ->
  List.length (elem_text elem) < fuel ->
  returns (advance fuel) tz true
          (fun tz' => cursor tz' (pre ++ elem_text elem) rest /\
                      Token.content (m_token tz') = item_content (snd elem)).
Proof.
  destruct elem as [trivia item]. unfold elem_text. simpl fst. simpl snd.
  intros Hcur Htrivia Hok Hends Hfuel.
  rewrite List.length_app in Hfuel. rewrite <- app_assoc in Hcur.
  destruct (@advance_skips_trivia trivia (item_text item ++ rest) fuel tz pre Hcur Htrivia
              (item_token_ahead item rest Hok) ltac:(lia))
    as (tz1 & Hcur1 & Htok1 & E).
  unfold returns. rewrite E.
  eapply returns_weaken; [apply (@advance_item item rest fuel tz1 _ Hcur1 Hok Hends); lia|].
  intros tz2 [Hcur2 Hcontent]. rewrite <- app_assoc in Hcur2. now split.
Qed.

Lemma advance_tail (tail : Trivia) (fuel : nat) (tz : Tokenizer.t) (pre : list ascii) :
  cursor tz pre (trivia_text tail) ->
  trivia_ok tail = true ->
  List.length (trivia_text tail) < fuel ->
  returns (advance fuel) tz false
          (fun tz' => Token.content (m_token tz') = tok_Eof).
Proof.
  intros Hcur Hok Hfuel.
  rewrite <- (app_nil_r (trivia_text tail)) in Hcur.
  destruct (@advance_skips_trivia tail [] fuel tz pre Hcur Hok eq_refl Hfuel)
    as (tz1 & Hcur1 & Htok1 & E).
  unfold returns. rewrite E.
  destruct fuel as [|fuel]; [lia|].
  pose proof (cursor_end_char Hcur1) as Hchr.
  eapply returns_weaken.
  - apply (@advance_lexes fuel tz1 (pre ++ trivia_text tail) [] tok_Eof);
      [now rewrite Hchr|now rewrite Hchr|].
    set (tz0 := span_begin _).
    assert (Hcur0 : cursor tz0 (pre ++ trivia_text tail) []) by exact Hcur1.
    assert (Hchr0 : m_char tz0 = NUL) by exact Hchr.
    clearbody tz0. unfold READ_METHODS.
    apply first_success_skip; [apply readIdentifier_no; now rewrite Hchr0|].
    apply first_success_skip; [apply readNumber_no; now rewrite Hchr0|].
    apply first_success_skip; [apply readPunctuaction_no; now rewrite Hchr0|].
    apply first_success_skip; [apply readString_no; now rewrite Hchr0|].
    apply first_success_done.
    unfold readMisc. apply returns_get. rewrite Hchr0. reduce_tests.
    unfold set_content, modify, returns, bind. simpl.
    split; [reflexivity|]. split; [|reflexivity].
    apply cursor_with_content. exact Hcur0.
  - intros tz2 [_ Hcontent]. exact Hcontent.
Qed.

Lemma stream_text_cons (elem : Trivia * Item) (elems : list (Trivia * Item)) (tail : Trivia) :
  stream_text (elem :: elems) tail = elem_text elem ++ stream_text elems tail.
Proof. unfold stream_text. simpl. now rewrite <- app_assoc. Qed.

(** [advance] takes the tokenizer from one item of the stream to the
    next. *)
Lemma advance_upcoming (tfuel : nat) (tz : Tokenizer.t)
      (elems : list (Trivia * Item)) (tail : Trivia) :
  upcoming tfuel tz elems tail ->
  returns (advance tfuel) tz (match elems with [] => false | _ => true end)
          (fun tz' => current tfuel tz' elems tail).
Proof.
  intros ([pre Hcur] & Hok & Hfuel).
  destruct elems as [|elem elems].
  - unfold stream_text in Hcur, Hfuel. simpl in Hcur, Hfuel, Hok.
    now apply (@advance_tail tail tfuel tz pre).
  - rewrite stream_text_cons in Hcur, Hfuel. rewrite List.length_app in Hfuel.
    simpl in Hok.
    apply andb_prop in Hok. destruct Hok as [Hok Hrest].
    apply andb_prop in Hok. destruct Hok as [Hok Hends].
    apply andb_prop in Hok. destruct Hok as [Htrivia Hitem].
    eapply returns_weaken;
      [apply (@advance_elem elem _ tfuel tz pre Hcur Htrivia Hitem Hends); lia|].
    intros tz1 [Hcur1 Hcontent]. split; [exact Hcontent|].
    split; [now exists (pre ++ elem_text elem)|]. split; [exact Hrest|lia].
Qed.

Lemma upcoming_with_content (tfuel : nat) (c : TokenData) (tz : Tokenizer.t)
      (elems : list (Trivia * Item)) (tail : Trivia) :
  upcoming tfuel tz elems tail -> upcoming tfuel (with_content c tz) elems tail.
Proof.
  intros ([pre Hcur] & Hok & Hfuel). split; [|now split].
  exists pre. now apply cursor_with_content.
Qed.

(* ================================================================= *)
(** * Documents *)

Section InsertFresh.
Variable V : Type.
Implicit Types (m : StdMap.t V) (kv : string * V).

(** A key that is not present is inserted. *)
Lemma insert_fresh kv m :
  ~ In (fst kv) (StdMap.keys m) ->
  snd (StdMap.insert kv m) = true /\
  (forall k, In k (StdMap.keys (fst (fst (StdMap.insert kv m))))
             <-> k = fst kv \/ In k (StdMap.keys m)).
Proof.
  induction m as [|[k' v'] rest IH]; intros Hfresh.
  - simpl. split; [reflexivity|]. intros k. split.
    + intros [H|[]]. now left.
    + intros [H|[]]. now left.
  - simpl. destruct (String.compare (fst kv) k') eqn:Hcmp.
    + exfalso. apply Hfresh. left. simpl.
      apply String.compare_eq_iff in Hcmp. congruence.
    + simpl. split; [reflexivity|]. intros k. split.
      * intros [H|H]; [now left|now right].
      * intros [H|H]; [now left|now right].
    + assert (Hrest : ~ In (fst kv) (StdMap.keys rest))
        by (intros H; apply Hfresh; now right).
      destruct (IH Hrest) as [Hok Hkeys].
      destruct (StdMap.insert kv rest) as [[rest' it] ok]. simpl in *.
      split; [exact Hok|]. intros k. rewrite Hkeys. tauto.
Qed.
End InsertFresh.

Lemma existsb_eqb_In (key : string) (keys : list string) :
  existsb (String.eqb key) keys = false -> ~ In key keys.
Proof.
  intros H Hin.
  assert (E : existsb (String.eqb key) keys = true).
  { apply existsb_exists. exists key. split; [exact Hin|apply String.eqb_refl]. }
  congruence.
Qed.

Lemma move_ctor_doc_value (doc : Doc) : fst (move_ctor (doc_value doc)) = doc_value doc.
Proof. destruct doc; reflexivity. Qed.

Lemma separated_cons (sep : Item) (g g' : list Item) (gs : list (list Item)) :
  separated sep (g :: g' :: gs) = g ++ sep :: separated sep (g' :: gs).
Proof. reflexivity. Qed.

Lemma current_token (tfuel : nat) (tz : Tokenizer.t) (elem : Trivia * Item)
      (elems : list (Trivia * Item)) (tail : Trivia) (item : Item) :
  snd elem = item ->
  current tfuel tz (elem :: elems) tail ->
  Token.content (Tokenizer.token tz) = item_content item /\
  upcoming tfuel tz elems tail.
Proof. intros <- H. exact H. Qed.

Section Containers.
Variables (tfuel bound : nat) (tail : Trivia) (pv : Value -> M (bool * Value)).

Hypothesis Hpv :
  forall doc elems k output tz,
    List.length (doc_items doc) < bound ->
    doc_ok doc = true ->
    map snd elems = doc_items doc ->
    current tfuel tz (elems ++ k) tail ->
    returns (pv output) tz (true, doc_value doc)
            (fun tz' => current tfuel tz' k tail).

Lemma parseArray_loop_docs :
  forall ds d n acc elems ec k tz,
    map snd elems = separated (IPunct Punctuaction.Comma) (map doc_items (d :: ds)) ->
    snd ec = IPunct Punctuaction.Rsqb ->
    forallb doc_ok (d :: ds) = true ->
    Forall (fun x => List.length (doc_items x) < bound) (d :: ds) ->
    List.length ds < n ->
    current tfuel tz (elems ++ ec :: k) tail ->
    returns (parseArray_loop tfuel pv n acc) tz (acc ++ map doc_value (d :: ds))
            (fun tz' => current tfuel tz' (ec :: k) tail).
Proof.
  induction ds as [|d2 ds IH]; intros d n acc elems ec k tz Hitems Hec Hok Hsize Hn Hcur;
    (destruct n as [|n]; [simpl in Hn; lia|]); cbn [parseArray_loop];
    simpl in Hok; apply andb_prop in Hok; destruct Hok as [Hd Hok];
    inversion Hsize as [|? ? Hsized Hsizes]; subst.
  - simpl in Hitems. rewrite app_nil_r in Hitems.
    eapply returns_bind; [apply (Hpv d elems (ec :: k) Value_default tz Hsized Hd Hitems Hcur)|].
    intros tz1 Hcur1. cbv beta iota.
    destruct (current_token Hec Hcur1) as [Hcontent _].
    apply returns_get. unfold Token.is_punctuaction. rewrite Hcontent. simpl.
    rewrite move_ctor_doc_value. apply returns_ret. exact Hcur1.
  - change (map doc_items (d :: d2 :: ds))
      with (doc_items d :: doc_items d2 :: map doc_items ds) in Hitems.
    rewrite separated_cons in Hitems.
    apply map_eq_app in Hitems. destruct Hitems as (e1 & e2 & -> & He1 & He2).
    apply map_eq_cons in He2. destruct He2 as (ecomma & e3 & -> & Hcomma & He3).
    rewrite <- app_assoc in Hcur. simpl in Hcur.
    eapply returns_bind;
      [apply (Hpv d e1 (ecomma :: e3 ++ ec :: k) Value_default tz Hsized Hd He1 Hcur)|].
    intros tz1 Hcur1. cbv beta iota.
    destruct (current_token Hcomma Hcur1) as [Hcontent Hup].
    apply returns_get. unfold Token.is_punctuaction. rewrite Hcontent. simpl.
    eapply returns_bind; [apply (advance_upcoming Hup)|].
    intros tz2 Hcur2. rewrite move_ctor_doc_value.
    eapply returns_weaken.
    + eapply returns_eq_value;
        [|apply (IH d2 n (acc ++ [doc_value d]) e3 ec k tz2 He3 Hec Hok Hsizes
                    ltac:(simpl in Hn; lia) Hcur2)].
      rewrite <- app_assoc. reflexivity.
    + auto.
Qed.

Lemma parseArray_docs (ds : list Doc) (d : Doc) (n : nat)
      (eopen : Trivia * Item) (elems : list (Trivia * Item)) (ec : Trivia * Item)
      (k : list (Trivia * Item)) (tz : Tokenizer.t) :
  map snd elems = separated (IPunct Punctuaction.Comma) (map doc_items (d :: ds)) ->
  snd ec = IPunct Punctuaction.Rsqb ->
  forallb doc_ok (d :: ds) = true ->
  Forall (fun x => List.length (doc_items x) < bound) (d :: ds) ->
  List.length ds < n ->
  current tfuel tz (eopen :: elems ++ ec :: k) tail ->
  returns (parseArray tfuel pv n []) tz (map doc_value (d :: ds))
          (fun tz' => current tfuel tz' k tail).
Proof.
  intros Hitems Hec Hok Hsize Hn [_ Hup]. unfold parseArray.
  eapply returns_bind; [apply (advance_upcoming Hup)|].
  intros tz1 Hcur1.
  eapply returns_bind;
    [apply (@parseArray_loop_docs ds d n [] elems ec k tz1 Hitems Hec Hok Hsize Hn Hcur1)|].
  intros tz2 Hcur2. cbv beta.
  destruct (current_token Hec Hcur2) as [Hcontent Hup2].
  apply returns_get. unfold Token.is_punctuaction. rewrite Hcontent. simpl.
  eapply returns_bind; [apply (advance_upcoming Hup2)|].
  intros tz3 Hcur3. apply returns_ret. exact Hcur3.
Qed.
Lemma returns_set_content {B} (c : TokenData) (k : unit -> M B) tz y
      (Q : Tokenizer.t -> Prop) :
  returns (k tt) (with_content c tz) y Q -> returns (bind (set_content c) k) tz y Q.
Proof. intros H. exact H. Qed.

Lemma entry_items_split (e : ascii * list ascii * Doc) (X : list Item)
      (elems : list (Trivia * Item)) :
  map snd elems = entry_items e ++ X ->
  exists ekey ecolon ed eX,
    elems = ekey :: ecolon :: ed ++ eX /\
    snd ekey = IWord (fst (fst e)) (snd (fst e)) /\
    snd ecolon = IPunct Punctuaction.Colon /\
    map snd ed = doc_items (snd e) /\
    map snd eX = X.
Proof.
  unfold entry_items. simpl. intros H.
  apply map_eq_cons in H. destruct H as (ekey & l1 & -> & Hkey & H).
  apply map_eq_cons in H. destruct H as (ecolon & l2 & -> & Hcolon & H).
  apply map_eq_app in H. destruct H as (ed & eX & -> & Hd & HX).
  now exists ekey, ecolon, ed, eX.
Qed.

Lemma distinct_cons (key : string) (keys : list string) :
  distinct (key :: keys) = true -> ~ In key keys /\ distinct keys = true.
Proof.
  simpl. intros H. apply andb_prop in H. destruct H as [H1 H2].
  apply negb_true_iff in H1. split; [now apply existsb_eqb_In|exact H2].
Qed.

Lemma parseDict_loop_docs :
  forall es e n acc elems ec k tz,
    map snd elems = separated (IPunct Punctuaction.Comma) (map entry_items (e :: es)) ->
    snd ec = IPunct Punctuaction.Rbrace ->
    forallb entry_ok (e :: es) = true ->
    Forall (fun x => List.length (doc_items (snd x)) < bound) (e :: es) ->
    List.length es < n ->
    distinct (map (fun x => fst (entry_value x)) (e :: es)) = true ->
    (forall x, In x (e :: es) -> ~ In (fst (entry_value x)) (StdMap.keys acc)) ->
    current tfuel tz (elems ++ ec :: k) tail ->
    returns (parseDict_loop tfuel pv n acc) tz
            (fold_left (fun m entry => fst (fst (StdMap.insert entry m)))
                       (map entry_value (e :: es)) acc)
            (fun tz' => current tfuel tz' (ec :: k) tail).
Proof.
  induction es as [|e2 es IH];
    intros e n acc elems ec k tz Hitems Hec Hok Hsize Hn Hdistinct Hfresh Hcur;
    (destruct n as [|n]; [simpl in Hn; lia|]); cbn [parseDict_loop];
    simpl in Hok; apply andb_prop in Hok; destruct Hok as [He Hok];
    unfold entry_ok in He;
    apply andb_prop in He; destruct He as [He Hd];
    inversion Hsize as [|? ? Hsized Hsizes]; subst;
    change (map entry_items (e :: ?l)) with (entry_items e :: map entry_items l) in Hitems.
  - change (separated (IPunct Punctuaction.Comma) (entry_items e :: map entry_items []))
      with (entry_items e ++ []) in Hitems.
    destruct (@entry_items_split e [] elems Hitems)
      as (ekey & ecolon & ed & eX & -> & Hkey & Hcolon & Hed & HX).
    apply map_eq_nil in HX. subst eX. rewrite app_nil_r in Hcur. simpl in Hcur.
    destruct (current_token Hkey Hcur) as [Hcontent Hup].
    apply returns_get. rewrite Hcontent. cbn [item_content].
    apply returns_set_content.
    eapply returns_bind;
      [apply (advance_upcoming (upcoming_with_content (tok_Identifier EmptyString) Hup))|].
    intros tz1 Hcur1. cbv beta.
    destruct (current_token Hcolon Hcur1) as [Hcontent1 Hup1].
    apply returns_get. unfold Token.is_punctuaction. rewrite Hcontent1. simpl negb. cbv iota.
    eapply returns_bind; [apply (advance_upcoming Hup1)|].
    intros tz2 Hcur2. cbv beta.
    eapply returns_bind;
      [apply (Hpv (snd e) ed (ec :: k) Value_default tz2 Hsized Hd Hed Hcur2)|].
    intros tz3 Hcur3. cbv beta iota.
    destruct (current_token Hec Hcur3) as [Hcontent3 _].
    apply returns_get. simpl negb. cbv iota.
    rewrite move_ctor_doc_value.
    destruct (@insert_fresh Value (entry_value e) acc (Hfresh e (or_introl eq_refl)))
      as [Hins _].
    change (map entry_value [e]) with [entry_value e]. cbn [fold_left].
    assert (E : StdMap.insert
                  (string_of_list_ascii (fst (fst e) :: snd (fst e)), doc_value (snd e)) acc
                = StdMap.insert (entry_value e) acc) by reflexivity.
    rewrite E. clear E.
    destruct (StdMap.insert (entry_value e) acc) as [[acc' it] inserted].
    simpl in Hins. subst inserted.
    simpl negb. cbv iota.
    unfold Token.is_punctuaction. rewrite Hcontent3. simpl.
    apply returns_ret. exact Hcur3.
  - change (map entry_items (e2 :: es)) with (entry_items e2 :: map entry_items es) in Hitems.
    rewrite separated_cons in Hitems.
    destruct (@entry_items_split e _ elems Hitems)
      as (ekey & ecolon & ed & eX & -> & Hkey & Hcolon & Hed & HX).
    apply map_eq_cons in HX. destruct HX as (ecomma & eX' & -> & Hcomma & HX').
    simpl in Hcur. rewrite <- app_assoc in Hcur. simpl in Hcur.
    destruct (current_token Hkey Hcur) as [Hcontent Hup].
    apply returns_get. rewrite Hcontent. cbn [item_content].
    apply returns_set_content.
    eapply returns_bind;
      [apply (advance_upcoming (upcoming_with_content (tok_Identifier EmptyString) Hup))|].
    intros tz1 Hcur1. cbv beta.
    destruct (current_token Hcolon Hcur1) as [Hcontent1 Hup1].
    apply returns_get. unfold Token.is_punctuaction. rewrite Hcontent1. simpl negb. cbv iota.
    eapply returns_bind; [apply (advance_upcoming Hup1)|].
    intros tz2 Hcur2. cbv beta.
    eapply returns_bind;
      [apply (Hpv (snd e) ed (ecomma :: eX' ++ ec :: k) Value_default tz2 Hsized Hd Hed Hcur2)|].
    intros tz3 Hcur3. cbv beta iota.
    destruct (current_token Hcomma Hcur3) as [Hcontent3 Hup3].
    apply returns_get. simpl negb. cbv iota.
    rewrite move_ctor_doc_value.
    destruct (@insert_fresh Value (entry_value e) acc (Hfresh e (or_introl eq_refl)))
      as [Hins Hkeys].
    change (map entry_value (e :: e2 :: es))
      with (entry_value e :: map entry_value (e2 :: es)).
    cbn [fold_left].
    change (map (fun x => fst (entry_value x)) (e :: e2 :: es))
      with (fst (entry_value e) :: map (fun x => fst (entry_value x)) (e2 :: es))
      in Hdistinct.
    apply distinct_cons in Hdistinct. destruct Hdistinct as [Hnew Hdistinct].
    assert (Hfresh' : forall x, In x (e2 :: es) ->
                                ~ In (fst (entry_value x))
                                     (StdMap.keys (fst (fst (StdMap.insert (entry_value e) acc))))).
    { intros x Hx Hin. apply Hkeys in Hin. destruct Hin as [Heq|Hin].
      - apply Hnew. rewrite <- Heq.
        apply (in_map (fun x => fst (entry_value x))) in Hx. exact Hx.
      - exact (Hfresh x (or_intror Hx) Hin). }
    assert (E : StdMap.insert
                  (string_of_list_ascii (fst (fst e) :: snd (fst e)), doc_value (snd e)) acc
                = StdMap.insert (entry_value e) acc) by reflexivity.
    rewrite E. clear E.
    destruct (StdMap.insert (entry_value e) acc) as [[acc' it] inserted].
    simpl in Hins, Hfresh'. subst inserted.
    simpl negb. cbv iota.
    unfold Token.is_punctuaction. rewrite Hcontent3. simpl negb. cbv iota.
    eapply returns_bind; [apply (advance_upcoming Hup3)|].
    intros tz4 Hcur4.
    apply (IH e2 n acc' eX' ec k tz4 HX' Hec Hok Hsizes ltac:(simpl in Hn; lia)
              Hdistinct Hfresh' Hcur4).
Qed.

Lemma parseDict_docs (entries : list (ascii * list ascii * Doc)) (n : nat)
      (eopen : Trivia * Item) (elems : list (Trivia * Item)) (ec : Trivia * Item)
      (k : list (Trivia * Item)) (tz : Tokenizer.t) :
  map snd elems = separated (IPunct Punctuaction.Comma) (map entry_items entries) ->
  snd ec = IPunct Punctuaction.Rbrace ->
  forallb entry_ok entries = true ->
  Forall (fun x => List.length (doc_items (snd x)) < bound) entries ->
  List.length entries < n ->
  distinct (map (fun x => fst (entry_value x)) entries) = true ->
  current tfuel tz (eopen :: elems ++ ec :: k) tail ->
  returns (parseDict tfuel pv n []) tz (dict_of (map entry_value entries))
          (fun tz' => current tfuel tz' k tail).
Proof.
  intros Hitems Hec Hok Hsize Hn Hdistinct [_ Hup]. unfold parseDict.
  eapply returns_bind; [apply (advance_upcoming Hup)|].
  intros tz1 Hcur1.
  apply returns_bind
    with (x := dict_of (map entry_value entries))
         (P := fun tz' => current tfuel tz' (ec :: k) tail).
  - destruct entries as [|e es].
    + simpl in Hitems. apply map_eq_nil in Hitems. subst elems. simpl in Hcur1.
      destruct n as [|n]; [simpl in Hn; lia|]. cbn [parseDict_loop].
      destruct (current_token Hec Hcur1) as [Hcontent _].
      apply returns_get. rewrite Hcontent. simpl.
      apply returns_ret. exact Hcur1.
    + apply (@parseDict_loop_docs es e n [] elems ec k tz1 Hitems Hec Hok Hsize
               ltac:(simpl in Hn; lia) Hdistinct);
        [intros x _ []|exact Hcur1].
  - intros tz2 Hcur2. cbv beta.
    destruct (current_token Hec Hcur2) as [Hcontent Hup2].
    apply returns_get. unfold Token.is_punctuaction. rewrite Hcontent. simpl.
    eapply returns_bind; [apply (advance_upcoming Hup2)|].
    intros tz3 Hcur3. apply returns_ret. exact Hcur3.
Qed.
End Containers.

Lemma doc_items_nonempty (doc : Doc) : 1 <= List.length (doc_items doc).
Proof. destruct doc as [|[]| | | |]; simpl; lia. Qed.

Lemma flat_map_cons_bounds (sep : Item) (groups : list (list Item)) :
  List.length groups <= List.length (flat_map (fun g => sep :: g) groups) /\
  (forall g, In g groups ->
             List.length g < List.length (flat_map (fun g => sep :: g) groups)).
Proof.
  induction groups as [|g0 groups [IH1 IH2]]; simpl.
  - split; [lia|]. intros g [].
  - rewrite List.length_app. split; [lia|].
    intros g [->|Hin]; [lia|]. specialize (IH2 g Hin). lia.
Qed.

Lemma separated_bounds (sep : Item) (groups : list (list Item)) :
  (forall g, In g groups -> 1 <= List.length g) ->
  List.length groups <= List.length (separated sep groups) /\
  (forall g, In g groups -> List.length g <= List.length (separated sep groups)).
Proof.
  destruct groups as [|g0 groups]; intros Hne; simpl.
  - split; [lia|]. intros g [].
  - destruct (flat_map_cons_bounds sep groups) as [H1 H2].
    rewrite List.length_app. specialize (Hne g0 (or_introl eq_refl)).
    split; [lia|]. intros g [->|Hin]; [lia|]. specialize (H2 g Hin). lia.
Qed.

Lemma elements_bounds (elements : list Doc) (fuel : nat) :
  List.length (doc_items (DArray elements)) < S fuel ->
  List.length elements < fuel /\
  Forall (fun x => List.length (doc_items x) < fuel) elements.
Proof.
  simpl. rewrite List.length_app. simpl. intros H.
  destruct (separated_bounds (IPunct Punctuaction.Comma) (map doc_items elements))
    as [H1 H2].
  { intros g Hg. apply in_map_iff in Hg. destruct Hg as (d & <- & _).
    apply doc_items_nonempty. }
  rewrite List.length_map in H1. split; [lia|].
  apply Forall_forall. intros d Hd.
  specialize (H2 (doc_items d) (in_map doc_items _ _ Hd)). lia.
Qed.

Lemma entries_bounds (entries : list (ascii * list ascii * Doc)) (fuel : nat) :
  List.length (doc_items (DDict entries)) < S fuel ->
  List.length entries < fuel /\
  Forall (fun x => List.length (doc_items (snd x)) < fuel) entries.
Proof.
  change (doc_items (DDict entries))
    with (IPunct Punctuaction.Lbrace
            :: separated (IPunct Punctuaction.Comma) (map entry_items entries)
            ++ [IPunct Punctuaction.Rbrace]).
  cbn [List.length]. rewrite List.length_app. cbn [List.length]. intros H.
  destruct (separated_bounds (IPunct Punctuaction.Comma) (map entry_items entries))
    as [H1 H2].
  { intros g Hg. apply in_map_iff in Hg. destruct Hg as (e & <- & _).
    unfold entry_items. simpl. lia. }
  rewrite List.length_map in H1. split; [lia|].
  apply Forall_forall. intros e He.
  specialize (H2 (entry_items e) (in_map entry_items _ _ He)).
  change (List.length (entry_items e))
    with (S (S (List.length (doc_items (snd e))))) in H2.
  lia.
Qed.

Lemma map_snd_single (elems : list (Trivia * Item)) (item : Item) :
  map snd elems = [item] -> exists elem, elems = [elem] /\ snd elem = item.
Proof.
  intros H. apply map_eq_cons in H. destruct H as (elem & l & -> & He & Hl).
  apply map_eq_nil in Hl. subst l. now exists elem.
Qed.

Lemma map_snd_bracketed (elems : list (Trivia * Item)) (opening closing : Item)
      (inner : list Item) :
  map snd elems = opening :: inner ++ [closing] ->
  exists eopen einner eclose,
    elems = eopen :: einner ++ [eclose] /\
    snd eopen = opening /\ map snd einner = inner /\ snd eclose = closing.
Proof.
  intros H. apply map_eq_cons in H. destruct H as (eopen & l & -> & Hopen & H).
  apply map_eq_app in H. destruct H as (einner & l2 & -> & Hinner & H).
  destruct (map_snd_single _ H) as (eclose & -> & Hclose).
  now exists eopen, einner, eclose.
Qed.

(** [parseValue] on the tokens of a document: it returns [true] with the
    value of the document and leaves the tokenizer at the token after
    them. *)
Lemma parseValue_doc (tfuel : nat) (tail : Trivia) :
  forall fuel doc elems k output tz,
    List.length (doc_items doc) < fuel ->
    doc_ok doc = true ->
    map snd elems = doc_items doc ->
    current tfuel tz (elems ++ k) tail ->
    returns (parseValue tfuel fuel output) tz (true, doc_value doc)
            (fun tz' => current tfuel tz' k tail).
Proof.
  induction fuel as [|fuel IH]; intros doc elems k output tz Hsize Hok Hitems Hcur; [lia|].
  cbn [parseValue]. apply returns_get.
  destruct doc as [|b|s r d digits|content|elements|entries].
  - (* null *)
    destruct (map_snd_single _ Hitems) as (elem & -> & Helem).
    destruct (current_token Helem Hcur) as [Hcontent Hup].
    rewrite Hcontent. simpl.
    eapply returns_bind; [apply (advance_upcoming Hup)|].
    intros tz1 Hcur1. apply returns_ret. exact Hcur1.
  - (* true, false *)
    destruct b;
      (destruct (map_snd_single _ Hitems) as (elem & -> & Helem);
       destruct (current_token Helem Hcur) as [Hcontent Hup];
       rewrite Hcontent; simpl;
       eapply returns_bind; [apply (advance_upcoming Hup)|];
       intros tz1 Hcur1; apply returns_ret; exact Hcur1).
  - (* a number *)
    destruct (map_snd_single _ Hitems) as (elem & -> & Helem).
    destruct (current_token Helem Hcur) as [Hcontent Hup].
    rewrite Hcontent. cbn [item_content].
    eapply returns_bind; [apply (advance_upcoming Hup)|].
    intros tz1 Hcur1. simpl in Hok.
    rewrite (lexed_value_literal s r d digits Hok).
    apply returns_ret. exact Hcur1.
  - (* a string *)
    destruct (map_snd_single _ Hitems) as (elem & -> & Helem).
    destruct (current_token Helem Hcur) as [Hcontent Hup].
    rewrite Hcontent. cbn [item_content].
    apply returns_set_content.
    eapply returns_bind;
      [apply (advance_upcoming (upcoming_with_content (tok_String EmptyString) Hup))|].
    intros tz1 Hcur1. apply returns_ret. exact Hcur1.
  - (* an array *)
    destruct (elements_bounds Hsize) as [Hn Hsizes].
    simpl in Hok. apply andb_prop in Hok. destruct Hok as [Hne Hok].
    destruct elements as [|d ds]; [discriminate|].
    change (doc_items (DArray (d :: ds)))
      with (IPunct Punctuaction.Lsqb
              :: separated (IPunct Punctuaction.Comma) (map doc_items (d :: ds))
              ++ [IPunct Punctuaction.Rsqb]) in Hitems.
    destruct (@map_snd_bracketed _ _ _ _ Hitems)
      as (eopen & einner & eclose & -> & Hopen & Hinner & Hclose).
    simpl in Hcur. rewrite <- app_assoc in Hcur. simpl in Hcur.
    destruct (current_token Hopen Hcur) as [Hcontent _].
    rewrite Hcontent. cbn [item_content]. simpl Punctuaction.eqb. cbv iota.
    eapply returns_bind.
    + apply (@parseArray_docs tfuel fuel tail (parseValue tfuel fuel) IH ds d fuel
               eopen einner eclose k tz Hinner Hclose Hok Hsizes
               ltac:(simpl in Hn; lia) Hcur).
    + intros tz1 Hcur1. apply returns_ret. exact Hcur1.
  - (* a dictionary *)
    destruct (entries_bounds Hsize) as [Hn Hsizes].
    change (doc_ok (DDict entries))
      with (forallb entry_ok entries
            && distinct (map (fun x => fst (entry_value x)) entries)) in Hok.
    apply andb_prop in Hok. destruct Hok as [Hok Hdistinct].
    change (doc_items (DDict entries))
      with (IPunct Punctuaction.Lbrace
              :: separated (IPunct Punctuaction.Comma) (map entry_items entries)
              ++ [IPunct Punctuaction.Rbrace]) in Hitems.
    destruct (@map_snd_bracketed _ _ _ _ Hitems)
      as (eopen & einner & eclose & -> & Hopen & Hinner & Hclose).
    simpl in Hcur. rewrite <- app_assoc in Hcur. simpl in Hcur.
    destruct (current_token Hopen Hcur) as [Hcontent _].
    rewrite Hcontent. cbn [item_content]. simpl Punctuaction.eqb. cbv iota.
    eapply returns_bind.
    + apply (@parseDict_docs tfuel fuel tail (parseValue tfuel fuel) IH entries fuel
               eopen einner eclose k tz Hinner Hclose Hok Hsizes Hn Hdistinct Hcur).
    + intros tz1 Hcur1. apply returns_ret. exact Hcur1.
Qed.

(* ----------------------------------------------------------------- *)
(** ** The tokens of a document are a stream *)

Lemma closed_items_app_punct (l1 l2 : list Item) (p : Punctuaction.t) :
  closed_items l1 = true ->
  closed_items l2 = true ->
  closed_items (l1 ++ IPunct p :: l2) = true.
Proof.
  intros H1 H2. induction l1 as [|a l1 IH]; [exact H2|].
  simpl in H1 |- *. apply andb_prop in H1. destruct H1 as [Ha H1].
  rewrite (IH H1), andb_true_r.
  destruct l1 as [|b l1]; [now destruct a|exact Ha].
Qed.

Lemma closed_items_flat_map (groups : list (list Item)) :
  forall g,
    closed_items g = true ->
    Forall (fun g => closed_items g = true) groups ->
    closed_items (g ++ flat_map (fun g' => IPunct Punctuaction.Comma :: g') groups) = true.
Proof.
  induction groups as [|g2 groups IH]; intros g Hg Hgs.
  - simpl. now rewrite app_nil_r.
  - inversion Hgs as [|? ? Hg2 Hgs']; subst. simpl.
    apply closed_items_app_punct; [exact Hg|]. now apply IH.
Qed.

Lemma closed_items_separated (groups : list (list Item)) :
  Forall (fun g => closed_items g = true) groups ->
  closed_items (separated (IPunct Punctuaction.Comma) groups) = true.
Proof.
  destruct groups as [|g groups]; [reflexivity|].
  intros H. inversion H as [|? ? Hg Hgs]; subst.
  now apply closed_items_flat_map.
Qed.

Lemma forallb_separated (f : Item -> bool) (sep : Item) (groups : list (list Item)) :
  f sep = true ->
  Forall (fun g => forallb f g = true) groups ->
  forallb f (separated sep groups) = true.
Proof.
  intros Hsep. destruct groups as [|g groups]; [reflexivity|].
  intros H. inversion H as [|? ? Hg Hgs]; subst. simpl.
  rewrite forallb_app, Hg. simpl. clear H Hg.
  induction groups as [|g2 groups IH]; [reflexivity|].
  inversion Hgs as [|? ? Hg2 Hgs']; subst. simpl.
  rewrite Hsep, forallb_app, Hg2. simpl. now apply IH.
Qed.

(** The items of a document are well-formed and closed. *)
Lemma doc_items_ok :
  forall n doc,
    List.length (doc_items doc) < n ->
    doc_ok doc = true ->
    forallb item_ok (doc_items doc) = true /\ closed_items (doc_items doc) = true.
Proof.
  induction n as [|n IH]; intros doc Hsize Hok; [lia|].
  destruct doc as [|b|s r d digits|content|elements|entries].
  - split; reflexivity.
  - destruct b; split; reflexivity.
  - simpl in Hok |- *. rewrite Hok. split; reflexivity.
  - split; reflexivity.
  - destruct (elements_bounds Hsize) as [_ Hsizes].
    simpl in Hok. apply andb_prop in Hok. destruct Hok as [_ Hok].
    assert (Hall : Forall (fun g => forallb item_ok g = true /\ closed_items g = true)
                          (map doc_items elements)).
    { apply Forall_forall. intros g Hg. apply in_map_iff in Hg.
      destruct Hg as (d & <- & Hd).
      rewrite Forall_forall in Hsizes. rewrite forallb_forall in Hok.
      apply IH; [apply (Hsizes d Hd)|apply (Hok d Hd)]. }
    change (doc_items (DArray elements))
      with (IPunct Punctuaction.Lsqb
              :: separated (IPunct Punctuaction.Comma) (map doc_items elements)
              ++ [IPunct Punctuaction.Rsqb]).
    split.
    + simpl. rewrite forallb_app. simpl. rewrite andb_true_r.
      apply forallb_separated; [reflexivity|].
      eapply Forall_impl; [|exact Hall]. intros g [H _]. exact H.
    + change (closed_items
                ([IPunct Punctuaction.Lsqb]
                   ++ separated (IPunct Punctuaction.Comma) (map doc_items elements)
                   ++ [IPunct Punctuaction.Rsqb]) = true).
      simpl app. cbn [closed_items]. simpl andb.
      apply closed_items_app_punct; [|reflexivity].
      apply closed_items_separated.
      eapply Forall_impl; [|exact Hall]. intros g [_ H]. exact H.
  - destruct (entries_bounds Hsize) as [_ Hsizes].
    change (doc_ok (DDict entries))
      with (forallb entry_ok entries
            && distinct (map (fun x => fst (entry_value x)) entries)) in Hok.
    apply andb_prop in Hok. destruct Hok as [Hok _].
    assert (Hall : Forall (fun g => forallb item_ok g = true /\ closed_items g = true)
                          (map entry_items entries)).
    { apply Forall_forall. intros g Hg. apply in_map_iff in Hg.
      destruct Hg as (e & <- & He).
      rewrite Forall_forall in Hsizes. rewrite forallb_forall in Hok.
      specialize (Hok e He). unfold entry_ok in Hok.
      apply andb_prop in Hok. destruct Hok as [Hkey Hd].
      destruct (IH (snd e) (Hsizes e He) Hd) as [H1 H2].
      unfold entry_items. split.
      - simpl. now rewrite Hkey, H1.
      - cbn [closed_items]. simpl andb. exact H2. }
    change (doc_items (DDict entries))
      with (IPunct Punctuaction.Lbrace
              :: separated (IPunct Punctuaction.Comma) (map entry_items entries)
              ++ [IPunct Punctuaction.Rbrace]).
    split.
    + simpl. rewrite forallb_app. simpl. rewrite andb_true_r.
      apply forallb_separated; [reflexivity|].
      eapply Forall_impl; [|exact Hall]. intros g [H _]. exact H.
    + cbn [closed_items]. simpl andb.
      apply closed_items_app_punct; [|reflexivity].
      apply closed_items_separated.
      eapply Forall_impl; [|exact Hall]. intros g [_ H]. exact H.
Qed.

Lemma blank_facts (c : ascii) :
  blank c = true -> word_char c = false /\ isAlnum c = false.
Proof.
  destruct c as [[] [] [] [] [] [] [] []]; vm_compute; intros H;
    try discriminate; split; reflexivity.
Qed.

Lemma safe_start_trivia (trivia : Trivia) (rest : list ascii) :
  trivia_ok trivia = true ->
  safe_start rest = true ->
  safe_start (trivia_text trivia ++ rest) = true.
Proof.
  destruct trivia as [lead comments]. unfold trivia_ok, trivia_text. simpl fst. simpl snd.
  intros Hok Hrest. apply andb_prop in Hok. destruct Hok as [Hlead _].
  destruct lead as [|b lead].
  - destruct comments as [|[body blanks] comments]; [exact Hrest|reflexivity].
  - simpl in Hlead. apply andb_prop in Hlead. destruct Hlead as [Hb _].
    destruct (blank_facts b Hb) as [H1 H2].
    unfold safe_start. simpl. now rewrite H1, H2.
Qed.

Lemma safe_start_punct (p : Punctuaction.t) (rest : list ascii) :
  safe_start (punct_char p :: rest) = true.
Proof. destruct p; reflexivity. Qed.

Lemma safe_start_ends (item : Item) (rest : list ascii) :
  safe_start rest = true -> item_ends item rest = true.
Proof.
  unfold safe_start. intros H. apply andb_prop in H. destruct H as [H1 H2].
  now destruct item.
Qed.

(** With any blanks and comments before each of them, and after the last,
    closed items make a stream. *)
Lemma closed_items_stream (tail : Trivia) :
  forall elems,
    forallb item_ok (map snd elems) = true ->
    closed_items (map snd elems) = true ->
    forallb trivia_ok (map fst elems) = true ->
    trivia_ok tail = true ->
    stream_ok elems tail = true.
Proof.
  induction elems as [|[trivia item] elems IH]; intros Hok Hclosed Htrivia Htail;
    [exact Htail|].
  simpl in Hok, Htrivia |- *. cbn [map closed_items snd] in Hclosed.
  apply andb_prop in Hok. destruct Hok as [Hitem Hok].
  apply andb_prop in Htrivia. destruct Htrivia as [Ht Htrivia].
  apply andb_prop in Hclosed. destruct Hclosed as [Hnext Hclosed].
  rewrite Ht, Hitem, (IH Hok Hclosed Htrivia Htail). simpl.
  rewrite andb_true_r.
  destruct elems as [|[trivia2 item2] elems].
  - apply safe_start_ends. unfold stream_text. simpl.
    rewrite <- (app_nil_r (trivia_text tail)). now apply safe_start_trivia.
  - rewrite stream_text_cons. unfold elem_text. simpl fst. simpl snd.
    simpl in Htrivia. apply andb_prop in Htrivia. destruct Htrivia as [Ht2 _].
    destruct item2 as [c2 body2|s2 r2 d2 digits2|p2|content2].
    + destruct item; try reflexivity; discriminate.
    + destruct item; try reflexivity; discriminate.
    + apply safe_start_ends. rewrite <- app_assoc.
      apply safe_start_trivia; [exact Ht2|]. apply safe_start_punct.
    + destruct item; try reflexivity; discriminate.
Qed.

Lemma item_text_nonempty (item : Item) : 1 <= List.length (item_text item).
Proof.
  destruct item as [c body|s r d digits|p|content]; simpl; try lia.
  unfold literal_text. rewrite !List.length_app. simpl. lia.
Qed.

Lemma stream_text_length (elems : list (Trivia * Item)) (tail : Trivia) :
  List.length elems <= List.length (stream_text elems tail).
Proof.
  induction elems as [|elem elems IH]; [simpl; lia|].
  rewrite stream_text_cons, List.length_app. unfold elem_text.
  rewrite List.length_app. pose proof (item_text_nonempty (snd elem)).
  simpl. lia.
Qed.

(** [parse] on the text of a stream that carries the tokens of a document. *)
Lemma parse_stream_of_doc
  (doc : Doc) (elems : list (Trivia * Item)) (tail : Trivia)
  (output : Value) (fuel : nat) :
  doc_ok doc = true ->
  map snd elems = doc_items doc ->
  forallb trivia_ok (map fst elems) = true ->
  trivia_ok tail = true ->
  fuel_for (List.length (stream_text elems tail)) <= fuel ->
  result (parse fuel output (stream_text elems tail)
                (List.length (stream_text elems tail)))
  = Some (true, doc_value doc).
Proof.
  intros Hok Hitems Htrivia Htail Hfuel. unfold fuel_for in Hfuel.
  destruct (@doc_items_ok _ doc (Nat.lt_succ_diag_r (List.length (doc_items doc))) Hok)
    as [Hitems_ok Hclosed].
  rewrite <- Hitems in Hitems_ok, Hclosed.
  pose proof (@closed_items_stream tail elems Hitems_ok Hclosed Htrivia Htail) as Hstream.
  pose proof (stream_text_length elems tail) as Hlen.
  assert (Hcount : List.length (doc_items doc) = List.length elems)
    by (rewrite <- Hitems; apply List.length_map).
  pose proof (doc_items_nonempty doc) as Hne.
  destruct (stream_text elems tail) as [|c rest] eqn:Htext; [simpl in Hlen; lia|].
  unfold parse. unfold bind at 1, modify.
  pose proof (setText_cursor c rest) as Hcur.
  assert (Hup : upcoming fuel (setText (c :: rest) (List.length (c :: rest)) Tokenizer.init)
                         elems tail).
  { split; [exists []; rewrite Htext; exact Hcur|].
    split; [exact Hstream|]. rewrite Htext. lia. }
  destruct (returns_inv (advance_upcoming Hup)) as (tz1 & E1 & Hcur1).
  rewrite (bind_Ok _ E1).
  rewrite <- (app_nil_r elems) in Hcur1.
  destruct (returns_inv
              (@parseValue_doc fuel tail fuel doc elems [] output tz1
                 ltac:(lia) Hok Hitems Hcur1))
    as (tz2 & E2 & _).
  rewrite E2. reflexivity.
Qed.



(* ----------------------------------------------------------------- *)
(** ** The tokens of a stream, one call after the other *)





(* ================================================================= *)
(** * Decimal notation *)

Lemma decimal_chars_digits (d : Decimal.uint) :
  forallb (fun chr => isDigit chr 10) (decimal_chars d) = true.
Proof. unfold decimal_chars. induction d; simpl; auto. Qed.

Lemma horner_decimal (d : Decimal.uint) :
  forall v, horner 10 (v mod 2 ^ 64) (decimal_chars d) = (decimal_value v d mod 2 ^ 64)%Z.
Proof.
  assert (HM : (2 ^ 64 <> 0)%Z) by (vm_compute; discriminate).
  assert (Hstep : forall v k : Z,
             ((v mod 2 ^ 64 * 10 + k) mod 2 ^ 64 = (v * 10 + k) mod 2 ^ 64)%Z).
  { intros v k. rewrite <- Z.add_mod_idemp_l by exact HM.
    rewrite Z.mul_mod_idemp_l by exact HM.
    rewrite Z.add_mod_idemp_l by exact HM. reflexivity. }
  unfold decimal_chars.
  induction d as [|d IH|d IH|d IH|d IH|d IH|d IH|d IH|d IH|d IH|d IH]; intros v;
    [reflexivity|..];
    cbn [NilEmpty.string_of_uint list_ascii_of_string horner decimal_value];
    match goal with
    | |- context [digit_value ?c] =>
        let k := eval vm_compute in (digit_value c) in
        change (digit_value c) with k
    end;
    rewrite Hstep; apply IH.
Qed.

Lemma decimal_value_of_lu (d : Decimal.uint) :
  forall a : N,
    decimal_value (Z.of_N a) d
    = Z.of_N (DecimalPos.Unsigned.of_lu (Decimal.rev d)
              + a * 10 ^ DecimalPos.Unsigned.usize d)%N.
Proof.
  induction d as [|d IH|d IH|d IH|d IH|d IH|d IH|d IH|d IH|d IH|d IH]; intros a;
    [simpl; f_equal; lia|..];
    cbn [decimal_value DecimalPos.Unsigned.usize];
    unfold Decimal.rev; cbn [Decimal.revapp];
    rewrite DecimalPos.Unsigned.of_lu_revapp;
    cbn [DecimalPos.Unsigned.of_lu];
    rewrite N.pow_succ_r';
    match goal with
    | |- decimal_value (Z.of_N a * 10 + ?k)%Z d = _ =>
        replace (Z.of_N a * 10 + k)%Z with (Z.of_N (a * 10 + Z.to_N k)) by lia
    end;
    rewrite IH; f_equal; simpl Z.to_N;
    generalize (10 ^ DecimalPos.Unsigned.usize d)%N;
    generalize (DecimalPos.Unsigned.of_lu (Decimal.rev d)); intros x y; nia.
Qed.

Lemma decimal_value_to_uint (p : positive) :
  decimal_value 0 (Pos.to_uint p) = Z.pos p.
Proof.
  change (decimal_value 0 (Pos.to_uint p))
    with (decimal_value (Z.of_N 0) (Pos.to_uint p)).
  rewrite (decimal_value_of_lu (Pos.to_uint p) 0).
  rewrite N.mul_0_l, N.add_0_r, <- DecimalPos.Unsigned.of_uint_alt.
  now rewrite DecimalPos.Unsigned.of_to.
Qed.

Lemma decimal_chars_nonempty (p : positive) :
  exists d digits, decimal_chars (Pos.to_uint p) = d :: digits.
Proof.
  pose proof (DecimalPos.Unsigned.to_uint_nonnil p) as H.
  unfold decimal_chars. destruct (Pos.to_uint p); try congruence;
    simpl; eexists; eexists; reflexivity.
Qed.

Lemma format_int_pos (p : positive) :
  list_ascii_of_string (format_int (Z.pos p)) = decimal_chars (Pos.to_uint p).
Proof.
  pose proof (DecimalPos.Unsigned.to_uint_nonnil p) as H.
  unfold format_int, decimal_chars. simpl.
  unfold NilZero.string_of_uint. destruct (Pos.to_uint p); congruence.
Qed.

Lemma format_int_neg (p : positive) :
  list_ascii_of_string (format_int (Z.neg p)) = "-"%char :: decimal_chars (Pos.to_uint p).
Proof.
  pose proof (DecimalPos.Unsigned.to_uint_nonnil p) as H.
  unfold format_int, decimal_chars. simpl.
  unfold NilZero.string_of_uint. destruct (Pos.to_uint p); congruence.
Qed.

(** [parse] on a literal alone. *)
Lemma parse_literal_text (s : Sign) (r : Radix) (d : ascii) (digits : list ascii)
      (output : Value) (fuel : nat) :
  forallb (fun chr => isDigit chr (radix_base r)) (d :: digits) = true ->
  fuel_for (List.length (literal_text s r (d :: digits))) <= fuel ->
  result (parse fuel output (literal_text s r (d :: digits))
                (List.length (literal_text s r (d :: digits))))
  = Some (true, Value_intptr (literal_value s r (d :: digits))).
Proof.
  intros Hok Hfuel.
  assert (E : stream_text [(no_trivia, INumber s r d digits)] no_trivia
              = literal_text s r (d :: digits)).
  { unfold stream_text, elem_text, trivia_text, no_trivia. simpl.
    now rewrite !app_nil_r. }
  pose proof (@parse_stream_of_doc (DInt s r d digits) [(no_trivia, INumber s r d digits)]
                no_trivia output fuel Hok eq_refl eq_refl eq_refl) as H.
  rewrite E in H. exact (H Hfuel).
Qed.

Lemma to_intptr_small (z : Z) : (0 <= z < 2 ^ 63)%Z -> to_intptr (z mod 2 ^ 64) = z.
Proof.
  intros H. unfold to_intptr, ptr_modulus, ptr_bits.
  assert (H64 : (2 ^ 64 = 2 * 2 ^ 63)%Z) by reflexivity.
  assert (H63 : (2 ^ 64 / 2 = 2 ^ 63)%Z) by reflexivity.
  rewrite Z.mod_mod by (vm_compute; discriminate).
  rewrite Z.mod_small by lia. rewrite H63.
  destruct (Z.ltb_spec z (2 ^ 63)); lia.
Qed.

Lemma to_intptr_negation (z : Z) :
  (0 < z <= 2 ^ 63)%Z ->
  to_intptr (twos_complement_negation (z mod 2 ^ 64)) = (- z)%Z.
Proof.
  intros H. unfold to_intptr, twos_complement_negation, ptr_modulus, ptr_bits.
  assert (H64 : (2 ^ 64 = 2 * 2 ^ 63)%Z) by reflexivity.
  assert (H63 : (2 ^ 64 / 2 = 2 ^ 63)%Z) by reflexivity.
  rewrite (Z.mod_small z) by lia.
  rewrite Z.mod_mod by (vm_compute; discriminate).
  replace (Z.lnot z + 1)%Z with (- z)%Z by (unfold Z.lnot; lia).
  assert (E : ((- z) mod 2 ^ 64 = 2 ^ 64 - z)%Z).
  { symmetry. apply (Z.mod_unique (- z) (2 ^ 64) (-1)); lia. }
  rewrite E, H63.
  destruct (Z.ltb_spec (2 ^ 64 - z) (2 ^ 63)); lia.
Qed.

(** X14.  What [std::format] prints for an [intptr_t], the lexer reads
    back: for every 64-bit signed integer [i], the decimal text of [i], as
    the formatter of [Token] and the messages of the exceptions print it,
    parses to [Int i]. *)
Theorem parse_format_int (i : Z) (output : Value) (fuel : nat) :
  (- 2 ^ 63 <= i < 2 ^ 63)%Z ->
  fuel_for (String.length (format_int i)) <= fuel ->
  result (parse_text fuel output (format_int i)) = Some (true, Value_intptr i).
Proof.
  intros Hi Hfuel. unfold parse_text.
  rewrite <- length_list_ascii_of_string in Hfuel |- *.
  destruct i as [|p|p].
  - exact (@parse_literal_text NoSign Decimal "0"%char [] output fuel eq_refl Hfuel).
  - rewrite format_int_pos in Hfuel |- *.
    pose proof (decimal_chars_digits (Pos.to_uint p)) as Hdigits.
    pose proof (horner_decimal (Pos.to_uint p) 0) as Hvalue.
    rewrite decimal_value_to_uint in Hvalue.
    destruct (decimal_chars_nonempty p) as (d & digits & E).
    rewrite E in Hfuel, Hdigits, Hvalue |- *.
    change (d :: digits) with (literal_text NoSign Decimal (d :: digits)) in Hfuel |- *.
    rewrite (@parse_literal_text NoSign Decimal d digits output fuel Hdigits Hfuel).
    unfold literal_value. simpl radix_base.
    change (0 mod 2 ^ 64)%Z with 0%Z in Hvalue. rewrite Hvalue.
    rewrite to_intptr_small by lia. reflexivity.
  - rewrite format_int_neg in Hfuel |- *.
    pose proof (decimal_chars_digits (Pos.to_uint p)) as Hdigits.
    pose proof (horner_decimal (Pos.to_uint p) 0) as Hvalue.
    rewrite decimal_value_to_uint in Hvalue.
    destruct (decimal_chars_nonempty p) as (d & digits & E).
    rewrite E in Hfuel, Hdigits, Hvalue |- *.
    change ("-"%char :: d :: digits)
      with (literal_text Minus Decimal (d :: digits)) in Hfuel |- *.
    rewrite (@parse_literal_text Minus Decimal d digits output fuel Hdigits Hfuel).
    unfold literal_value. simpl radix_base.
    change (0 mod 2 ^ 64)%Z with 0%Z in Hvalue. rewrite Hvalue.
    rewrite to_intptr_negation by lia. reflexivity.
Qed.

Lemma parse_format_int_witness :
  format_int (-9223372036854775808) = "-9223372036854775808"%string /\
  result (parse_text 21 Value_default "-9223372036854775808")
  = Some (true, Value_intptr (-9223372036854775808)).
Proof.
  split; [reflexivity|].
  refine (@parse_format_int (-9223372036854775808) Value_default 21 _ (Nat.le_refl 21)).
  split; [intros H; discriminate H|reflexivity].
Defined.

(* ================================================================= *)
(** * Lines and columns *)

Lemma position_succ (chars : list ascii) (index : nat) :
  index + 1 < List.length chars ->
  position chars (index + 1) = move (position chars index) (nth (index + 1) chars NUL).
Proof.
  intros H. unfold position.
  destruct chars as [|c0 chars]; [simpl in H; lia|]. simpl in H. simpl tl.
  replace (nth (index + 1) (c0 :: chars) NUL) with (nth index chars NUL)
    by (rewrite Nat.add_1_r; reflexivity).
  assert (Hi : index < List.length chars) by lia. clear H.
  assert (E : firstn (index + 1) chars = firstn index chars ++ [nth index chars NUL]).
  { revert index Hi. induction chars as [|c chars IH]; intros index Hi; [simpl in Hi; lia|].
    destruct index as [|index]; [reflexivity|].
    simpl in Hi |- *. f_equal. apply IH. lia. }
  rewrite E, fold_left_app. reflexivity.
Qed.

Lemma located_advanceChar chars n tz :
  n <= List.length chars ->
  located chars n tz -> located chars n (final (advanceChar tz)).
Proof.
  intros Hn (Hc & Hl & Hp). unfold advanceChar, located.
  destruct (m_length tz <=? m_index tz + 1) eqn:Hend; simpl; [auto|].
  apply Nat.leb_gt in Hend.
  assert (Hstep := @position_succ chars (m_index tz) ltac:(lia)).
  rewrite <- Hp in Hstep. rewrite Hc. unfold move in Hstep. simpl in Hstep.
  destruct (Ascii.eqb (nth (m_index tz + 1) chars NUL) LF); simpl;
    repeat split; auto.
Qed.

Lemma located_with_token chars n tok tz :
  located chars n tz -> located chars n (with_token tok tz).
Proof. intros H; exact H. Qed.

Lemma located_setText chars n tz : located chars n (setText chars n tz).
Proof.
  unfold setText, located. destruct (0 <? n); simpl; repeat split.
Qed.

(** X15.  The line and the column are those of the cursor.  Wherever a run
    of [parse] ends, and however, the tokenizer's line number is 1 plus the
    number of newlines among the characters after the first up to the one
    at the cursor, and its column number is the number of characters after
    the last of these newlines, or after the first character of the buffer
    when there is none.  The first character of the buffer is at line 1,
    column 0, whatever it is, and a newline is at column 0 of the line it
    starts. *)
Theorem line_and_column_locate_cursor
  (chars : list ascii) (n fuel : nat) (output : Value) :
  n <= List.length chars ->
  (m_lineNumber (final (parse fuel output chars n)),
   m_columNumber (final (parse fuel output chars n)))
  = position chars (m_index (final (parse fuel output chars n))).
Proof.
  intros Hn.
  assert (H : located chars n (final (parse fuel output chars n))).
  { apply kept_final. unfold parse. unfold bind at 1, modify.
    apply (@keeps_bind (located chars n)); [|intros _|apply located_setText].
    - apply keeps_advance;
        [intros tz; now apply located_advanceChar|apply located_with_token].
    - apply keeps_parseValue;
        [intros tz; now apply located_advanceChar|apply located_with_token]. }
  apply H.
Qed.

Lemma line_and_column_locate_cursor_witness :
  let chars := [LF; "["%char; "1"%char; ","%char; LF; " "%char; "?"%char; "]"%char] in
  (m_lineNumber (final (parse 9 Value_default chars 8)),
   m_columNumber (final (parse 9 Value_default chars 8)))
  = position chars (m_index (final (parse 9 Value_default chars 8))).
Proof.
  intros chars.
  exact (@line_and_column_locate_cursor chars 8 9 Value_default (Nat.le_refl 8)).
Defined.

(* ================================================================= *)
(** * What the parser throws *)






Lemma thrown_eq {A} (o o' : Outcome A) r : o = o' -> thrown o' = r -> thrown o = r.
Proof. now intros ->. Qed.








Section InsertKeys.
Variable V : Type.
Implicit Types (m : StdMap.t V) (kv : string * V).

End InsertKeys.

















(* ================================================================= *)
(** * Tests that decide nothing, and a return that changes nothing *)

Lemma parseArray_loop_ends_at_bracket (tfuel : nat) (pv : Value -> M (bool * Value)) :
  forall n output tz,
    sat (parseArray_loop tfuel pv n output tz)
        (fun _ tz' => Token.is_punctuaction Punctuaction.Rsqb (Tokenizer.token tz') = true)
        anyhow anyhow.
Proof.
  induction n as [|n IH]; intros output tz; [exact I|].
  cbn [parseArray_loop]. unfold bind at 1.
  destruct (pv Value_default tz) as [[ok value] tz1| |]; [|exact I|exact I].
  unfold token at 1. rewrite bind_get.
  destruct (negb ok); [exact I|].
  destruct (negb (Token.is_punctuaction Punctuaction.Comma (Tokenizer.token tz1))).
  - destruct (Token.is_punctuaction Punctuaction.Rsqb (Tokenizer.token tz1)) eqn:E;
      [exact E|exact I].
  - unfold bind at 1. destruct (advance tfuel tz1) as [b tz2| |]; [|exact I|exact I].
    apply IH.
Qed.

(** X23.  The loop of [parseArray] ends only at a right square bracket; so
    the test after the loop decides nothing and its exception, expected
    a right square bracket, is never thrown: [parseArray] does what it
    would do without that test.  (The like test of [parseDict] is needed:
    its loop also ends at any token that is not an identifier.) *)
Theorem parseArray_closing_test_is_dead :
  forall (tfuel n : nat) (pv : Value -> M (bool * Value)) (output : gcl.Array)
         (tz : Tokenizer.t),
    parseArray tfuel pv n output tz
    = (advance tfuel;;
       output <- parseArray_loop tfuel pv n output;;
       advance tfuel;;
       ret output) tz.
Proof.
  intros tfuel n pv output tz. unfold parseArray.
  unfold bind at 1 5. destruct (advance tfuel tz) as [b tz1| |]; try reflexivity.
  pose proof (parseArray_loop_ends_at_bracket tfuel pv n output tz1) as H.
  unfold bind at 1 4.
  destruct (parseArray_loop tfuel pv n output tz1) as [acc tz2| |]; try reflexivity.
  simpl in H. unfold token at 1. rewrite bind_get, H. reflexivity.
Qed.

Lemma bind_ret_true {A} (m : M A) (v : A -> Value) tz r tz' :
  bind m (fun x => ret (true, v x)) tz = Ok (false, r) tz' -> False.
Proof. unfold bind, ret. destruct (m tz); intros H; discriminate. Qed.

(** X24.  A [false] from [parseValue] changes nothing: when [parseValue]
    returns [false] it has consumed no token, has left the tokenizer as it
    was and has not written its output; and the current token is [Eof] or
    an identifier that is none of [true], [false] and [null]. *)
Theorem parseValue_false_changes_nothing
  (tfuel fuel : nat) (output value : Value) (tz tz' : Tokenizer.t) :
  parseValue tfuel fuel output tz = Ok (false, value) tz' ->
  value = output /\ tz' = tz /\
  match Token.content (m_token tz) with
  | tok_Eof => True
  | tok_Identifier identifier => keyword identifier = false
  | _ => False
  end.
Proof.
  destruct fuel as [|fuel]; [discriminate|].
  cbn [parseValue]. unfold token at 1. rewrite bind_get. unfold Tokenizer.token.
  destruct (Token.content (m_token tz)) as [|i|f|identifier|s|p].
  - intros H. injection H as <- <-. repeat split.
  - intros H. exfalso. exact (bind_ret_true _ _ _ H).
  - intros H. exfalso. exact (bind_ret_true _ _ _ H).
  - unfold keyword.
    destruct (String.eqb identifier "true");
      [intros H; exfalso; exact (bind_ret_true _ _ _ H)|].
    destruct (String.eqb identifier "false");
      [intros H; exfalso; exact (bind_ret_true _ _ _ H)|].
    destruct (String.eqb identifier "null");
      [intros H; exfalso; exact (bind_ret_true _ _ _ H)|].
    intros H. injection H as <- <-. repeat split.
  - intros H. exfalso.
    unfold bind at 1, set_content, modify in H.
    exact (bind_ret_true _ _ _ H).
  - destruct (Punctuaction.eqb p Punctuaction.Lbrace);
      [intros H; exfalso; exact (bind_ret_true _ (fun dict => mkValue ValueType.Dict (data_dict dict)) _ H)|].
    destruct (Punctuaction.eqb p Punctuaction.Lsqb);
      [intros H; exfalso; exact (bind_ret_true _ (fun array => mkValue ValueType.Array (data_array array)) _ H)|].
    intros H. discriminate H.
Qed.

Lemma parseValue_false_changes_nothing_witness :
  parseValue 1 1 Value_default (with_content (tok_Identifier "nil") Tokenizer.init)
  = Ok (false, Value_default) (with_content (tok_Identifier "nil") Tokenizer.init) /\
  keyword "nil" = false.
Proof.
  split; [reflexivity|].
  exact (proj2 (proj2 (@parseValue_false_changes_nothing
                         1 1 Value_default Value_default
                         (with_content (tok_Identifier "nil") Tokenizer.init)
                         (with_content (tok_Identifier "nil") Tokenizer.init) eq_refl))).
Defined.

(* ================================================================= *)
(** * Spans *)

(** A second walk through the code, this one with the current token and
    the exception object in view. *)

Lemma ends_weaken {A} (o : Outcome A) (Q Q' : A -> Tokenizer.t -> Prop)
      (E E' : GclException.t -> Tokenizer.t -> Prop) :
  ends o Q E ->
  (forall x tz, Q x tz -> Q' x tz) ->
  (forall e tz, E e tz -> E' e tz) ->
  ends o Q' E'.
Proof. destruct o; simpl; auto. Qed.

Lemma holds_step {A B} (J : Tokenizer.t -> Prop) (P : A -> Prop) (m : M A)
      (k : A -> M B) (tz : Tokenizer.t) (Q : B -> Tokenizer.t -> Prop) :
  holds J P m -> J tz ->
  (forall x tz1, P x -> J tz1 ->
                 ends (k x tz1) Q (fun e tz' => J tz' /\ spans_token e tz')) ->
  ends (bind m k tz) Q (fun e tz' => J tz' /\ spans_token e tz').
Proof.
  intros Hm HJ Hk. specialize (Hm tz HJ). unfold bind.
  destruct (m tz) as [x tz1|site e tz1|tz1]; simpl in *; auto.
  destruct Hm as [HP HJ1]. now apply Hk.
Qed.

Lemma holds_weaken {A} (J : Tokenizer.t -> Prop) (P Q : A -> Prop) (m : M A) :
  holds J P m -> (forall x, P x -> Q x) -> holds J Q m.
Proof.
  intros H HPQ tz HJ. eapply ends_weaken; [exact (H tz HJ)| |]; simpl.
  - intros x tz' [HP HJ']. split; auto.
  - auto.
Qed.

Lemma holds_tail {A} (J : Tokenizer.t -> Prop) (Q : A -> Prop) (m : M A)
      (tz : Tokenizer.t) :
  holds J Q m -> J tz ->
  ends (m tz) (fun x tz' => Q x /\ J tz') (fun e tz' => J tz' /\ spans_token e tz').
Proof. intros H HJ. now apply H. Qed.

Ltac ends_step solve_call :=
  match goal with
  | |- holds _ _ _ => let tz := fresh "tz" in let HJ := fresh "HJ" in intros tz HJ
  | |- ends (bind (get _) _ _) _ _ => rewrite bind_get; cbv beta
  | |- ends (bind token _ _) _ _ => unfold token at 1; rewrite bind_get; cbv beta
  | |- ends (bind token_span _ _) _ _ => unfold token_span at 1; rewrite bind_get; cbv beta
  | |- ends (bind _ _ _) _ _ =>
      eapply holds_step; [solve [solve_call]|assumption|intros ? ? ? ?]
  | |- ends (ret _ _) _ _ => split; [try exact I|assumption]
  | |- ends (throw _ _ _ _) _ _ => split; [assumption|reflexivity]
  | |- ends (out_of_fuel _) _ _ => exact I
  | |- ends ((if ?b then _ else _) _) _ _ => destruct b
  | |- ends ((match ?x with _ => _ end) _) _ _ => destruct x
  | |- ends (_ _) _ _ => apply holds_tail; [solve [solve_call]|assumption]
  end.

Section TriviaInvariant.
Variable J : Tokenizer.t -> Prop.
Hypothesis J_advanceChar : forall tz, J tz -> J (final (advanceChar tz)).

Lemma passes_bind {A B} (m : M A) (k : A -> M B) :
  passes J m -> (forall x, passes J (k x)) -> passes J (bind m k).
Proof.
  intros Hm Hk tz H. specialize (Hm tz H). unfold bind.
  destruct (m tz) as [x tz1|site e tz1|tz1]; simpl in *; auto.
  now apply Hk.
Qed.

Lemma passes_ret {A} (x : A) : passes J (ret x).
Proof. intros tz H; exact H. Qed.

Lemma passes_get {A} (f : Tokenizer.t -> A) : passes J (get f).
Proof. intros tz H; exact H. Qed.

Lemma passes_out_of_fuel {A} : passes J (@out_of_fuel A).
Proof. intros tz H; exact I. Qed.

Lemma passes_advanceChar : passes J advanceChar.
Proof.
  intros tz H. apply J_advanceChar in H. revert H. unfold advanceChar.
  destruct (m_length tz <=? m_index tz + 1); [auto|].
  destruct (deref _ _) as [c rs]. destruct (Ascii.eqb c LF); auto.
Qed.

Ltac passes_step :=
  match goal with
  | |- passes J (bind _ _) => apply passes_bind; [|intros]
  | |- passes J (ret _) => apply passes_ret
  | |- passes J (get _) => apply passes_get
  | |- passes J out_of_fuel => apply passes_out_of_fuel
  | |- passes J advanceChar => apply passes_advanceChar
  | |- passes J (if ?b then _ else _) => destruct b
  | H : _ |- _ => solve [apply H; auto]
  end.

Lemma passes_skipWhitespace fuel : passes J (skipWhitespace fuel).
Proof. induction fuel; simpl; repeat passes_step. Qed.

Lemma passes_skipComment_loop fuel : passes J (skipComment_loop fuel).
Proof. induction fuel; simpl; repeat passes_step. Qed.

Lemma passes_skipComment fuel : passes J (skipComment fuel).
Proof. unfold skipComment. repeat passes_step. apply passes_skipComment_loop. Qed.

Lemma passes_skipComments fuel n : passes J (skipComments fuel n).
Proof.
  induction n; simpl; repeat passes_step;
    auto using passes_skipComment, passes_skipWhitespace.
Qed.

Lemma passes_trivia fuel : passes J (skipWhitespace fuel;; skipComments fuel fuel).
Proof.
  apply passes_bind; [apply passes_skipWhitespace|intros _; apply passes_skipComments].
Qed.

Lemma passes_holds {A} (m : M A) : passes J m -> holds J whatever m.
Proof.
  intros H tz HJ. eapply ends_weaken; [exact (H tz HJ)| |]; simpl.
  - intros x tz' H'. split; [exact I|exact H'].
  - intros e tz' [].
Qed.

Lemma holds_advanceChar : holds J whatever advanceChar.
Proof. apply passes_holds, passes_advanceChar. Qed.
End TriviaInvariant.

Section TokenInvariant.
Variable J : Tokenizer.t -> Prop.
Hypothesis J_advanceChar : forall tz, J tz -> J (final (advanceChar tz)).
Hypothesis J_set_content :
  forall c tz, lexable c = true -> J tz -> J (with_content c tz).

Lemma holds_set_content (c : TokenData) :
  lexable c = true -> holds J whatever (set_content c).
Proof. intros Hc tz H. simpl. split; [exact I|now apply J_set_content]. Qed.

Ltac token_call :=
  first [ apply (@holds_advanceChar J J_advanceChar)
        | apply holds_set_content; reflexivity
        | match goal with H : _ |- _ => apply H end ].

Lemma holds_readIdentifier_loop fuel :
  forall s, holds J whatever (readIdentifier_loop fuel s).
Proof. induction fuel; intros s; simpl; repeat ends_step token_call. Qed.

Lemma holds_readIdentifier fuel : holds J whatever (readIdentifier fuel).
Proof.
  unfold readIdentifier.
  repeat ends_step ltac:(first [apply holds_readIdentifier_loop|token_call]).
Qed.

Lemma holds_readNumber_sign : holds J whatever readNumber_sign.
Proof. unfold readNumber_sign. repeat ends_step token_call. Qed.

Lemma holds_readNumber_prefix : holds J whatever readNumber_prefix.
Proof. unfold readNumber_prefix. repeat ends_step token_call. Qed.

Lemma holds_readNumber_digits fuel base :
  forall v, holds J whatever (readNumber_digits fuel base v).
Proof. induction fuel; intros v; simpl; repeat ends_step token_call. Qed.

Lemma holds_readNumber_skip fuel : holds J whatever (readNumber_skip fuel).
Proof. induction fuel; simpl; repeat ends_step token_call. Qed.

Lemma holds_readNumber fuel : holds J whatever (readNumber fuel).
Proof.
  unfold readNumber.
  repeat ends_step ltac:(first [ apply holds_readNumber_sign
                               | apply holds_readNumber_prefix
                               | apply holds_readNumber_digits
                               | apply holds_readNumber_skip
                               | token_call ]).
Qed.

Lemma holds_readPunctuaction : holds J whatever readPunctuaction.
Proof. unfold readPunctuaction. repeat ends_step token_call. Qed.

Lemma holds_readString_escape s : holds J whatever (readString_escape s).
Proof. unfold readString_escape. repeat ends_step token_call. Qed.

Lemma holds_readString_loop fuel : forall s, holds J whatever (readString_loop fuel s).
Proof.
  induction fuel; intros s; simpl;
    repeat ends_step ltac:(first [apply holds_readString_escape|token_call]).
Qed.

Lemma holds_readString fuel : holds J whatever (readString fuel).
Proof.
  unfold readString.
  repeat ends_step ltac:(first [apply holds_readString_loop|token_call]).
Qed.

Lemma holds_readMisc : holds J whatever readMisc.
Proof. unfold readMisc. repeat ends_step token_call. Qed.

Lemma holds_first_success methods :
  Forall (fun method => holds J whatever method) methods ->
  holds J whatever (first_success methods).
Proof. induction 1; simpl; repeat ends_step token_call. Qed.

Lemma holds_read_methods fuel : holds J whatever (first_success (READ_METHODS fuel)).
Proof.
  apply holds_first_success. unfold READ_METHODS.
  repeat constructor;
    auto using holds_readIdentifier, holds_readNumber, holds_readPunctuaction,
               holds_readString, holds_readMisc.
Qed.
End TokenInvariant.

(** [advance] is the blanks and the comments, then the token. *)
Lemma advance_from_token_start (fuel : nat) (tz : Tokenizer.t) :
  match (skipWhitespace fuel;; skipComments fuel fuel) tz with
  | Ok _ tz1 =>
      token_start fuel tz = tz1 /\
      advance fuel tz
      = (first_success (READ_METHODS fuel);;
         modify span_end;;
         token <- get m_token;;
         ret (match Token.kind token with TokenKind.Eof => false | _ => true end))
          (span_begin (with_token (Token.reset (m_token tz1)) tz1))
  | Throw _ _ _ => False
  | OutOfFuel tz1 => advance fuel tz = OutOfFuel tz1
  end.
Proof.
  pose proof (@passes_trivia (fun _ => True) (fun _ _ => I) fuel tz I) as H.
  assert (E : advance fuel tz
              = ((skipWhitespace fuel;; skipComments fuel fuel);;
                 modify (fun tz => with_token (Token.reset (m_token tz)) tz);;
                 modify span_begin;;
                 first_success (READ_METHODS fuel);;
                 modify span_end;;
                 token <- get m_token;;
                 ret (match Token.kind token with TokenKind.Eof => false | _ => true end))
                  tz).
  { unfold advance, bind. destruct (skipWhitespace fuel tz); reflexivity. }
  unfold token_start.
  destruct ((skipWhitespace fuel;; skipComments fuel fuel) tz) as [x tz1| |] eqn:E1;
    simpl in H; [|contradiction|].
  - split; [reflexivity|]. rewrite E. rewrite (bind_Ok _ E1). reflexivity.
  - rewrite E. unfold bind at 1. now rewrite E1.
Qed.

Lemma holds_advance_from (J0 J : Tokenizer.t -> Prop) (fuel : nat) :
  (forall tz, J0 tz -> J0 (final (advanceChar tz))) ->
  (forall tz, J0 tz -> J (span_begin (with_token (Token.reset (m_token tz)) tz))) ->
  (forall tz, J tz -> J (final (advanceChar tz))) ->
  (forall c tz, lexable c = true -> J tz -> J (with_content c tz)) ->
  (forall tz, J tz -> J (span_end tz)) ->
  forall tz, J0 tz ->
    ends (advance fuel tz) (fun _ tz' => J tz')
         (fun e tz' => J tz' /\ spans_token e tz').
Proof.
  intros H0 Hbegin Hchar Hcontent Hend tz HJ0.
  pose proof (advance_from_token_start fuel tz) as Hadv.
  pose proof (@passes_trivia J0 H0 fuel tz HJ0) as Htrivia.
  destruct ((skipWhitespace fuel;; skipComments fuel fuel) tz) as [x tz1| |];
    [|contradiction|rewrite Hadv; exact I].
  destruct Hadv as [_ ->]. simpl in Htrivia.
  eapply holds_step;
    [apply (@holds_read_methods J Hchar Hcontent)|now apply Hbegin|].
  intros _ tz2 _ HJ2. simpl. now apply Hend.
Qed.

Lemma insert_Forall {V : Type} (P : string * V -> Prop) kv m :
  P kv -> Forall P m -> Forall P (fst (fst (StdMap.insert kv m))).
Proof.
  intros Hkv. induction m as [|[k' v'] rest IH]; intros Hm; simpl.
  - constructor; [exact Hkv|constructor].
  - destruct (String.compare (fst kv) k'); simpl.
    + exact Hm.
    + constructor; assumption.
    + inversion Hm as [|? ? H1 H2]; subst. specialize (IH H2).
      destruct (StdMap.insert kv rest) as [[rest' it] ok]. simpl in *.
      constructor; assumption.
Qed.

Section ParserInvariant.
Variable J : Tokenizer.t -> Prop.
Variable tfuel : nat.
Hypothesis J_set_content :
  forall c tz, lexable c = true -> J tz -> J (with_content c tz).
Hypothesis J_advance : holds J whatever (advance tfuel).

Ltac parser_call :=
  first [ apply J_advance
        | apply (@holds_set_content J J_set_content); reflexivity
        | match goal with H : _ |- _ => apply H end ].

Section Loops.
Variable pv : Value -> M (bool * Value).
Variable good : Value -> Prop.
Hypothesis good_move : forall v, good v -> good (fst (move_ctor v)).
Hypothesis pv_holds : holds J (fun r => good (snd r)) (pv Value_default).

Lemma holds_parseArray_loop n :
  forall output, Forall good output ->
                 holds J (Forall good) (parseArray_loop tfuel pv n output).
Proof.
  induction n as [|n IH]; intros output Hout; cbn [parseArray_loop];
    [intros tz HJ; exact I|].
  intros tz HJ. eapply holds_step; [exact pv_holds|exact HJ|].
  intros [ok value] tz1 Hv HJ1. simpl in Hv.
  assert (Hout' : Forall good (output ++ [fst (move_ctor value)])).
  { apply Forall_app. split; [exact Hout|]. constructor; [now apply good_move|constructor]. }
  repeat ends_step ltac:(first [apply IH; exact Hout'|parser_call]).
  exact Hout'.
Qed.

Lemma holds_parseArray n output :
  Forall good output -> holds J (Forall good) (parseArray tfuel pv n output).
Proof.
  intros Hout. unfold parseArray.
  repeat ends_step ltac:(first [apply holds_parseArray_loop; exact Hout|parser_call]).
  assumption.
Qed.

Lemma holds_parseDict_loop n :
  forall output, Forall (fun kv => good (snd kv)) output ->
                 holds J (Forall (fun kv => good (snd kv)))
                       (parseDict_loop tfuel pv n output).
Proof.
  induction n as [|n IH]; intros output Hout; cbn [parseDict_loop];
    [intros tz HJ; exact I|].
  intros tz HJ. unfold token at 1. rewrite bind_get. cbv beta.
  destruct (Token.content (Tokenizer.token tz)) as [|i|f|identifier|s|p];
    try (split; assumption).
  do 3 ends_step ltac:(first [apply J_advance
                             |apply (@holds_set_content J J_set_content); reflexivity]).
  destruct (negb _); [split; [assumption|reflexivity]|].
  ends_step ltac:(apply J_advance).
  eapply holds_step; [exact pv_holds|assumption|].
  intros [ok value] tz3 Hv HJ3. simpl in Hv.
  assert (Hout' : Forall (fun kv => good (snd kv))
                         (fst (fst (StdMap.insert (identifier, fst (move_ctor value)) output)))).
  { apply insert_Forall; [simpl; now apply good_move|exact Hout]. }
  unfold token at 1. rewrite bind_get. cbv beta.
  destruct (negb ok); [split; [assumption|reflexivity]|].
  destruct (StdMap.insert _ _) as [[output' it] inserted]. simpl in Hout'.
  repeat ends_step ltac:(first [apply IH; exact Hout'|apply J_advance]).
  exact Hout'.
Qed.

Lemma holds_parseDict n output :
  Forall (fun kv => good (snd kv)) output ->
  holds J (Forall (fun kv => good (snd kv))) (parseDict tfuel pv n output).
Proof.
  intros Hout. unfold parseDict.
  repeat ends_step ltac:(first [apply holds_parseDict_loop; exact Hout|parser_call]).
  assumption.
Qed.
End Loops.

Variable good : Value -> Prop.
Hypothesis good_move : forall v, good v -> good (fst (move_ctor v)).
Hypothesis good_default : good Value_default.
Hypothesis good_null : good (mkValue ValueType.Null (data_i 0)).
Hypothesis good_bool : forall b, good (mkValue ValueType.Bool (data_b b)).
Hypothesis good_int : forall i, good (mkValue ValueType.Int (data_i i)).
Hypothesis good_string : forall s, good (mkValue ValueType.String (data_string s)).
Hypothesis good_array :
  forall a, Forall good a -> good (mkValue ValueType.Array (data_array a)).
Hypothesis good_dict :
  forall m, Forall (fun kv => good (snd kv)) m ->
            good (mkValue ValueType.Dict (data_dict m)).
Hypothesis good_float :
  forall tz f, J tz -> Token.content (m_token tz) = tok_Float f ->
               good (mkValue ValueType.Float (data_f f)).

Lemma holds_parseValue fuel :
  forall output, good output ->
                 holds J (fun r => good (snd r)) (parseValue tfuel fuel output).
Proof.
  induction fuel as [|fuel IH]; intros output Hout tz HJ; cbn [parseValue]; [exact I|].
  unfold token at 1. rewrite bind_get. cbv beta. unfold Tokenizer.token.
  destruct (Token.content (m_token tz)) as [|i|f|identifier|s|p] eqn:E.
  - split; assumption.
  - ends_step parser_call. split; [apply good_int|assumption].
  - ends_step parser_call. split; [exact (good_float HJ E)|assumption].
  - repeat match goal with
           | |- ends ((if ?b then _ else _) _) _ _ => destruct b
           end;
      try (ends_step parser_call; split;
           [first [apply good_bool|apply good_null]|assumption]).
    split; assumption.
  - do 2 ends_step parser_call. split; [apply good_string|assumption].
  - destruct (Punctuaction.eqb p Punctuaction.Lbrace).
    + eapply holds_step;
        [apply (@holds_parseDict (parseValue tfuel fuel) good good_move
                                 (IH Value_default good_default) fuel []);
         constructor
        |exact HJ|].
      intros dict tz1 Hd HJ1. split; [now apply good_dict|assumption].
    + destruct (Punctuaction.eqb p Punctuaction.Lsqb); [|split; assumption].
      eapply holds_step;
        [apply (@holds_parseArray (parseValue tfuel fuel) good good_move
                                  (IH Value_default good_default) fuel []);
         constructor
        |exact HJ|].
      intros array tz1 Ha HJ1. split; [now apply good_array|assumption].
Qed.
End ParserInvariant.

Lemma holds_advance (J : Tokenizer.t -> Prop) (fuel : nat) :
  (forall tz, J tz -> J (final (advanceChar tz))) ->
  (forall c tz, lexable c = true -> J tz -> J (with_content c tz)) ->
  (forall tz, J tz -> J (span_begin (with_token (Token.reset (m_token tz)) tz))) ->
  (forall tz, J tz -> J (span_end tz)) ->
  holds J whatever (advance fuel).
Proof.
  intros Hchar Hcontent Hbegin Hend tz HJ.
  eapply ends_weaken;
    [apply (@holds_advance_from J J fuel Hchar Hbegin Hchar Hcontent Hend tz HJ)| |];
    simpl; auto.
  intros x tz' H. split; [exact I|exact H].
Qed.

(** X25.  Whatever [parse] throws carries the span of the token that is
    current when it is thrown: the one the parser has found in place of
    what it expects, or the one the tokenizer was reading. *)
Theorem exception_spans_current_token
  (fuel : nat) (output : Value) (chars : list ascii) (n : nat)
  (site : GclErrorID.t) (e : GclException.t) (tz' : Tokenizer.t) :
  parse fuel output chars n = Throw site e tz' ->
  GclException.span e = Token.span (m_token tz').
Proof.
  intros E.
  assert (Hadv : forall tfuel, holds (fun _ => True) whatever (advance tfuel)).
  { intros tfuel. apply holds_advance; auto. }
  assert (H : ends (parse fuel output chars n) (fun _ _ => True)
                   (fun e tz' => True /\ spans_token e tz')).
  { unfold parse. unfold bind at 1, modify.
    eapply holds_step; [apply Hadv|exact I|].
    intros _ tz1 _ _.
    eapply ends_weaken;
      [apply (@holds_parseValue (fun _ => True) fuel (fun _ _ _ _ => I) (Hadv fuel)
                                (fun _ => True)); auto
      | |]; simpl; auto. }
  rewrite E in H. apply H.
Qed.

Lemma exception_spans_current_token_witness :
  match parse 6 Value_default (list_ascii_of_string "[1 2") 4 with
  | Throw _ e tz' => GclException.span e = Token.span (m_token tz')
  | _ => False
  end.
Proof.
  generalize (@exception_spans_current_token
                6 Value_default (list_ascii_of_string "[1 2") 4).
  vm_compute. intros H. exact (H _ _ _ eq_refl).
Defined.






(* ----------------------------------------------------------------- *)
(** ** Spans lie in the text *)

Lemma advanceChar_index (tz : Tokenizer.t) :
  m_index (final (advanceChar tz))
  = if m_length tz <=? m_index tz + 1 then m_index tz else m_index tz + 1.
Proof.
  unfold advanceChar. destruct (m_length tz <=? m_index tz + 1); [reflexivity|].
  destruct (deref _ _) as [c rs]. destruct (Ascii.eqb c LF); reflexivity.
Qed.

Lemma advanceChar_token (tz : Tokenizer.t) : m_token (final (advanceChar tz)) = m_token tz.
Proof.
  unfold advanceChar. destruct (m_length tz <=? m_index tz + 1); [reflexivity|].
  destruct (deref _ _) as [c rs]. destruct (Ascii.eqb c LF); reflexivity.
Qed.

Section Located.
Variable chars : list ascii.
Variable n : nat.
Hypothesis bound_in_buffer : n <= List.length chars.

Lemma cursor_located_advanceChar tz :
  cursor_located chars n tz -> cursor_located chars n (final (advanceChar tz)).
Proof.
  intros [Hloc Hidx]. split; [now apply located_advanceChar|].
  rewrite advanceChar_index. destruct Hloc as (_ & Hlen & _). rewrite Hlen.
  destruct (Nat.leb_spec n (m_index tz + 1)); lia.
Qed.

Lemma token_located_advanceChar tz :
  token_located chars n tz -> token_located chars n (final (advanceChar tz)).
Proof.
  intros [Hcur (i & j & Hij & Hj & Hspan)].
  split; [now apply cursor_located_advanceChar|].
  exists i, j. rewrite advanceChar_token, advanceChar_index.
  repeat split; [exact Hij| |exact Hspan].
  destruct (m_length tz <=? m_index tz + 1); lia.
Qed.

Lemma token_located_begin tz :
  cursor_located chars n tz ->
  token_located chars n (span_begin (with_token (Token.reset (m_token tz)) tz)).
Proof.
  intros [Hloc Hidx]. split; [split; [exact Hloc|exact Hidx]|].
  exists (m_index tz), (m_index tz).
  split; [lia|]. split; [apply Nat.le_refl|].
  destruct Hloc as (_ & _ & Hp). unfold span_of. rewrite <- Hp. reflexivity.
Qed.

Lemma token_located_end tz :
  token_located chars n tz -> token_located chars n (span_end tz).
Proof.
  intros [[Hloc Hidx] (i & j & Hij & Hj & Hspan)].
  split; [split; [exact Hloc|exact Hidx]|].
  exists i, (m_index tz).
  split; [lia|]. split; [apply Nat.le_refl|].
  destruct Hloc as (_ & _ & Hp). unfold span_of. rewrite <- Hp.
  unfold span_end. cbn [m_token with_token Token.span]. rewrite Hspan. reflexivity.
Qed.

Lemma token_located_advance (fuel : nat) (tz : Tokenizer.t) :
  cursor_located chars n tz ->
  ends (advance fuel tz) (fun _ tz' => token_located chars n tz')
       (fun e tz' => token_located chars n tz' /\ spans_token e tz').
Proof.
  apply (@holds_advance_from (cursor_located chars n) (token_located chars n) fuel).
  - apply cursor_located_advanceChar.
  - apply token_located_begin.
  - apply token_located_advanceChar.
  - intros c tz0 _ H. exact H.
  - apply token_located_end.
Qed.

Lemma token_located_parse (fuel : nat) (output : Value) :
  ends (parse fuel output chars n) (fun _ tz' => token_located chars n tz')
       (fun e tz' => token_located chars n tz' /\ spans_token e tz').
Proof.
  assert (Hadv : holds (token_located chars n) whatever (advance fuel)).
  { intros tz [Hcur _]. eapply ends_weaken; [apply (token_located_advance fuel Hcur)| |];
      simpl; auto.
    intros x tz1 H. split; [exact I|exact H]. }
  unfold parse. unfold bind at 1, modify.
  pose proof (@token_located_advance fuel (setText chars n Tokenizer.init)) as H0.
  unfold bind.
  destruct (advance fuel (setText chars n Tokenizer.init)) as [b tz1|site e tz1|tz1];
    simpl in H0 |- *.
  - assert (H1 : token_located chars n tz1).
    { apply H0. split; [apply located_setText|].
      unfold setText. destruct (0 <? n); simpl; lia. }
    eapply ends_weaken;
      [apply (@holds_parseValue (token_located chars n) fuel (fun c tz _ H => H) Hadv
                                (fun _ => True)); auto
      | |]; simpl; auto.
    intros x tz2 [_ H]. exact H.
  - apply H0. split; [apply located_setText|].
    unfold setText. destruct (0 <? n); simpl; lia.
  - exact I.
Qed.
End Located.

(** X28.  The span of an exception lies in the text.  Whatever [parse]
    throws, its span begins at the line and column of a character of the
    buffer and ends at the line and column of a later one, or of the same,
    both inside the bound. *)
Theorem exception_span_lies_in_text
  (chars : list ascii) (n fuel : nat) (output : Value)
  (site : GclErrorID.t) (e : GclException.t) (tz' : Tokenizer.t) :
  n <= List.length chars ->
  parse fuel output chars n = Throw site e tz' ->
  exists i j, i <= j /\ j <= n - 1 /\ GclException.span e = span_of chars i j.
Proof.
  intros Hn E. pose proof (@token_located_parse chars n Hn fuel output) as H.
  rewrite E in H. simpl in H.
  destruct H as [[[_ Hidx] (i & j & Hij & Hj & Hspan)] He].
  exists i, j. repeat split; [exact Hij|lia|]. unfold spans_token in He. congruence.
Qed.

Lemma exception_span_lies_in_text_witness :
  let chars := list_ascii_of_string "[1,
 x]" in
  7 <= List.length chars /\
  match parse 8 Value_default chars 7 with
  | Throw _ e _ =>
      exists i j, i <= j /\ j <= 7 - 1 /\ GclException.span e = span_of chars i j
  | _ => False
  end.
Proof.
  intros chars. split; [vm_compute; lia|].
  generalize (@exception_span_lies_in_text chars 7 8 Value_default).
  destruct (parse 8 Value_default chars 7) as [|site e tz'|] eqn:E;
    [discriminate E| |discriminate E].
  intros H. apply (H site e tz'); [vm_compute; lia|reflexivity].
Defined.

(* ================================================================= *)
(** * No Float *)

Lemma float_free_move v : float_free v = true -> float_free (fst (move_ctor v)) = true.
Proof. destruct v as [t d]. destruct t, d; simpl; auto. Qed.

Lemma advance_lexable (fuel : nat) (tz : Tokenizer.t) :
  ends (advance fuel tz)
       (fun _ tz' => lexable (Token.content (m_token tz')) = true)
       (fun e tz' => lexable (Token.content (m_token tz')) = true /\ spans_token e tz').
Proof.
  apply (@holds_advance_from (fun _ => True)
           (fun tz => lexable (Token.content (m_token tz)) = true) fuel); auto.
  intros tz0 H. now rewrite advanceChar_token.
Qed.

Lemma Forall_forallb {A} (p : A -> bool) (l : list A) :
  Forall (fun x => p x = true) l -> forallb p l = true.
Proof. intros H. apply forallb_forall. now apply Forall_forall. Qed.

(** X29.  The tokenizer has no Float: however [advance] is entered, the
    token it leaves when it returns is of a kind other than [Float]. *)
Theorem advance_never_lexes_float
  (fuel : nat) (tz : Tokenizer.t) (b : bool) (tz' : Tokenizer.t) :
  advance fuel tz = Ok b tz' ->
  Token.kind (m_token tz') <> TokenKind.Float.
Proof.
  intros E. pose proof (advance_lexable fuel tz) as H. rewrite E in H. simpl in H.
  unfold Token.kind. destruct (Token.content (m_token tz')); discriminate.
Qed.

Lemma advance_never_lexes_float_witness :
  let tz := setText (list_ascii_of_string "1.5") 3
                    (with_content (tok_Float 0%Z) Tokenizer.init) in
  Token.kind (m_token (final (advance 4 tz))) <> TokenKind.Float.
Proof.
  intros tz.
  exact (@advance_never_lexes_float 4 tz true (final (advance 4 tz)) eq_refl).
Defined.

(** X30.  No text makes a Float.  When [parse] returns, no value of type
    [Float] is in its output, at any depth, unless it was in the output
    before the call: the branch of [parseValue] for a token of kind
    [Float] is never taken. *)
Theorem parse_never_yields_float
  (fuel : nat) (output : Value) (chars : list ascii) (n : nat)
  (b : bool) (value : Value) (tz' : Tokenizer.t) :
  float_free output = true ->
  parse fuel output chars n = Ok (b, value) tz' ->
  float_free value = true.
Proof.
  intros Hout E.
  pose (J := fun tz => lexable (Token.content (m_token tz)) = true).
  assert (Hadv : holds J whatever (advance fuel)).
  { intros tz _. eapply ends_weaken; [apply (advance_lexable fuel tz)| |]; simpl; auto.
    intros x tz1 H. split; [exact I|exact H]. }
  assert (H : ends (parse fuel output chars n)
                   (fun r tz' => float_free (snd r) = true /\ J tz')
                   (fun e tz' => J tz' /\ spans_token e tz')).
  { unfold parse. unfold bind at 1, modify.
    eapply holds_step;
      [exact Hadv|unfold J, setText; destruct (0 <? n); reflexivity|].
    intros _ tz1 _ HJ1.
    apply (@holds_parseValue J fuel (fun c tz Hc _ => Hc) Hadv
                             (fun v => float_free v = true));
      try reflexivity; try assumption.
    - apply float_free_move.
    - intros a Ha. simpl. now apply Forall_forallb.
    - intros m Hm. simpl. now apply (Forall_forallb (fun kv => float_free (snd kv))).
    - intros tz f HJ Hf. unfold J in HJ. rewrite Hf in HJ. discriminate HJ. }
  rewrite E in H. apply H.
Qed.

Lemma parse_never_yields_float_witness :
  float_free Value_default = true /\
  match parse 12 Value_default (list_ascii_of_string "[1,{a:[2]}]") 11 with
  | Ok (_, value) _ => float_free value = true
  | _ => False
  end.
Proof.
  split; [reflexivity|].
  generalize (@parse_never_yields_float
                12 Value_default (list_ascii_of_string "[1,{a:[2]}]") 11).
  vm_compute. intros H. exact (H _ _ _ eq_refl eq_refl).
Defined.
